(** * Verification of the PGN ingestion and opening-classification code

    Shallow embedding of the functions of [src/chess-fetcher.js]
    ([splitEcoUrl], [formatExtraMoves], [loadOpeningsDb], [lookupOpening],
    [parseMovesAndClocks]) and of [src/game-analyzer.js] ([parsePGN],
    [analyzeMoves]).

    Text is modelled as a list of 8-bit characters ([list ascii]); the
    JavaScript regular expressions are embedded as backtracking parsers in the
    list-of-successes monad: the first element of the list of successes is
    the match JavaScript reports, alternatives and greedy quantifiers being
    tried in the order the ECMAScript matcher tries them. *)

From Stdlib Require Import Ascii String List Bool Arith Lia ZArith.
From Stdlib Require Import DecimalString.
From Stdlib Require DecimalNat.
Import ListNotations.
Local Open Scope list_scope.

Definition text := list ascii.
Definition txt (s : string) : text := list_ascii_of_string s.
Arguments txt s%_string.

(** ** Character classes *)

Definition code (c : ascii) : nat := nat_of_ascii c.
Definition between (lo hi : nat) (c : ascii) : bool :=
  (lo <=? code c) && (code c <=? hi).
Definition is_char (d c : ascii) : bool := Ascii.eqb c d.
Definition one_of (s : string) (c : ascii) : bool := existsb (Ascii.eqb c) (txt s).
Arguments one_of s%_string c.

(** [\d] *)
Definition is_digit : ascii -> bool := between 48 57.
Definition is_upper : ascii -> bool := between 65 90.
Definition is_lower : ascii -> bool := between 97 122.
(** [[a-zA-Z]] *)
Definition is_alpha (c : ascii) : bool := is_upper c || is_lower c.
(** [[a-zA-Z0-9]] *)
Definition is_alnum (c : ascii) : bool := is_alpha c || is_digit c.
(** [\w] *)
Definition is_word (c : ascii) : bool := is_alnum c || (code c =? 95).
(** [\s] on 8-bit characters: TAB, LF, VT, FF, CR, space and NBSP. *)
Definition is_space (c : ascii) : bool :=
  between 9 13 c || (code c =? 32) || (code c =? 160).

(** ** Regular expressions as backtracking parsers *)

Module Re.

Definition re (A : Type) := text -> list (A * text).

Definition ret {A} (a : A) : re A := fun s => [(a, s)].

Definition bind {A B} (p : re A) (f : A -> re B) : re B :=
  fun s => flat_map (fun ar => f (fst ar) (snd ar)) (p s).

(** [p|q]: the left alternative is tried first. *)
Definition alt {A} (p q : re A) : re A := fun s => p s ++ q s.

(** A single character of a class. *)
Definition chr (p : ascii -> bool) : re ascii :=
  fun s => match s with
           | c :: r => if p c then [(c, r)] else []
           | [] => []
           end.

Fixpoint is_prefix (w s : text) : bool :=
  match w, s with
  | [], _ => true
  | c :: w', d :: s' => Ascii.eqb c d && is_prefix w' s'
  | _ :: _, [] => false
  end.

(** A literal. *)
Definition lit (w : text) : re text :=
  fun s => if is_prefix w s then [(w, skipn (length w) s)] else [].

Definition cons_fst (c : ascii) (wr : text * text) : text * text :=
  (c :: fst wr, snd wr).

(** [c*], greedy: the longest run first. *)
Fixpoint star (p : ascii -> bool) (s : text) : list (text * text) :=
  match s with
  | c :: r => if p c then map (cons_fst c) (star p r) ++ [([], s)] else [([], s)]
  | [] => [([], [])]
  end.

(** [c+], greedy. *)
Definition plus (p : ascii -> bool) : re text :=
  fun s => match s with
           | c :: r => if p c then map (cons_fst c) (star p r) else []
           | [] => []
           end.

(** [c{0,n}], greedy. *)
Fixpoint upto (n : nat) (p : ascii -> bool) (s : text) : list (text * text) :=
  match n with
  | 0 => [([], s)]
  | S n' =>
      match s with
      | c :: r => if p c then map (cons_fst c) (upto n' p r) ++ [([], s)] else [([], s)]
      | [] => [([], s)]
      end
  end.

(** [(...)?], greedy. *)
Definition opt {A} (p : re A) : re (option A) :=
  fun s => map (fun ar => (Some (fst ar), snd ar)) (p s) ++ [(None, s)].

(** The text consumed by a match (capture group 0). *)
Definition matched {A} (p : re A) : re text :=
  fun s => map (fun ar => (firstn (length s - length (snd ar)) s, snd ar)) (p s).

(** [^...$]: the first way of matching that consumes the whole input. *)
Definition full_match {A} (p : re A) (s : text) : option A :=
  match filter (fun ar => match snd ar with [] => true | _ => false end) (p s) with
  | ar :: _ => Some (fst ar)
  | [] => None
  end.

(** [s.match(re)] / [re.exec(s)] for a regex without the [g] flag:
    the start index, the value and the rest of the first match. *)
Fixpoint search {A} (p : re A) (i : nat) (s : text) : option (nat * A * text) :=
  match p s with
  | (a, r) :: _ => Some (i, a, r)
  | [] => match s with
          | [] => None
          | _ :: s' => search p (S i) s'
          end
  end.

(** The loop [while ((m = re.exec(s)) !== null)] of a [g] regex: each search
    starts where the previous match ended ([skip] counts the characters of
    the last match still to pass over). A match that consumes nothing
    advances by one character, as [String.prototype.replace] does; none of
    the patterns of the source matches the empty text. *)
Fixpoint exec_all {A} (p : re A) (skip : nat) (s : text) {struct s} : list A :=
  match skip, s with
  | S k, _ :: s' => exec_all p k s'
  | S _, [] => []
  | 0, _ =>
      match p s with
      | (a, r) :: _ =>
          a :: match s with
               | [] => []
               | _ :: s' => exec_all p (length s - length r - 1) s'
               end
      | [] => match s with
              | [] => []
              | _ :: s' => exec_all p 0 s'
              end
      end
  end.

(** [s.replace(re_g, f)]: [f] receives the index of the match among all
    matches and the matched text. *)
Fixpoint replace_all {A} (p : re A) (f : nat -> text -> text) (skip i : nat)
    (s : text) {struct s} : text :=
  match skip, s with
  | S k, _ :: s' => replace_all p f k i s'
  | S _, [] => []
  | 0, _ =>
      match p s with
      | (_, r) :: _ =>
          let n := length s - length r in
          f i (firstn n s) ++
            match s with
            | [] => []
            | c :: s' =>
                match n with
                | 0 => c :: replace_all p f 0 (S i) s'
                | S k => replace_all p f k (S i) s'
                end
            end
      | [] => match s with
              | [] => []
              | c :: s' => c :: replace_all p f 0 i s'
              end
      end
  end.

Definition replace_g {A} (p : re A) (by_ : text) (s : text) : text :=
  replace_all p (fun _ _ => by_) 0 0 s.

End Re.

Import Re.

Notation "x <- p ;; q" := (Re.bind p (fun x => q))
  (at level 61, p at next level, right associativity).
Notation "p ;; q" := (Re.bind p (fun _ => q)) (at level 61, right associativity).

(** ** JavaScript string methods *)

(** [s.indexOf(w)] *)
Fixpoint index_of (w s : text) : option nat :=
  if is_prefix w s then Some 0
  else match s with
       | [] => None
       | _ :: s' => option_map S (index_of w s')
       end.

(** [s.includes(w)] *)
Definition includes (w s : text) : bool :=
  match index_of w s with Some _ => true | None => false end.

(** [s.split(sep)] for a non-empty separator. *)
Fixpoint split_go (sep : text) (skip : nat) (cur : text) (s : text) : list text :=
  match skip, s with
  | S k, _ :: s' => split_go sep k cur s'
  | _, [] => [cur]
  | 0, c :: s' =>
      if is_prefix sep s then cur :: split_go sep (length sep - 1) [] s'
      else split_go sep 0 (cur ++ [c]) s'
  end.

Definition split (sep s : text) : list text := split_go sep 0 [] s.

(** [s.replace(w, by)] with a string pattern: the first occurrence only
    (the replacement texts used below contain no [$]). *)
Definition replace_first (w by_ s : text) : text :=
  match index_of w s with
  | Some n => firstn n s ++ by_ ++ skipn (n + length w) s
  | None => s
  end.

(** [s.toLowerCase()] on one code unit: a [text] holds code units
    0..255 (Latin-1), and there the Unicode lower-case mapping moves
    A-Z (65-90) and the letters 192-222 other than the sign 215 up by
    32; every other code unit of that range is its own lower case. *)
Definition is_upper_latin1 (c : ascii) : bool :=
  is_upper c || (between 192 222 c && negb (code c =? 215)).
Definition lower_char (c : ascii) : ascii :=
  if is_upper_latin1 c then ascii_of_nat (code c + 32) else c.
Definition toLowerCase (s : text) : text := map lower_char s.

Fixpoint drop_spaces (s : text) : text :=
  match s with
  | c :: s' => if is_space c then drop_spaces s' else s
  | [] => []
  end.

(** [s.trim()] *)
Definition trim (s : text) : text := rev (drop_spaces (rev (drop_spaces s))).

(** [arr.join(sep)] *)
Fixpoint join (sep : text) (l : list text) : text :=
  match l with
  | [] => []
  | [x] => x
  | x :: l' => x ++ sep ++ join sep l'
  end.

(** [String(n)] for a natural number. *)
Definition nat_text (n : nat) : text := txt (NilZero.string_of_uint (Nat.to_uint n)).

(** ** [splitEcoUrl] (src/chess-fetcher.js) *)

Section Opening.

(** [(O-O(?:-O)?|[a-zA-Z0-9]+)] *)
Definition with_move : re unit :=
  alt (lit (txt "O-O");; opt (lit (txt "-O"));; ret tt)
      (plus is_alnum;; ret tt).

(** [/with-(\d+)-(O-O(?:-O)?|[a-zA-Z0-9]+)(?:-and-(\d+)-(O-O(?:-O)?|[a-zA-Z0-9]+))?/g] *)
Definition with_re : re unit :=
  lit (txt "with-");; plus is_digit;; lit (txt "-");; with_move;;
  opt (lit (txt "-and-");; plus is_digit;; lit (txt "-");; with_move);;
  ret tt.

(** [/(-\d+\.{0,3}[a-zA-Z]|\.{3}\d+\.|\.{3}[a-zA-Z])/] *)
Definition move_re : re unit :=
  alt (lit (txt "-");; plus is_digit;; upto 3 (is_char ".");;
       chr is_alpha;; ret tt)
   (alt (lit (txt "...");; plus is_digit;; lit (txt ".");; ret tt)
        (lit (txt "...");; chr is_alpha;; ret tt)).

(** [`__WITH_${i}__`] *)
Definition placeholder (i : nat) : text := txt "__WITH_" ++ nat_text i ++ txt "__".

Record split_result := { baseSlug : text; extraMoves : text }.

Definition no_split : split_result := {| baseSlug := []; extraMoves := [] |}.

Definition splitEcoUrl (ecoUrl : text) : split_result :=
  if negb (includes (txt "chess.com/openings/") ecoUrl) then no_split else
  let fullSlug := nth 1 (split (txt "/openings/") ecoUrl) [] in
  match fullSlug with
  | [] => no_split
  | _ =>
    (* withPatterns, and the slug with each of them replaced by its placeholder *)
    let withPatterns := exec_all (matched with_re) 0 fullSlug in
    let slug := replace_all with_re (fun i _ => placeholder i) 0 0 fullSlug in
    let '(baseSlug0, extraMoves0) :=
      match search move_re 0 slug with
      | Some (idx, _, _) => (firstn idx slug, skipn idx slug)
      | None => (slug, [])
      end in
    let baseSlug1 :=
      fold_left (fun b ip => replace_first (placeholder (fst ip)) (snd ip) b)
                (combine (seq 0 (length withPatterns)) withPatterns) baseSlug0 in
    {| baseSlug := toLowerCase baseSlug1; extraMoves := extraMoves0 |}
  end.

(** ** [formatExtraMoves] (src/chess-fetcher.js) *)

(** [token.match(/^(\d+)(\.{0,3})$/)] *)
Definition num_token (t : text) : option (text * text) :=
  full_match (num <- plus is_digit;; dots <- upto 3 (is_char ".");; ret (num, dots)) t.

(** [/^\d+\.{0,3}$/] tested on a token *)
Definition is_num_token (t : text) : bool :=
  match num_token t with Some _ => true | None => false end.

(** The [while (i < tokens.length)] loop. *)
Fixpoint format_tokens (ts : list text) : list text :=
  match ts with
  | [] => []
  | t :: ts1 =>
      match num_token t with
      | Some (num, dots) =>
          if list_eq_dec ascii_dec dots (txt "...") then
            (num ++ txt "...") ::
              match ts1 with
              | t2 :: ts2 => if is_num_token t2 then format_tokens ts1
                             else t2 :: format_tokens ts2
              | [] => []
              end
          else
            (num ++ txt ".") ::
              match ts1 with
              | t2 :: ts2 =>
                  if is_num_token t2 then format_tokens ts1
                  else t2 :: match ts2 with
                             | t3 :: ts3 => if is_num_token t3 then format_tokens ts2
                                            else t3 :: format_tokens ts3
                             | [] => []
                             end
              | [] => []
              end
      | None => t :: format_tokens ts1
      end
  end.

Definition formatExtraMoves (extraMovesSlug : text) : text :=
  match extraMovesSlug with
  | [] => []
  | _ =>
    match trim extraMovesSlug with
    | [] => []
    | slug0 =>
      (* slug.replace(/^[-\.]+/, '') *)
      let slug := match plus (one_of "-.") slug0 with
                  | (_, r) :: _ => r
                  | [] => slug0
                  end in
      match slug with
      | [] => []
      | _ =>
        let tokens := filter (fun t => match t with [] => false | _ => true end)
                             (split (txt "-") slug) in
        match tokens with
        | [] => []
        | _ => join (txt " ") (format_tokens tokens)
        end
      end
    end
  end.

End Opening.

(** ** JavaScript [Map] and plain objects used as dictionaries

    An association list in insertion order; [set] on a present key updates
    the value in place, as [Map.prototype.set] does. *)

Section JsMap.
Context {V : Type}.

Definition jsmap := list (text * V).

Definition text_eqb (a b : text) : bool :=
  if list_eq_dec ascii_dec a b then true else false.

Fixpoint map_get (k : text) (m : jsmap) : option V :=
  match m with
  | [] => None
  | (k', v) :: m' => if text_eqb k k' then Some v else map_get k m'
  end.

Definition map_has (k : text) (m : jsmap) : bool :=
  match map_get k m with Some _ => true | None => false end.

Fixpoint map_set (k : text) (v : V) (m : jsmap) : jsmap :=
  match m with
  | [] => [(k, v)]
  | (k', v') :: m' => if text_eqb k k' then (k', v) :: m' else (k', v') :: map_set k v m'
  end.

End JsMap.
Arguments jsmap : clear implicits.

(** ** Catalog entries, [loadOpeningsDb] and [lookupOpening] (src/chess-fetcher.js) *)

Record entry := {
  fullName : text; slug : text; family : text; baseName : text;
  var1 : text; var2 : text; var3 : text; var4 : text; var5 : text; var6 : text }.

(** A row of [SELECT * FROM openings]; a NULL column is the empty text
    ([String(row.x || '')]). *)
Record row := {
  trim_slug : text; full_name : text; row_family : text; base_name : text;
  variation_1 : text; variation_2 : text; variation_3 : text;
  variation_4 : text; variation_5 : text; variation_6 : text }.

(** [lookupOpening(db, slug)] *)
Definition lookupOpening {V} (db : jsmap V) (slug : text) : option V :=
  if map_has slug db then map_get slug db
  else
    let withoutWith := nth 0 (split (txt "-with-") slug) [] in
    if negb (text_eqb withoutWith []) && negb (text_eqb withoutWith slug)
       && map_has withoutWith db
    then map_get withoutWith db
    else None.

(** The [for (const row of rows)] loop of [loadOpeningsDb]. *)
Definition add_row (cache : jsmap entry) (r : row) : jsmap entry :=
  let trimSlug := toLowerCase (trim (trim_slug r)) in
  match trimSlug with
  | [] => cache
  | _ => map_set trimSlug
           {| fullName := full_name r; slug := trimSlug; family := row_family r;
              baseName := base_name r; var1 := variation_1 r; var2 := variation_2 r;
              var3 := variation_3 r; var4 := variation_4 r; var5 := variation_5 r;
              var6 := variation_6 r |} cache
  end.

Definition build_catalog (rows : list row) : jsmap entry := fold_left add_row rows [].

(** The backing store as seen by one call: whether [openings.db] exists,
    whether it opens, and the answer of [SELECT * FROM openings]
    ([None] when the query fails). *)
Record store := { db_exists : bool; db_opens : bool; db_rows : option (list row) }.

(** Observable effects of a call on the backing store. *)
Inductive event := ExistsCheck | OpenDb | QueryAll | CloseDb.

(** The module-level variables [openingsCache] and [lastCacheTime]
    ([None] is [null]). *)
Record cache_state := { openingsCache : option (jsmap entry); lastCacheTime : option Z }.

Definition initial_cache : cache_state := {| openingsCache := None; lastCacheTime := None |}.

(** [5 * 60 * 1000] *)
Definition CACHE_DURATION_MS : Z := 5 * 60 * 1000.

(** The test [openingsCache && lastCacheTime && (now - lastCacheTime) <
    CACHE_DURATION_MS]: a [Map] is always truthy, a time of [null] or [0] is
    not. *)
Definition cache_hit (now : Z) (st : cache_state) : option (jsmap entry) :=
  match openingsCache st, lastCacheTime st with
  | Some c, Some t =>
      if negb (Z.eqb t 0) && (now - t <? CACHE_DURATION_MS)%Z then Some c else None
  | _, _ => None
  end.

(** The rest of [loadOpeningsDb]: the existence check, the open callback and
    the query callback; each failure stores and returns an empty map. *)
Definition read_store (env : store) (now : Z) : jsmap entry * cache_state * list event :=
  let fill (cache : jsmap entry) :=
    {| openingsCache := Some cache; lastCacheTime := Some now |} in
  if negb (db_exists env) then ([], fill [], [ExistsCheck])
  else if negb (db_opens env) then ([], fill [], [ExistsCheck; OpenDb])
  else match db_rows env with
       | None => ([], fill [], [ExistsCheck; OpenDb; QueryAll; CloseDb])
       | Some rows =>
           let cache := build_catalog rows in
           (cache, fill cache, [ExistsCheck; OpenDb; QueryAll; CloseDb])
       end.

(** [loadOpeningsDb()] called at time [now] ([Date.now()]), run to the
    resolution of its promise: the mapping returned, the new values of
    [openingsCache] and [lastCacheTime], and the effects on the store. *)
Definition loadOpeningsDb (env : store) (now : Z) (st : cache_state)
    : jsmap entry * cache_state * list event :=
  match cache_hit now st with
  | Some c => (c, st, [])
  | None => read_store env now
  end.

(** A sequence of calls, each with the store as it is at that call and the
    time of the call. *)
Fixpoint load_run (calls : list (store * Z)) (st : cache_state)
    : list (jsmap entry * list event) :=
  match calls with
  | [] => []
  | (env, now) :: calls' =>
      let '(m, st', ev) := loadOpeningsDb env now st in
      (m, ev) :: load_run calls' st'
  end.

(** ** [analyzeMoves] (src/game-analyzer.js) *)

Record stats := {
  totalMoves : nat; captures : nat; checks : nat; checkmates : nat; castles : nat;
  pawnMoves : nat; pieceMoves : nat; queenMoves : nat; rookMoves : nat;
  bishopMoves : nat; knightMoves : nat; kingMoves : nat; promotions : nat;
  whiteMoves : list text; blackMoves : list text }.

Definition starts_with (c : ascii) (m : text) : bool :=
  match m with d :: _ => Ascii.eqb d c | [] => false end.

(** [/^[a-h]/.test(move)] *)
Definition starts_with_file (m : text) : bool :=
  match m with d :: _ => between 97 104 d | [] => false end.

Definition incr (b : bool) (n : nat) : nat := if b then S n else n.

(** One iteration of the [for] loop, at index [i]. *)
Definition count_move (i : nat) (move : text) (st : stats) : stats :=
  let white := Nat.even i in
  let pawn := starts_with_file move in
  let knight := negb pawn && starts_with "N" move in
  let bishop := negb pawn && negb knight && starts_with "B" move in
  let rook := negb pawn && negb knight && negb bishop && starts_with "R" move in
  let queen := negb pawn && negb knight && negb bishop && negb rook && starts_with "Q" move in
  let king := negb pawn && negb knight && negb bishop && negb rook && negb queen
              && starts_with "K" move in
  {| totalMoves := totalMoves st;
     captures := incr (includes (txt "x") move) (captures st);
     checks := incr (includes (txt "+") move) (checks st);
     checkmates := incr (includes (txt "#") move) (checkmates st);
     castles := incr (includes (txt "O-O") move) (castles st);
     promotions := incr (includes (txt "=") move) (promotions st);
     pawnMoves := incr pawn (pawnMoves st);
     knightMoves := incr knight (knightMoves st);
     bishopMoves := incr bishop (bishopMoves st);
     rookMoves := incr rook (rookMoves st);
     queenMoves := incr queen (queenMoves st);
     kingMoves := incr king (kingMoves st);
     pieceMoves := pieceMoves st;
     whiteMoves := if white then whiteMoves st ++ [move] else whiteMoves st;
     blackMoves := if white then blackMoves st else blackMoves st ++ [move] |}.

Fixpoint count_moves (i : nat) (moves : list text) (st : stats) : stats :=
  match moves with
  | [] => st
  | m :: ms => count_moves (S i) ms (count_move i m st)
  end.

Definition analyzeMoves (moves : list text) : stats :=
  let st0 := {| totalMoves := length moves; captures := 0; checks := 0; checkmates := 0;
                castles := 0; pawnMoves := 0; pieceMoves := 0; queenMoves := 0;
                rookMoves := 0; bishopMoves := 0; knightMoves := 0; kingMoves := 0;
                promotions := 0; whiteMoves := []; blackMoves := [] |} in
  let st := count_moves 0 moves st0 in
  {| totalMoves := totalMoves st; captures := captures st; checks := checks st;
     checkmates := checkmates st; castles := castles st; pawnMoves := pawnMoves st;
     pieceMoves := knightMoves st + bishopMoves st + rookMoves st + queenMoves st
                   + kingMoves st;
     queenMoves := queenMoves st; rookMoves := rookMoves st;
     bishopMoves := bishopMoves st; knightMoves := knightMoves st;
     kingMoves := kingMoves st; promotions := promotions st;
     whiteMoves := whiteMoves st; blackMoves := blackMoves st |}.

(** ** [parsePGN] (src/game-analyzer.js) *)

Section PGN.

Definition dq : ascii := ascii_of_nat 34.
Definition nl : ascii := ascii_of_nat 10.

Definition not_char (d : ascii) (c : ascii) : bool := negb (is_char d c).

(** [/\[(\w+)\s+Q([^Q]+)Q\]/g] where [Q] stands for the double quote [dq]. *)
Definition header_re : re (text * text) :=
  lit (txt "[");; name <- plus is_word;; plus is_space;; lit [dq];;
  value <- plus (not_char dq);; lit [dq];; lit (txt "]");; ret (name, value).

(** [headers[name] = value] on the object literal [{}]: assigning the key
    [__proto__] runs the inherited setter, which ignores a string and adds
    no own property. *)
Definition obj_set (k v : text) (o : jsmap text) : jsmap text :=
  if text_eqb k (txt "__proto__") then o else map_set k v o.

Definition parse_headers (pgn : text) : jsmap text :=
  fold_left (fun o nv => obj_set (fst nv) (snd nv) o) (exec_all header_re 0 pgn) [].

(** The [for (const line of lines)] loop: [has_headers] is
    [Object.keys(headers).length > 0]. *)
Fixpoint collect_moves (has_headers inMoves : bool) (movesText : text) (lines : list text)
    : text :=
  match lines with
  | [] => movesText
  | line :: lines' =>
      match trim line with
      | [] => collect_moves has_headers (inMoves || has_headers) movesText lines'
      | _ => if inMoves then collect_moves has_headers inMoves (movesText ++ txt " " ++ line) lines'
             else collect_moves has_headers inMoves movesText lines'
      end
  end.

(** [/\{[^}]*\}/g] *)
Definition comment_re : re unit :=
  lit (txt "{");; star (not_char "}");; lit (txt "}");; ret tt.
(** [/\([^)]*\)/g] *)
Definition variation_re : re unit :=
  lit (txt "(");; star (not_char ")");; lit (txt ")");; ret tt.
(** [/\$\d+/g] *)
Definition nag_re : re unit := lit (txt "$");; plus is_digit;; ret tt.
(** [/[!?]+/g] *)
Definition annot_re : re unit := plus (one_of "!?");; ret tt.
(** [/1-0|0-1|1\/2-1\/2|\*/g] *)
Definition result_re : re unit :=
  alt (lit (txt "1-0");; ret tt) (alt (lit (txt "0-1");; ret tt)
    (alt (lit (txt "1/2-1/2");; ret tt) (lit (txt "*");; ret tt))).
(** [/\s+/g] *)
Definition spaces_re : re unit := plus is_space;; ret tt.

Definition clean_moves (movesText : text) : text :=
  trim (replace_g spaces_re (txt " ")
    (replace_g result_re [] (replace_g annot_re [] (replace_g nag_re []
      (replace_g variation_re [] (replace_g comment_re [] movesText)))))).

(** [[a-h1-8NBRQKOx=+#-]] *)
Definition san_char : ascii -> bool := one_of "abcdefgh12345678NBRQKOx=+#-".

(** [/\d+\.\s*([a-h1-8NBRQKOx=+#-]+)\s*([a-h1-8NBRQKOx=+#-]+)?/g] *)
Definition pgn_move_re : re (text * option text) :=
  plus is_digit;; lit (txt ".");; star is_space;; m1 <- plus san_char;; star is_space;;
  m2 <- opt (plus san_char);; ret (m1, m2).

Definition extract_moves (movesText : text) : list text :=
  flat_map (fun mm => fst mm :: match snd mm with Some m2 => [m2] | None => [] end)
           (exec_all pgn_move_re 0 movesText).

Record parsed := { headers : jsmap text; moves : list text }.

Definition parsePGN (pgn : text) : parsed :=
  match pgn with
  | [] => {| headers := []; moves := [] |}
  | _ =>
    let hs := parse_headers pgn in
    let lines := split [nl] pgn in
    let movesText := collect_moves (negb (Nat.eqb (length hs) 0)) false [] lines in
    {| headers := hs; moves := extract_moves (clean_moves movesText) |}
  end.

End PGN.
(** ** [parseMovesAndClocks] (src/chess-fetcher.js) *)

Section Clocks.

Definition is_file : ascii -> bool := between 97 104.
Definition is_rank : ascii -> bool := between 49 56.

(** [[NBRQK]?[a-h]?[1-8]?x?[a-h][1-8](?:=[NBRQK])?] *)
Definition piece_move : re unit :=
  upto 1 (one_of "NBRQK");; upto 1 is_file;; upto 1 is_rank;; upto 1 (is_char "x");;
  chr is_file;; chr is_rank;; opt (lit (txt "=");; chr (one_of "NBRQK"));; ret tt.

(** [O-O(?:-O)?] *)
Definition castle_move : re unit := lit (txt "O-O");; opt (lit (txt "-O"));; ret tt.

(** [/(MOVE|O-O(?:-O)?)\s*\{?\[%clk\s+(\d+):(\d+):(\d+)(?:\.(\d+))?\]?\}?/g] *)
Definition clock_re : re (text * text * text * text * option text) :=
  mv <- matched (alt piece_move castle_move);;
  star is_space;; upto 1 (is_char "{");; lit (txt "[%clk");; plus is_space;;
  h <- plus is_digit;; lit (txt ":");; m <- plus is_digit;; lit (txt ":");;
  sec <- plus is_digit;; d <- opt (lit (txt ".");; plus is_digit);;
  upto 1 (is_char "]");; upto 1 (is_char "}");; ret (mv, h, m, sec, d).

(** [parseInt] of a run of decimal digits. *)
Definition digits_value (ds : text) : Z :=
  fold_left (fun acc c => (10 * acc + Z.of_nat (code c - 48))%Z) ds 0%Z.

(** A per-move clock entry; the clock is kept in tenths of a second
    ([hours * 3600 + minutes * 60 + seconds + deciseconds / 10] times ten). *)
Record clock_entry := { move : text; clock_tenths : Z }.

Definition to_entry (x : text * text * text * text * option text) : clock_entry :=
  let '(mv, h, m, sec, d) := x in
  {| move := mv;
     clock_tenths := (10 * (digits_value h * 3600 + digits_value m * 60 + digits_value sec)
                      + match d with Some ds => digits_value ds | None => 0 end)%Z |}.

(** The [while ((match = movePattern.exec(moveSection)) !== null)] loop. *)
Definition clock_entries (moveSection : text) : list clock_entry :=
  map to_entry (exec_all clock_re 0 moveSection).

(** [/\d+\.\s+\S+(\s+\S+)?/g] *)
Definition ply_re : re unit :=
  plus is_digit;; lit (txt ".");; plus is_space;; plus (fun c => negb (is_space c));;
  opt (plus is_space;; plus (fun c => negb (is_space c)));; ret tt.

(** [move.match(/\S+/g).length] *)
Definition count_words (m : text) : nat :=
  length (exec_all (plus (fun c => negb (is_space c))) 0 m).

Record moves_and_clocks := { movesData : option (list clock_entry); plies : nat; fullMoves : nat }.

Definition parseMovesAndClocks (pgn : text) : moves_and_clocks :=
  match pgn with
  | [] => {| movesData := None; plies := 0; fullMoves := 0 |}
  | _ =>
    let moveSection := nth 1 (split [nl; nl] pgn) [] in
    let ms := exec_all (matched ply_re) 0 moveSection in
    let plyCount := fold_left (fun n m => n + (count_words m - 1)) ms 0 in
    {| movesData := Some (clock_entries moveSection); plies := plyCount;
       fullMoves := (plyCount + 1) / 2 |}
  end.

End Clocks.

(** ** [parseInt] *)

Section ParseInt.

(** The value of a digit in base 16 ([0-9a-fA-F]). *)
Definition hex_value (c : ascii) : option Z :=
  if is_digit c then Some (Z.of_nat (code c - 48))
  else if between 97 102 c then Some (Z.of_nat (code c - 87))
  else if between 65 70 c then Some (Z.of_nat (code c - 55))
  else None.

(** A digit of the radix ([10] or [16]). *)
Definition radix_digit (radix : Z) (c : ascii) : option Z :=
  match hex_value c with
  | Some v => if (v <? radix)%Z then Some v else None
  | None => None
  end.

(** The longest prefix made of digits of the radix. *)
Fixpoint take_digits (radix : Z) (s : text) : text :=
  match s with
  | c :: s' => match radix_digit radix c with
               | Some _ => c :: take_digits radix s'
               | None => []
               end
  | [] => []
  end.

Definition radix_value (radix : Z) (ds : text) : Z :=
  fold_left (fun acc c => (radix * acc + match radix_digit radix c with
                                         | Some v => v
                                         | None => 0
                                         end)%Z) ds 0%Z.

(** [parseInt(s)] with no radix argument, on a string: leading white space
    is skipped, one sign is read, a [0x]/[0X] prefix selects base 16, and the
    longest run of digits is read; [None] is [NaN]; [-0] is [0]. The value
    is kept exact: it is the double JavaScript returns as long as its
    magnitude stays below [2^53]; the facts below bound the number of
    digits read, or only compare the value with small constants. *)
Definition parseInt (s : text) : option Z :=
  let s1 := drop_spaces s in
  let '(sign, s2) :=
    match s1 with
    | c :: r => if Ascii.eqb c "-" then ((-1)%Z, r)
                else if Ascii.eqb c "+" then (1%Z, r) else (1%Z, s1)
    | [] => (1%Z, s1)
    end in
  let '(radix, s3) :=
    match s2 with
    | c :: d :: r => if Ascii.eqb c "0" && (Ascii.eqb d "x" || Ascii.eqb d "X")
                     then (16%Z, r) else (10%Z, s2)
    | _ => (10%Z, s2)
    end in
  match take_digits radix s3 with
  | [] => None
  | ds => Some (sign * radix_value radix ds)%Z
  end.

(** [parseInt(s) || 0]: [NaN] (and [-0]) become [0]. *)
Definition or0 (o : option Z) : Z := match o with Some z => z | None => 0%Z end.

End ParseInt.

(** ** Game records of the Chess.com API *)

(** [x || d] on a string field that may be missing: a missing field and the
    empty string are falsy. *)
Definition or_else (o : option text) (d : text) : text :=
  match o with
  | Some ((_ :: _) as s) => s
  | _ => d
  end.

(** [arr.includes(x)] on an array of strings. *)
Definition mem_text (x : text) (l : list text) : bool := existsb (text_eqb x) l.

(** [game.white] / [game.black] *)
Record player := { username : option text; result : option text }.

Record game := {
  rules : option text; time_class : option text; time_control : option text;
  white : option player; black : option player }.

(** ** [getGameFormat] (src/chess-fetcher.js) *)

Section GameFormat.

(** [/(\d+)\+(\d+)/] *)
Definition tc_re : re (text * text) :=
  b <- plus is_digit;; lit (txt "+");; i <- plus is_digit;; ret (b, i).

Definition getGameFormat (g : game) : text :=
  let rules := toLowerCase (or_else (rules g) (txt "chess")) in
  let timeClass := toLowerCase (or_else (time_class g) []) in
  if text_eqb rules (txt "chess960") then
    (if text_eqb timeClass (txt "daily") then txt "daily960" else txt "live960")
  else if negb (text_eqb rules (txt "chess")) then rules
  else if mem_text timeClass [txt "bullet"; txt "blitz"; txt "rapid"; txt "daily"]
  then timeClass
  else
    let tc := or_else (time_control g) [] in
    match search tc_re 0 tc with
    | None => or_else (Some timeClass) (txt "unknown")
    | Some (_, (b, i), _) =>
        match parseInt b, parseInt i with
        | Some base, Some inc =>
            let estimated := (base + 40 * inc)%Z in
            if (estimated <? 180)%Z then txt "bullet"
            else if (estimated <? 600)%Z then txt "blitz"
            else txt "rapid"
        (* [NaN < 180] and [NaN < 600] are false *)
        | _, _ => txt "rapid"
        end
    end.

End GameFormat.

(** ** [parseTimeControl] (src/chess-fetcher.js) *)

Section TimeControl.

Record time_control_fields := {
  baseTime : option Z; increment : option Z; correspondenceTime : option Z }.

Definition no_time_control : time_control_fields :=
  {| baseTime := None; increment := None; correspondenceTime := None |}.

(** [timeControl] is a string field ([None] when missing); [timeClass] is
    compared with [===] as given. *)
Definition parseTimeControl (timeControl timeClass : option text) : time_control_fields :=
  match timeControl with
  | None | Some [] => no_time_control
  | Some tc =>
    let tcStr := trim tc in
    let as_days :=
      {| baseTime := Some 0%Z; increment := Some 0%Z;
         correspondenceTime := Some (or0 (parseInt tcStr) * 86400)%Z |} in
    if match timeClass with Some t => text_eqb t (txt "daily") | None => false end
       || includes (txt "/") tcStr then
      if includes (txt "/") tcStr then
        let parts := split (txt "/") tcStr in
        if Nat.eqb (length parts) 2 then
          {| baseTime := Some 0%Z; increment := Some 0%Z;
             correspondenceTime := Some (or0 (parseInt (nth 1 parts []))) |}
        else as_days
      else as_days
    else
      let with_increment :=
        if includes (txt "+") tcStr then
          let parts := split (txt "+") tcStr in
          if Nat.eqb (length parts) 2 then
            Some {| baseTime := Some (or0 (parseInt (nth 0 parts [])));
                    increment := Some (or0 (parseInt (nth 1 parts [])));
                    correspondenceTime := None |}
          else None
        else None in
      match with_increment with
      | Some r => r
      | None =>
          match parseInt tcStr with
          | Some baseOnly =>
              {| baseTime := Some baseOnly; increment := Some 0%Z; correspondenceTime := None |}
          | None => no_time_control
          end
      end
  end.

End TimeControl.

(** ** [extractECOCodeFromPGN], [extractECOFromPGN] (src/chess-fetcher.js) *)

Section TagValue.

(** [/\[NAME\s+Q([^Q]+)Q\]/] where [Q] stands for the double quote [dq]. *)
Definition tag_re (name : text) : re text :=
  lit (txt "[" ++ name);; plus is_space;; lit [dq];;
  value <- plus (not_char dq);; lit [dq];; lit (txt "]");; ret value.

(** [pgn.match(re)], then [match ? match[1] : ''] *)
Definition tag_value (name : text) (pgn : text) : text :=
  match pgn with
  | [] => []
  | _ => match search (tag_re name) 0 pgn with
         | Some (_, v, _) => v
         | None => []
         end
  end.

Definition extractECOCodeFromPGN (pgn : text) : text := tag_value (txt "ECO") pgn.

Definition extractECOFromPGN (pgn : text) : text := tag_value (txt "ECOUrl") pgn.

End TagValue.

(** ** [parseUTCDateTime], [extractDurationFromPGN] (src/chess-fetcher.js) *)

Section DateTime.

(** The day number (days since 1970-01-01) of the proleptic Gregorian date
    [y]-[m]-[d], [m] in [1..12]: the day [Day(t)] of ECMAScript's time
    values. *)
Definition days_from_civil (y m d : Z) : Z :=
  let y' := if (m <=? 2)%Z then (y - 1)%Z else y in
  let era := (y' / 400)%Z in
  let yoe := (y' - era * 400)%Z in
  let mp := ((m + 9) mod 12)%Z in
  let doy := ((153 * mp + 2) / 5 + d - 1)%Z in
  let doe := (yoe * 365 + yoe / 4 - yoe / 100 + doy)%Z in
  (era * 146097 + doe - 719468)%Z.

(** [MakeDay(year, month, date)]: the month is 0-based and overflows into
    the year. *)
Definition make_day (year month date : Z) : Z :=
  (days_from_civil (year + month / 12) (month mod 12 + 1) 1 + date - 1)%Z.

(** [TimeClip]: [None] is [NaN]. *)
Definition time_clip (tv : Z) : option Z :=
  if (Z.abs tv <=? 8640000000000000)%Z then Some tv else None.

(** [Date.UTC(year, month, day, hour, minute, second)] on integers or
    [NaN] ([None]): a year in [0..99] is [1900 + year]; [MakeDate(MakeDay,
    MakeTime)], then [TimeClip]. Time values are integers of at most
    [8.64e15] in absolute value, exact as doubles. *)
Definition date_utc (year month day hour minute second : option Z) : option Z :=
  match year, month, day, hour, minute, second with
  | Some y, Some mo, Some d, Some h, Some mi, Some s =>
      let yr := if (0 <=? y)%Z && (y <=? 99)%Z then (1900 + y)%Z else y in
      time_clip (make_day yr mo d * 86400000 + (h * 3600000 + mi * 60000 + s * 1000))%Z
  | _, _, _, _, _, _ => None
  end.

(** [parseUTCDateTime(dateStr, timeStr)]: [None] is [null]; [Some tv] is a
    [Date] of time value [tv] ([Some None] an invalid date, whose
    [getTime()] is [NaN]). *)
Definition parseUTCDateTime (dateStr timeStr : text) : option (option Z) :=
  let dateParts := split (txt ".") dateStr in
  let timeParts := split (txt ":") timeStr in
  if (length dateParts =? 3) && (length timeParts =? 3) then
    match map parseInt dateParts, map parseInt timeParts with
    | [year; month; day], [hour; minute; second] =>
        Some (date_utc year (option_map (fun m => (m - 1)%Z) month) day hour minute second)
    | _, _ => None
    end
  else None.

(** [extractDurationFromPGN(pgn)]: [None] is [null], [Some None] is [NaN].
    The difference of the two time values and its quotient by [1000] are
    kept exact ([Math.floor] is the floor division). *)
Definition extractDurationFromPGN (pgn : text) : option (option Z) :=
  match pgn with
  | [] => None
  | _ =>
    match search (tag_re (txt "UTCDate")) 0 pgn, search (tag_re (txt "UTCTime")) 0 pgn,
          search (tag_re (txt "EndDate")) 0 pgn, search (tag_re (txt "EndTime")) 0 pgn with
    | Some (_, sd, _), Some (_, st, _), Some (_, ed, _), Some (_, et, _) =>
        match parseUTCDateTime sd st, parseUTCDateTime ed et with
        | Some startDate, Some endDate =>
            Some (match startDate, endDate with
                  | Some a, Some b => Some ((b - a) / 1000)%Z
                  | _, _ => None
                  end)
        | _, _ => None
        end
    | _, _, _, _ => None
    end
  end.

End DateTime.

(** ** [getGameOutcome], [getGameTermination] (src/chess-fetcher.js)

    [None] stands for the [TypeError] thrown when [game.white.username] is
    missing. *)

Section Outcome.

Definition loss_results : list text :=
  [txt "checkmated"; txt "resigned"; txt "timeout"; txt "abandoned"].

Definition draw_results : list text :=
  [txt "agreed"; txt "stalemate"; txt "repetition"; txt "insufficient";
   txt "timevsinsufficient"; txt "50move"].

(** [r === x] *)
Definition result_is (r : option text) (x : text) : bool :=
  match r with Some t => text_eqb t x | None => false end.

(** [list.includes(r)] *)
Definition result_in (r : option text) (l : list text) : bool :=
  match r with Some t => mem_text t l | None => false end.

(** [game.white.username.toLowerCase() === username.toLowerCase()] *)
Definition is_white (w : player) (username' : text) : option bool :=
  match username w with
  | Some u => Some (text_eqb (toLowerCase u) (toLowerCase username'))
  | None => None
  end.

Definition getGameOutcome (g : game) (username' : text) : option text :=
  match white g, black g with
  | Some w, Some b =>
      match is_white w username' with
      | None => None
      | Some isWhite =>
          let myResult := if isWhite then result w else result b in
          Some (if result_is myResult (txt "win") then txt "win"
                else if result_in myResult loss_results then txt "loss"
                else if result_in myResult draw_results then txt "draw"
                else txt "unknown")
      end
  | _, _ => Some (txt "unknown")
  end.

Definition getGameTermination (g : game) (username' : text) : option text :=
  match white g, black g with
  | Some w, Some b =>
      match is_white w username' with
      | None => None
      | Some isWhite =>
          let myResult := if isWhite then result w else result b in
          let oppResult := if isWhite then result b else result w in
          Some (if result_is myResult (txt "win") then or_else oppResult (txt "win")
                else or_else myResult (txt "unknown"))
      end
  | _, _ => Some (txt "unknown")
  end.

(** The result table [RESULT_MAP] of the source (declared, not used). *)
Definition RESULT_MAP : list (text * text) :=
  [(txt "win", txt "Win"); (txt "checkmated", txt "Loss"); (txt "agreed", txt "Draw");
   (txt "repetition", txt "Draw"); (txt "timeout", txt "Loss"); (txt "resigned", txt "Loss");
   (txt "stalemate", txt "Draw"); (txt "lose", txt "Loss"); (txt "insufficient", txt "Draw");
   (txt "50move", txt "Draw"); (txt "abandoned", txt "Loss"); (txt "kingofthehill", txt "Loss");
   (txt "threecheck", txt "Loss"); (txt "timevsinsufficient", txt "Draw");
   (txt "bughousepartnerlose", txt "Loss")].

End Outcome.

(** ** [formatDuration] (src/chess-fetcher.js) *)

Section Duration.

(** [String(z)] for an integer. *)
Definition z_text (z : Z) : text :=
  if (z <? 0)%Z then "-"%char :: nat_text (Z.to_nat (- z)) else nat_text (Z.to_nat z).

(** [s.padStart(n, c)] with a one-character filler. *)
Definition pad_start (n : nat) (c : ascii) (s : text) : text := repeat c (n - length s) ++ s.

(** On integers, [Math.floor(x / y)] is the floor division [Z.div] and [%]
    is the remainder [Z.rem], which takes the sign of the dividend. *)
Definition formatDuration (seconds : Z) : text :=
  let hours := (seconds / 3600)%Z in
  let minutes := (Z.rem seconds 3600 / 60)%Z in
  let secs := Z.rem seconds 60 in
  z_text hours ++ ":"%char :: pad_start 2 "0" (z_text minutes) ++
    ":"%char :: pad_start 2 "0" (z_text secs).

End Duration.

(** ** [getOpeningDataForGame] (src/chess-fetcher.js) *)

(** The object returned; the fields [var1] ... [var6] and [extraMoves] of
    the source are [opening_var1] ... [opening_var6] and
    [opening_extraMoves] here. *)
Record opening_data := {
  openingName : text; openingSlug : text; openingFamily : text; openingBase : text;
  opening_var1 : text; opening_var2 : text; opening_var3 : text;
  opening_var4 : text; opening_var5 : text; opening_var6 : text;
  opening_extraMoves : text }.

Definition empty_opening : opening_data :=
  {| openingName := []; openingSlug := []; openingFamily := []; openingBase := [];
     opening_var1 := []; opening_var2 := []; opening_var3 := [];
     opening_var4 := []; opening_var5 := []; opening_var6 := [];
     opening_extraMoves := [] |}.

(** [await getOpeningDataForGame(ecoUrl)] with the store, the time and the
    cache variables as [loadOpeningsDb] sees them. *)
Definition getOpeningDataForGame (env : store) (now : Z) (st : cache_state) (ecoUrl : text)
    : opening_data * cache_state * list event :=
  match ecoUrl with
  | [] => (empty_opening, st, [])
  | _ =>
    let sp := splitEcoUrl ecoUrl in
    match baseSlug sp with
    | [] => (empty_opening, st, [])
    | base =>
      let '(db, st', ev) := loadOpeningsDb env now st in
      match lookupOpening db base with
      | None =>
          ({| openingName := []; openingSlug := base; openingFamily := []; openingBase := [];
              opening_var1 := []; opening_var2 := []; opening_var3 := [];
              opening_var4 := []; opening_var5 := []; opening_var6 := [];
              opening_extraMoves := formatExtraMoves (extraMoves sp) |}, st', ev)
      | Some o =>
          ({| openingName := fullName o; openingSlug := slug o;
              openingFamily := family o; openingBase := baseName o;
              opening_var1 := var1 o; opening_var2 := var2 o; opening_var3 := var3 o;
              opening_var4 := var4 o; opening_var5 := var5 o; opening_var6 := var6 o;
              opening_extraMoves := formatExtraMoves (extraMoves sp) |}, st', ev)
      end
    end
  end.

(** ** [RatingsTracker] (src/chess-fetcher.js) *)

Section Ratings.

(** The JavaScript values met here: [null], [undefined], numbers ([NaN]
    apart) and the functions and objects inherited from [Object.prototype]. *)
Inductive jsval := JNull | JUndef | JNum (z : Z) | JNaN | JInherited.

Definition truthy (v : jsval) : bool :=
  match v with JNum z => negb (Z.eqb z 0) | JInherited => true | _ => false end.

Definition is_null (v : jsval) : bool := match v with JNull => true | _ => false end.

(** [ToNumber] *)
Definition to_number (v : jsval) : option Z :=
  match v with JNull => Some 0%Z | JNum z => Some z | _ => None end.

(** [a - b], kept exact: JavaScript rounds the difference to a double,
    which leaves it unchanged while its magnitude is at most [2^53]. *)
Definition js_sub (a b : jsval) : jsval :=
  match to_number a, to_number b with
  | Some x, Some y => JNum (x - y)
  | _, _ => JNaN
  end.

(** The properties of [Object.prototype], which every object literal
    inherits. *)
Definition proto_names : list text :=
  [txt "constructor"; txt "__defineGetter__"; txt "__defineSetter__";
   txt "hasOwnProperty"; txt "__lookupGetter__"; txt "__lookupSetter__";
   txt "isPrototypeOf"; txt "propertyIsEnumerable"; txt "toString"; txt "valueOf";
   txt "__proto__"; txt "toLocaleString"].

(** [obj[k]] on an object created by the literal [{}]. *)
Definition obj_get (k : text) (o : jsmap jsval) : jsval :=
  match map_get k o with
  | Some v => v
  | None => if mem_text k proto_names then JInherited else JUndef
  end.

(** [obj[k] = v] for a primitive [v]: the inherited [__proto__] setter
    ignores it. *)
Definition obj_put (k : text) (v : jsval) (o : jsmap jsval) : jsmap jsval :=
  if text_eqb k (txt "__proto__") then o else map_set k v o.

Record tracker := { ledger : jsmap jsval; loaded : bool }.

Definition new_tracker : tracker := {| ledger := []; loaded := false |}.

(** A row of [SELECT format, my_rating FROM games ...]. *)
Record rating_row := { row_format : option text; my_rating : jsval }.

(** The [for (const row of rows)] loop of [loadFromDatabase]. *)
Definition last_ratings (rows : list rating_row) : jsmap jsval :=
  fold_left (fun o r =>
               match or_else (row_format r) [] with
               | [] => o
               | f => if truthy (my_rating r) then obj_put f (my_rating r) o else o
               end) rows [].

(** [await tracker.loadFromDatabase(db)]; [rows] is [None] when the query
    fails, which rejects the promise and leaves the tracker as it is. *)
Definition loadFromDatabase (t : tracker) (rows : option (list rating_row)) : tracker :=
  if loaded t then t
  else match rows with
       | None => t
       | Some rs => {| ledger := last_ratings rs; loaded := true |}
       end.

Record rating_change := { before : jsval; delta : jsval }.

Definition calculateRating (t : tracker) (format : text) (currentRating : jsval)
    : rating_change * tracker :=
  let ratingBefore := if truthy (obj_get format (ledger t)) then obj_get format (ledger t)
                      else JNull in
  let ratingDelta := if negb (is_null ratingBefore) && negb (is_null currentRating)
                     then js_sub currentRating ratingBefore else JNull in
  let t' := if negb (is_null currentRating)
            then {| ledger := obj_put format currentRating (ledger t); loaded := loaded t |}
            else t in
  ({| before := ratingBefore; delta := ratingDelta |}, t').

(** The calls made by [insertGame] for a sequence of games, one
    [(format, myRating)] pair each, on one tracker. *)
Fixpoint rate_games (t : tracker) (gs : list (text * jsval)) : list rating_change :=
  match gs with
  | [] => []
  | (f, r) :: gs' => let '(c, t') := calculateRating t f r in c :: rate_games t' gs'
  end.

End Ratings.

(** ** The streak scan of [findStreaks] (src/game-analyzer.js) *)

Section Streaks.

Context {G : Type} (outcome : G -> option text).

Inductive streak_type := StreakWin | StreakLoss.

Definition type_is (t : option streak_type) (k : streak_type) : bool :=
  match t, k with
  | Some StreakWin, StreakWin | Some StreakLoss, StreakLoss => true
  | _, _ => false
  end.

Record streak_state := {
  currentStreak : list G; longestWinStreak : list G; longestLossStreak : list G;
  currentType : option streak_type }.

Definition streak_init : streak_state :=
  {| currentStreak := []; longestWinStreak := []; longestLossStreak := [];
     currentType := None |}.

(** The test [if (currentType === 'win' && ...) {...} else if (currentType
    === 'loss' && ...) {...}] that saves the current streak. *)
Definition save_streak (st : streak_state) : list G * list G :=
  if type_is (currentType st) StreakWin
     && (length (longestWinStreak st) <? length (currentStreak st))
  then (currentStreak st, longestLossStreak st)
  else if type_is (currentType st) StreakLoss
          && (length (longestLossStreak st) <? length (currentStreak st))
  then (longestWinStreak st, currentStreak st)
  else (longestWinStreak st, longestLossStreak st).

(** The body of [rows.forEach(game => ...)]. *)
Definition streak_step (st : streak_state) (g : G) : streak_state :=
  if result_is (outcome g) (txt "win") then
    if type_is (currentType st) StreakWin then
      {| currentStreak := currentStreak st ++ [g]; longestWinStreak := longestWinStreak st;
         longestLossStreak := longestLossStreak st; currentType := currentType st |}
    else
      {| currentStreak := [g]; longestWinStreak := longestWinStreak st;
         longestLossStreak :=
           if type_is (currentType st) StreakLoss
              && (length (longestLossStreak st) <? length (currentStreak st))
           then currentStreak st else longestLossStreak st;
         currentType := Some StreakWin |}
  else if result_is (outcome g) (txt "loss") then
    if type_is (currentType st) StreakLoss then
      {| currentStreak := currentStreak st ++ [g]; longestWinStreak := longestWinStreak st;
         longestLossStreak := longestLossStreak st; currentType := currentType st |}
    else
      {| currentStreak := [g];
         longestWinStreak :=
           if type_is (currentType st) StreakWin
              && (length (longestWinStreak st) <? length (currentStreak st))
           then currentStreak st else longestWinStreak st;
         longestLossStreak := longestLossStreak st;
         currentType := Some StreakLoss |}
  else
    let '(w, l) := save_streak st in
    {| currentStreak := []; longestWinStreak := w; longestLossStreak := l;
       currentType := None |}.

(** The scan of the rows, then the check of the final streak: the value
    [{ longestWinStreak, longestLossStreak }] the promise resolves to. *)
Definition findStreaks (rows : list G) : list G * list G :=
  save_streak (fold_left streak_step rows streak_init).

End Streaks.

(** * Properties *)

(** ** Text lemmas *)

Lemma ascii_eqb_true (a b : ascii) : Ascii.eqb a b = true <-> a = b.
Proof. split; [apply Ascii.eqb_eq | intros ->; apply Ascii.eqb_refl]. Qed.

Lemma text_eqb_true (a b : text) : text_eqb a b = true <-> a = b.
Proof. unfold text_eqb; destruct (list_eq_dec ascii_dec a b); split; congruence. Qed.

Lemma is_prefix_length (w s : text) :
  is_prefix w s = true -> length w <= length s.
Proof.
  revert s; induction w as [|c w IH]; intros [|d s] H; simpl in *;
    try discriminate; try lia.
  apply andb_true_iff in H as [_ H]. apply IH in H. lia.
Qed.

Lemma index_of_spec (w s : text) (n : nat) :
  index_of w s = Some n -> is_prefix w (skipn n s) = true.
Proof.
  revert n; induction s as [|c s IH]; intros n H; simpl in H.
  - destruct (is_prefix w []) eqn:E; inversion H; subst; exact E.
  - destruct (is_prefix w (c :: s)) eqn:E.
    + inversion H; subst; exact E.
    + destruct (index_of w s) as [m|] eqn:E2; simpl in H; inversion H; subst.
      simpl. apply IH; reflexivity.
Qed.

Lemma index_of_bound (w s : text) (n : nat) :
  index_of w s = Some n -> n + length w <= length s.
Proof.
  revert n; induction s as [|c s IH]; intros n H; simpl in H.
  - destruct (is_prefix w []) eqn:E; inversion H; subst.
    apply is_prefix_length in E; simpl in *; lia.
  - destruct (is_prefix w (c :: s)) eqn:E.
    + inversion H; subst. apply is_prefix_length in E. simpl in *. lia.
    + destruct (index_of w s) as [m|] eqn:E2; simpl in H; inversion H; subst.
      specialize (IH m eq_refl). simpl. lia.
Qed.

(** The first piece of [s.split(sep)] is the text before the first
    occurrence of [sep], or all of [s]. *)
Lemma split_go_head (sep cur s : text) :
  nth 0 (split_go sep 0 cur s) [] =
  cur ++ match index_of sep s with Some n => firstn n s | None => s end.
Proof.
  revert cur; induction s as [|c s IH]; intros cur; simpl.
  - destruct (is_prefix sep []); simpl; rewrite app_nil_r; reflexivity.
  - destruct (is_prefix sep (c :: s)) eqn:E; simpl.
    + rewrite app_nil_r; reflexivity.
    + rewrite IH, <- app_assoc. simpl.
      destruct (index_of sep s); reflexivity.
Qed.

(** ** C3: [lookupOpening] *)

Section Lookup.
Context {V : Type}.

Lemma map_has_get (k : text) (m : jsmap V) :
  map_has k m = match map_get k m with Some _ => true | None => false end.
Proof. reflexivity. Qed.

(** The portion of [slug] before the first [-with-], when there is one. *)
Definition before_with (slug : text) : option text :=
  match index_of (txt "-with-") slug with
  | Some n => Some (firstn n slug)
  | None => None
  end.

(** [lookupOpening] returns the entry of the slug when the slug is a key;
    otherwise, when the slug contains [-with-] and the part before the first
    [-with-] is non-empty, the entry of that part if it is a key; otherwise
    null. *)
Lemma lookupOpening_fallback (db : jsmap V) (slug : text) :
  lookupOpening db slug =
  match map_get slug db with
  | Some v => Some v
  | None =>
      match before_with slug with
      | Some ((_ :: _) as p) => map_get p db
      | _ => None
      end
  end.
Proof.
  unfold lookupOpening, map_has, before_with, split.
  rewrite split_go_head. cbn [app].
  destruct (map_get slug db) as [v|] eqn:Eget; [reflexivity|].
  destruct (index_of (txt "-with-") slug) as [n|] eqn:Ei.
  - pose proof (index_of_bound _ _ _ Ei) as Hb. simpl in Hb.
    assert (Hne : text_eqb (firstn n slug) slug = false).
    { destruct (text_eqb (firstn n slug) slug) eqn:E; [|reflexivity].
      apply text_eqb_true in E.
      assert (length (firstn n slug) = length slug) by (rewrite E; reflexivity).
      rewrite length_firstn in H. lia. }
    rewrite Hne.
    destruct (firstn n slug) as [|c p] eqn:Ef; simpl; [reflexivity|].
    destruct (map_get (c :: p) db); reflexivity.
  - assert (E : text_eqb slug slug = true) by (apply text_eqb_true; reflexivity).
    rewrite E, andb_false_r. reflexivity.
Qed.

(** C3: on a catalog without the empty text as a key (every catalog that
    [loadOpeningsDb] returns, see [build_catalog_no_empty_key]),
    [lookupOpening] returns the entry of the slug when the slug is a key;
    otherwise, when the slug contains [-with-], the entry of the part before
    the first [-with-] if that part is a key; otherwise null, with no further
    fallback. In particular [italian-game-with-4-bc4], when absent, falls back
    to [italian-game], and gets null when neither is a key. *)
Theorem lookupOpening_fallback_catalog (db : jsmap V) :
  map_get [] db = None ->
  (forall slug : text,
     lookupOpening db slug =
     match map_get slug db with
     | Some v => Some v
     | None =>
         match before_with slug with
         | Some p => map_get p db
         | None => None
         end
     end) /\
  (map_get (txt "italian-game-with-4-bc4") db = None ->
   lookupOpening db (txt "italian-game-with-4-bc4") = map_get (txt "italian-game") db).
Proof.
  intros Hnil.
  assert (Hgen : forall slug : text,
     lookupOpening db slug =
     match map_get slug db with
     | Some v => Some v
     | None => match before_with slug with Some p => map_get p db | None => None end
     end).
  { intros slug. rewrite lookupOpening_fallback.
    destruct (map_get slug db); [reflexivity|].
    destruct (before_with slug) as [[|c p]|]; [exact (eq_sym Hnil) | reflexivity | reflexivity]. }
  split; [exact Hgen|].
  intros Hnone. rewrite Hgen, Hnone. reflexivity.
Qed.

End Lookup.

(** ** C6, C7: [analyzeMoves] *)

Section Analyzer.

Inductive piece := Pawn | Knight | Bishop | Rook | Queen | King.

Definition piece_eqb (p q : piece) : bool :=
  match p, q with
  | Pawn, Pawn | Knight, Knight | Bishop, Bishop | Rook, Rook | Queen, Queen
  | King, King => true
  | _, _ => false
  end.

(** The piece type of a move, first match wins. *)
Definition piece_type (m : text) : option piece :=
  if starts_with_file m then Some Pawn
  else if starts_with "N" m then Some Knight
  else if starts_with "B" m then Some Bishop
  else if starts_with "R" m then Some Rook
  else if starts_with "Q" m then Some Queen
  else if starts_with "K" m then Some King
  else None.

Definition is_piece (p : piece) (m : text) : bool :=
  match piece_type m with Some q => piece_eqb p q | None => false end.

Definition has_piece (m : text) : bool :=
  match piece_type m with Some _ => true | None => false end.

Definition count_if (f : text -> bool) (ms : list text) : nat := length (filter f ms).

(** The moves at the indices of a given parity, in order. *)
Definition at_parity (even : bool) (ms : list text) : list text :=
  map snd (filter (fun im => Bool.eqb (Nat.even (fst im)) even)
                  (combine (seq 0 (length ms)) ms)).

Lemma incr_count (f : text -> bool) (m : text) (ms : list text) (n : nat) :
  incr (f m) n + count_if f ms = n + count_if f (m :: ms).
Proof. unfold count_if; simpl; destruct (f m); simpl; lia. Qed.

Lemma count_move_fields (i : nat) (m : text) (st : stats) :
  let st' := count_move i m st in
  totalMoves st' = totalMoves st /\
  captures st' = incr (includes (txt "x") m) (captures st) /\
  checks st' = incr (includes (txt "+") m) (checks st) /\
  checkmates st' = incr (includes (txt "#") m) (checkmates st) /\
  castles st' = incr (includes (txt "O-O") m) (castles st) /\
  promotions st' = incr (includes (txt "=") m) (promotions st) /\
  pawnMoves st' = incr (is_piece Pawn m) (pawnMoves st) /\
  knightMoves st' = incr (is_piece Knight m) (knightMoves st) /\
  bishopMoves st' = incr (is_piece Bishop m) (bishopMoves st) /\
  rookMoves st' = incr (is_piece Rook m) (rookMoves st) /\
  queenMoves st' = incr (is_piece Queen m) (queenMoves st) /\
  kingMoves st' = incr (is_piece King m) (kingMoves st).
Proof.
  unfold count_move, is_piece, piece_type; simpl.
  destruct (starts_with_file m), (starts_with "N" m), (starts_with "B" m),
    (starts_with "R" m), (starts_with "Q" m), (starts_with "K" m);
    repeat split.
Qed.

Lemma count_moves_counts (ms : list text) (i : nat) (st : stats) :
  let st' := count_moves i ms st in
  totalMoves st' = totalMoves st /\
  captures st' = captures st + count_if (includes (txt "x")) ms /\
  checks st' = checks st + count_if (includes (txt "+")) ms /\
  checkmates st' = checkmates st + count_if (includes (txt "#")) ms /\
  castles st' = castles st + count_if (includes (txt "O-O")) ms /\
  promotions st' = promotions st + count_if (includes (txt "=")) ms /\
  pawnMoves st' = pawnMoves st + count_if (is_piece Pawn) ms /\
  knightMoves st' = knightMoves st + count_if (is_piece Knight) ms /\
  bishopMoves st' = bishopMoves st + count_if (is_piece Bishop) ms /\
  rookMoves st' = rookMoves st + count_if (is_piece Rook) ms /\
  queenMoves st' = queenMoves st + count_if (is_piece Queen) ms /\
  kingMoves st' = kingMoves st + count_if (is_piece King) ms.
Proof.
  revert i st; induction ms as [|m ms IH]; intros i st; simpl.
  - unfold count_if; simpl; lia.
  - destruct (IH (S i) (count_move i m st)) as
      (H0 & H1 & H2 & H3 & H4 & H5 & H6 & H7 & H8 & H9 & H10 & H11).
    destruct (count_move_fields i m st) as
      (F0 & F1 & F2 & F3 & F4 & F5 & F6 & F7 & F8 & F9 & F10 & F11).
    rewrite H0, H1, H2, H3, H4, H5, H6, H7, H8, H9, H10, H11,
      F0, F1, F2, F3, F4, F5, F6, F7, F8, F9, F10, F11, !incr_count.
    repeat split.
Qed.

Lemma count_if_cons (f : text -> bool) (m : text) (ms : list text) :
  count_if f (m :: ms) = (if f m then 1 else 0) + count_if f ms.
Proof. unfold count_if; simpl; destruct (f m); reflexivity. Qed.

Lemma count_if_has_piece (ms : list text) :
  count_if (is_piece Pawn) ms + (count_if (is_piece Knight) ms + count_if (is_piece Bishop) ms
    + count_if (is_piece Rook) ms + count_if (is_piece Queen) ms + count_if (is_piece King) ms)
  = count_if has_piece ms.
Proof.
  induction ms as [|m ms IH]; [reflexivity|].
  rewrite !count_if_cons.
  assert (Hm : (if is_piece Pawn m then 1 else 0) + ((if is_piece Knight m then 1 else 0)
    + (if is_piece Bishop m then 1 else 0) + (if is_piece Rook m then 1 else 0)
    + (if is_piece Queen m then 1 else 0) + (if is_piece King m then 1 else 0))
    = if has_piece m then 1 else 0)
    by (unfold is_piece, has_piece; destruct (piece_type m) as [[]|]; reflexivity).
  lia.
Qed.

(** C6 (amended): each feature counter of [analyzeMoves] counts the moves that
    pass its own substring test; each piece counter counts the moves whose
    first-match piece type is that piece, so a move gets AT MOST one piece
    type and a move starting with none of [a-h], [N], [B], [R], [Q], [K] (a
    castling [O-O]) gets none. ["Nxf6+"] is a capture, a check and a knight
    move, not a pawn move; ["e8=Q#"] is a promotion, a checkmate and a pawn
    move. *)
Theorem analyzeMoves_classification (ms : list text) :
  let st := analyzeMoves ms in
  (captures st = count_if (includes (txt "x")) ms /\
   checks st = count_if (includes (txt "+")) ms /\
   checkmates st = count_if (includes (txt "#")) ms /\
   castles st = count_if (includes (txt "O-O")) ms /\
   promotions st = count_if (includes (txt "=")) ms /\
   pawnMoves st = count_if (is_piece Pawn) ms /\
   knightMoves st = count_if (is_piece Knight) ms /\
   bishopMoves st = count_if (is_piece Bishop) ms /\
   rookMoves st = count_if (is_piece Rook) ms /\
   queenMoves st = count_if (is_piece Queen) ms /\
   kingMoves st = count_if (is_piece King) ms /\
   pawnMoves st + pieceMoves st = count_if has_piece ms /\
   pawnMoves st + pieceMoves st <= length ms) /\
  (let s1 := analyzeMoves [txt "Nxf6+"] in
   captures s1 = 1 /\ checks s1 = 1 /\ knightMoves s1 = 1 /\ pawnMoves s1 = 0) /\
  (let s2 := analyzeMoves [txt "e8=Q#"] in
   promotions s2 = 1 /\ checkmates s2 = 1 /\ pawnMoves s2 = 1 /\ pieceMoves s2 = 0) /\
  piece_type (txt "O-O") = None.
Proof.
  split; [|vm_compute; repeat split].
  unfold analyzeMoves; cbn zeta.
  destruct (count_moves_counts ms 0
    {| totalMoves := length ms; captures := 0; checks := 0; checkmates := 0;
       castles := 0; pawnMoves := 0; pieceMoves := 0; queenMoves := 0;
       rookMoves := 0; bishopMoves := 0; knightMoves := 0; kingMoves := 0;
       promotions := 0; whiteMoves := []; blackMoves := [] |}) as
      (H0 & H1 & H2 & H3 & H4 & H5 & H6 & H7 & H8 & H9 & H10 & H11).
  cbn [captures checks checkmates castles promotions pawnMoves knightMoves bishopMoves
       rookMoves queenMoves kingMoves pieceMoves] in *.
  rewrite H1, H2, H3, H4, H5, H6, H7, H8, H9, H10, H11.
  pose proof (count_if_has_piece ms) as Hp.
  assert (count_if has_piece ms <= length ms)
    by (unfold count_if; apply filter_length_le).
  repeat split; lia.
Qed.

(** C6 counterexample: the castling move ["O-O"] is given no piece type, so
    the piece counters of a one-move list sum to 0, not 1. *)
Lemma analyzeMoves_castle_no_piece :
  let st := analyzeMoves [txt "O-O"] in
  totalMoves st = 1 /\ castles st = 1 /\ pawnMoves st + pieceMoves st = 0.
Proof. vm_compute. repeat split. Qed.

Definition parity_from (even : bool) (i : nat) (ms : list text) : list text :=
  map snd (filter (fun im => Bool.eqb (Nat.even (fst im)) even)
                  (combine (seq i (length ms)) ms)).

Lemma count_moves_sides (ms : list text) (i : nat) (st : stats) :
  whiteMoves (count_moves i ms st) = whiteMoves st ++ parity_from true i ms /\
  blackMoves (count_moves i ms st) = blackMoves st ++ parity_from false i ms /\
  totalMoves (count_moves i ms st) = totalMoves st.
Proof.
  revert i st; induction ms as [|m ms IH]; intros i st; simpl.
  - unfold parity_from; simpl; rewrite !app_nil_r; repeat split.
  - destruct (IH (S i) (count_move i m st)) as (H1 & H2 & H3).
    rewrite H1, H2, H3. unfold parity_from; simpl.
    unfold count_move; simpl.
    destruct (Nat.even i); simpl; rewrite <- ?app_assoc; repeat split.
Qed.

(** C7: [analyzeMoves] puts the move at index [i] on the white side exactly
    when [i] is even: the white list is the subsequence of the moves at even
    indices, the black list that of the odd indices, both in order, and the
    total is the number of moves. *)
Theorem analyzeMoves_sides (ms : list text) :
  let st := analyzeMoves ms in
  whiteMoves st = at_parity true ms /\
  blackMoves st = at_parity false ms /\
  totalMoves st = length ms.
Proof.
  unfold analyzeMoves; cbn zeta.
  destruct (count_moves_sides ms 0
    {| totalMoves := length ms; captures := 0; checks := 0; checkmates := 0;
       castles := 0; pawnMoves := 0; pieceMoves := 0; queenMoves := 0;
       rookMoves := 0; bishopMoves := 0; knightMoves := 0; kingMoves := 0;
       promotions := 0; whiteMoves := []; blackMoves := [] |}) as (H1 & H2 & H3).
  cbn [whiteMoves blackMoves totalMoves] in *.
  rewrite H1, H2, H3. repeat split.
Qed.

End Analyzer.

(** ** C8: the catalog cache of [loadOpeningsDb] *)

Section Cache.

Definition is_query (e : event) : bool := match e with QueryAll => true | _ => false end.

Definition store_available (env : store) : bool := db_exists env && db_opens env.

(** A mapping some call may legitimately return: empty, or the catalog built
    from all the rows a query answered at one of the calls [L]. *)
Definition complete_for (L : list (store * Z)) (m : jsmap entry) : Prop :=
  m = [] \/ exists env now rows, In (env, now) L /\ db_rows env = Some rows /\
                                 m = build_catalog rows.

Definition cache_complete (L : list (store * Z)) (st : cache_state) : Prop :=
  match openingsCache st with Some c => complete_for L c | None => True end.

Lemma read_store_result (env : store) (now : Z) :
  let '(m, st', ev) := read_store env now in
  st' = {| openingsCache := Some m; lastCacheTime := Some now |} /\
  length (filter is_query ev) = (if store_available env then 1 else 0) /\
  (m = [] \/ exists rows, db_rows env = Some rows /\ m = build_catalog rows) /\
  (store_available env = true -> forall rows, db_rows env = Some rows ->
     m = build_catalog rows) /\
  (store_available env = false \/ db_rows env = None -> m = []).
Proof.
  unfold read_store, store_available.
  destruct (db_exists env), (db_opens env), (db_rows env) as [rows|];
    simpl; repeat split; eauto; try (intros; congruence);
    try (intros [H|H]; discriminate).
Qed.

Lemma load_run_complete (L calls : list (store * Z)) (st : cache_state) :
  cache_complete L st -> (forall c, In c calls -> In c L) ->
  forall m ev, In (m, ev) (load_run calls st) -> complete_for L m.
Proof.
  revert st; induction calls as [|[env now] calls IH]; intros st Hst Hin m ev Hm;
    simpl in Hm; [contradiction|].
  assert (Hc : In (env, now) L) by (apply Hin; left; reflexivity).
  assert (Hread : complete_for L (fst (fst (read_store env now))) /\
                  cache_complete L (snd (fst (read_store env now)))).
  { pose proof (read_store_result env now) as Hr.
    destruct (read_store env now) as [[m' st'] ev'].
    destruct Hr as (-> & _ & Hm' & _); simpl.
    assert (complete_for L m').
    { destruct Hm' as [->|(rows & Hrows & ->)]; [left; reflexivity|].
      right; exists env, now, rows; auto. }
    split; assumption. }
  unfold loadOpeningsDb in Hm.
  destruct (cache_hit now st) as [c|] eqn:Ehit.
  - assert (complete_for L c).
    { unfold cache_hit in Ehit. unfold cache_complete in Hst.
      destruct (openingsCache st), (lastCacheTime st); try discriminate.
      destruct (_ && _); inversion Ehit; subst; assumption. }
    destruct Hm as [Hm|Hm].
    + inversion Hm; subst; assumption.
    + eapply IH; eauto. intros x Hx; apply Hin; right; assumption.
  - destruct (read_store env now) as [[m' st'] ev'] eqn:Er; simpl in Hread.
    destruct Hread as [H1 H2].
    destruct Hm as [Hm|Hm].
    + inversion Hm; subst; assumption.
    + eapply IH; eauto. intros x Hx; apply Hin; right; assumption.
Qed.

(** C8: (1) after a call that read the store at time [t0 > 0], every call
    within [CACHE_DURATION_MS] (5 minutes) returns the same mapping, leaves
    the cache as it is and does nothing on the store; (2) the first call once
    the window has elapsed reads the store again, issuing exactly one query
    when the store is available, and caches what it returns; (3) when the
    store is missing, does not open, or the query fails, the call returns and
    caches the empty mapping; (4) in any sequence of calls from the initial
    state every returned mapping is empty or the catalog built from ALL the
    rows of one query. *)
Theorem loadOpeningsDb_cache :
  (forall env0 t0 st0 env now, (0 < t0)%Z -> cache_hit t0 st0 = None ->
     (0 <= now - t0 < CACHE_DURATION_MS)%Z ->
     let '(m, st1, _) := loadOpeningsDb env0 t0 st0 in
     loadOpeningsDb env now st1 = (m, st1, [])) /\
  (forall env0 t0 st0 env now, cache_hit t0 st0 = None ->
     (CACHE_DURATION_MS <= now - t0)%Z ->
     let '(_, st1, _) := loadOpeningsDb env0 t0 st0 in
     let '(m, st2, ev) := loadOpeningsDb env now st1 in
     length (filter is_query ev) = (if store_available env then 1 else 0) /\
     st2 = {| openingsCache := Some m; lastCacheTime := Some now |} /\
     (forall rows, store_available env = true -> db_rows env = Some rows ->
        m = build_catalog rows)) /\
  (forall env now st, cache_hit now st = None ->
     store_available env = false \/ db_rows env = None ->
     let '(m, st', _) := loadOpeningsDb env now st in
     m = [] /\ st' = {| openingsCache := Some []; lastCacheTime := Some now |}) /\
  (forall calls m ev, In (m, ev) (load_run calls initial_cache) -> complete_for calls m).
Proof.
  split; [|split; [|split]].
  - intros env0 t0 st0 env now Ht0 Hmiss Hwin.
    unfold loadOpeningsDb at 1; rewrite Hmiss.
    pose proof (read_store_result env0 t0) as Hr.
    destruct (read_store env0 t0) as [[m st1] ev] eqn:Er.
    destruct Hr as (-> & _).
    unfold loadOpeningsDb, cache_hit; simpl.
    assert (E1 : Z.eqb t0 0 = false) by (apply Z.eqb_neq; lia).
    assert (E2 : (now - t0 <? CACHE_DURATION_MS)%Z = true) by (apply Z.ltb_lt; lia).
    rewrite E1, E2; reflexivity.
  - intros env0 t0 st0 env now Hmiss Hlate.
    unfold loadOpeningsDb at 1; rewrite Hmiss.
    pose proof (read_store_result env0 t0) as Hr.
    destruct (read_store env0 t0) as [[m0 st1] ev0] eqn:Er.
    destruct Hr as (-> & _).
    unfold loadOpeningsDb at 1, cache_hit; simpl.
    assert (E2 : (now - t0 <? CACHE_DURATION_MS)%Z = false) by (apply Z.ltb_ge; lia).
    rewrite E2, andb_false_r.
    pose proof (read_store_result env now) as Hr.
    destruct (read_store env now) as [[m st2] ev].
    destruct Hr as (-> & Hq & _ & Hrows & _).
    repeat split; auto.
  - intros env now st Hmiss Hun.
    unfold loadOpeningsDb; rewrite Hmiss.
    pose proof (read_store_result env now) as Hr.
    destruct (read_store env now) as [[m st'] ev].
    destruct Hr as (-> & _ & _ & _ & Hempty).
    rewrite (Hempty Hun); split; reflexivity.
  - intros calls m ev Hin.
    eapply load_run_complete; eauto; exact I.
Qed.

End Cache.

(** ** C4, C10: [parsePGN] without a move section *)

Section NoMoves.

(** Whether a non-blank line follows a blank line: the text has a
    blank-line-delimited move section. *)
Fixpoint nonblank_after_blank (seen_blank : bool) (lines : list text) : bool :=
  match lines with
  | [] => false
  | l :: ls =>
      match trim l with
      | [] => nonblank_after_blank true ls
      | _ => seen_blank || nonblank_after_blank seen_blank ls
      end
  end.

Definition has_move_section (pgn : text) : bool :=
  nonblank_after_blank false (split [nl] pgn).

Lemma collect_moves_none (hh inMoves seen : bool) (acc : text) (lines : list text) :
  (inMoves = true -> seen = true) ->
  nonblank_after_blank seen lines = false ->
  collect_moves hh inMoves acc lines = acc.
Proof.
  revert inMoves seen; induction lines as [|l ls IH]; intros inMoves seen Hin Hnb;
    simpl in *; [reflexivity|].
  destruct (trim l) as [|c t].
  - apply (IH _ true); [reflexivity | exact Hnb].
  - apply orb_false_iff in Hnb as [Hs Hnb].
    destruct inMoves; [specialize (Hin eq_refl); congruence|].
    apply (IH _ seen); [discriminate | exact Hnb].
Qed.

Lemma collect_moves_no_headers (inMoves : bool) (acc : text) (lines : list text) :
  inMoves = false -> collect_moves false inMoves acc lines = acc.
Proof.
  revert inMoves; induction lines as [|l ls IH]; intros inMoves Hf; subst; simpl;
    [reflexivity|].
  destruct (trim l); apply IH; reflexivity.
Qed.

Lemma extract_clean_empty : extract_moves (clean_moves []) = [].
Proof. reflexivity. Qed.

(** C4: [parsePGN] is total: on every text it returns a tag mapping and a
    move list (the embedding has no failure path, since no step of
    [parsePGN] throws on a string); on a text with no non-blank line after a
    blank line the move list is empty. *)
Theorem parsePGN_no_move_section (pgn : text) :
  (exists hs ms, parsePGN pgn = {| headers := hs; moves := ms |}) /\
  (has_move_section pgn = false -> moves (parsePGN pgn) = []).
Proof.
  split.
  - exists (headers (parsePGN pgn)), (moves (parsePGN pgn)). destruct (parsePGN pgn); reflexivity.
  - unfold has_move_section, parsePGN; intros H.
    destruct pgn as [|c pgn']; [reflexivity|]. cbn [moves].
    rewrite (collect_moves_none _ false false); [reflexivity | discriminate | exact H].
Qed.

(** C10: when the header pattern finds no tag pair in the text, [parsePGN]
    returns no moves, whatever follows a blank line. *)
Theorem parsePGN_headerless_no_moves (pgn : text) :
  exec_all header_re 0 pgn = [] -> moves (parsePGN pgn) = [].
Proof.
  intros H. unfold parsePGN.
  destruct pgn as [|c pgn']; [reflexivity|]. cbn [moves].
  unfold parse_headers; rewrite H; simpl fold_left.
  rewrite collect_moves_no_headers; reflexivity.
Qed.

End NoMoves.

(** ** C2: [splitEcoUrl] on a compound opening name *)

Section SplitConcrete.

Definition qgd_slug : text := txt "queens-gambit-declined-with-4-nc3-and-5-bg5".

(** C2 counterexample: the URL of the claim, on the host [x], lacks the
    marker [chess.com/openings/]; [splitEcoUrl] returns an empty base slug,
    which does not contain the clause. *)
Lemma splitEcoUrl_other_host :
  splitEcoUrl (txt "https://x/openings/queens-gambit-declined-with-4-nc3-and-5-bg5")
  = {| baseSlug := []; extraMoves := [] |}.
Proof. vm_compute. reflexivity. Qed.

(** C2 (amended): any URL without [chess.com/openings/] gives an empty base
    slug and empty extra moves; under [https://www.chess.com/openings/] the
    compound name keeps its [with-4-nc3-and-5-bg5] clause in the base slug
    and the extra moves are empty. *)
Theorem splitEcoUrl_with_clause :
  (forall url, includes (txt "chess.com/openings/") url = false ->
     splitEcoUrl url = {| baseSlug := []; extraMoves := [] |}) /\
  splitEcoUrl (txt "https://www.chess.com/openings/" ++ qgd_slug)
  = {| baseSlug := qgd_slug; extraMoves := [] |}.
Proof.
  split.
  - intros url H. unfold splitEcoUrl. rewrite H. reflexivity.
  - vm_compute. reflexivity.
Qed.

End SplitConcrete.

(** ** Matches of the regex combinators *)

Section RegexFacts.

Lemma in_bind {A B} (p : re A) (f : A -> re B) (s : text) (y : B * text) :
  In y ((x <- p;; f x) s) <-> exists a r, In (a, r) (p s) /\ In y (f a r).
Proof.
  unfold Re.bind; rewrite in_flat_map; split.
  - intros [[a r] [H1 H2]]; exists a, r; auto.
  - intros (a & r & H1 & H2); exists (a, r); auto.
Qed.

Lemma is_prefix_app (w s : text) : is_prefix w s = true -> s = w ++ skipn (length w) s.
Proof.
  revert s; induction w as [|c w IH]; intros [|d s] H; simpl in *; try discriminate;
    try reflexivity.
  apply andb_true_iff in H as [H1 H2]. apply ascii_eqb_true in H1; subst.
  f_equal; apply IH; assumption.
Qed.

Lemma is_prefix_app_true (w u s : text) : is_prefix w u = true -> is_prefix w (u ++ s) = true.
Proof.
  revert u; induction w as [|c w IH]; intros [|d u] H; simpl in *; try discriminate;
    try reflexivity.
  apply andb_true_iff in H as [H1 H2]. rewrite H1, (IH _ H2). reflexivity.
Qed.

Lemma in_lit (w s x r : text) : In (x, r) (lit w s) -> x = w /\ s = w ++ r.
Proof.
  unfold lit. destruct (is_prefix w s) eqn:E; simpl; [|tauto].
  intros [H|[]]; inversion H; subst. split; [reflexivity|]. apply is_prefix_app, E.
Qed.

Lemma in_star (p : ascii -> bool) (s x r : text) :
  In (x, r) (star p s) -> s = x ++ r /\ forallb p x = true.
Proof.
  revert x r; induction s as [|c s IH]; intros x r H; simpl in H.
  - destruct H as [H|[]]; inversion H; subst; split; reflexivity.
  - destruct (p c) eqn:Ep.
    + apply in_app_or in H as [H|[H|[]]].
      * apply in_map_iff in H as [[w r'] [Hw Hin]]. unfold cons_fst in Hw; simpl in Hw.
        inversion Hw; subst. destruct (IH _ _ Hin) as [-> Hf].
        simpl; rewrite Ep, Hf; split; reflexivity.
      * inversion H; subst; split; reflexivity.
    + destruct H as [H|[]]; inversion H; subst; split; reflexivity.
Qed.

Lemma in_plus (p : ascii -> bool) (s x r : text) :
  In (x, r) (plus p s) -> s = x ++ r /\ forallb p x = true /\ x <> [].
Proof.
  unfold plus; destruct s as [|c s]; [intros []|].
  destruct (p c) eqn:Ep; [|intros []].
  intros H; apply in_map_iff in H as [[w r'] [Hw Hin]]. unfold cons_fst in Hw; simpl in Hw.
  inversion Hw; subst. destruct (in_star _ _ _ _ Hin) as [-> Hf].
  simpl; rewrite Ep, Hf; repeat split; discriminate.
Qed.

Lemma in_upto (n : nat) (p : ascii -> bool) (s x r : text) :
  In (x, r) (upto n p s) -> s = x ++ r /\ forallb p x = true.
Proof.
  revert s x r; induction n as [|n IH]; intros s x r H; simpl in H.
  - destruct H as [H|[]]; inversion H; subst; split; reflexivity.
  - destruct s as [|c s].
    + destruct H as [H|[]]; inversion H; subst; split; reflexivity.
    + destruct (p c) eqn:Ep.
      * apply in_app_or in H as [H|[H|[]]].
        -- apply in_map_iff in H as [[w r'] [Hw Hin]]. unfold cons_fst in Hw; simpl in Hw.
           inversion Hw; subst. destruct (IH _ _ _ Hin) as [-> Hf].
           simpl; rewrite Ep, Hf; split; reflexivity.
        -- inversion H; subst; split; reflexivity.
      * destruct H as [H|[]]; inversion H; subst; split; reflexivity.
Qed.

Lemma in_chr (p : ascii -> bool) (s r : text) (c : ascii) :
  In (c, r) (chr p s) -> s = c :: r /\ p c = true.
Proof.
  unfold chr; destruct s as [|d s]; [intros []|].
  destruct (p d) eqn:Ep; [|intros []].
  intros [H|[]]; inversion H; subst; split; [reflexivity | assumption].
Qed.

Lemma in_opt {A} (q : re A) (s r : text) (o : option A) :
  In (o, r) (opt q s) -> (o = None /\ r = s) \/ (exists a, o = Some a /\ In (a, r) (q s)).
Proof.
  unfold opt; intros H; apply in_app_or in H as [H|[H|[]]].
  - right. apply in_map_iff in H as [[a r'] [Ha Hin]]; simpl in Ha; inversion Ha; subst.
    exists a; split; [reflexivity | assumption].
  - left; inversion H; split; reflexivity.
Qed.

Lemma in_ret {A} (a x : A) (s r : text) : In (x, r) (ret a s) -> x = a /\ r = s.
Proof. intros [H|[]]; inversion H; split; reflexivity. Qed.

Lemma in_alt {A} (p q : re A) (s : text) (y : A * text) :
  In y (alt p q s) -> In y (p s) \/ In y (q s).
Proof. apply in_app_or. Qed.

(** Every suffix of a text. *)
Definition is_suffix (s' s : text) : Prop := exists pre, s = pre ++ s'.

(** A pattern that matches at no position of a text. *)
Definition nowhere {A} (p : re A) (s : text) : Prop := forall s', is_suffix s' s -> p s' = [].

Fixpoint nowhereb {A} (p : re A) (s : text) : bool :=
  match p s with
  | [] => match s with [] => true | _ :: s' => nowhereb p s' end
  | _ :: _ => false
  end.

Lemma nowhereb_spec {A} (p : re A) (s : text) : nowhereb p s = true -> nowhere p s.
Proof.
  induction s as [|c s IH]; intros H s' [pre Hs]; simpl in H.
  - destruct pre; [|discriminate]; simpl in Hs; subst.
    destruct (p []); [reflexivity | discriminate].
  - destruct (p (c :: s)) eqn:E; [|discriminate].
    destruct pre as [|d pre]; simpl in Hs.
    + subst; exact E.
    + inversion Hs; subst. apply IH; [exact H | exists pre; reflexivity].
Qed.

Lemma nowhere_cons {A} (p : re A) (c : ascii) (s : text) :
  nowhere p (c :: s) -> p (c :: s) = [] /\ nowhere p s.
Proof.
  intros H; split.
  - apply H; exists []; reflexivity.
  - intros s' [pre Hs]; apply H; exists (c :: pre); subst; reflexivity.
Qed.

Lemma nowhere_app {A} (p : re A) (b x : text) :
  (forall b2, is_suffix b2 b -> p (b2 ++ x) = []) -> nowhere p x -> nowhere p (b ++ x).
Proof.
  intros Hb Hx s' [pre Hs].
  apply app_eq_app in Hs as [l [[H1 H2]|[H1 H2]]].
  - subst. apply Hb. exists pre; reflexivity.
  - subst. apply Hx. exists l; reflexivity.
Qed.

Lemma exec_all_nowhere {A} (p : re A) (s : text) : nowhere p s -> exec_all p 0 s = [].
Proof.
  induction s as [|c s IH]; intros H.
  - simpl. rewrite (H [] (ex_intro _ [] eq_refl)). reflexivity.
  - apply nowhere_cons in H as [H1 H2]. simpl. rewrite H1. apply IH, H2.
Qed.

Lemma replace_all_nowhere {A} (p : re A) (f : nat -> text -> text) (i : nat) (s : text) :
  nowhere p s -> replace_all p f 0 i s = s.
Proof.
  induction s as [|c s IH]; intros H.
  - simpl. rewrite (H [] (ex_intro _ [] eq_refl)). reflexivity.
  - apply nowhere_cons in H as [H1 H2]. simpl. rewrite H1, IH; [reflexivity | exact H2].
Qed.

Lemma matched_nil {A} (p : re A) (s : text) : p s = [] -> matched p s = [].
Proof. unfold matched; intros ->; reflexivity. Qed.

Lemma nowhere_matched {A} (p : re A) (s : text) : nowhere p s -> nowhere (matched p) s.
Proof. intros H s' Hs; apply matched_nil, H, Hs. Qed.

(** Positions of [pre] where the pattern fails are passed over. *)
Lemma search_app {A} (p : re A) (i : nat) (pre s : text) :
  (forall b2, is_suffix b2 pre -> b2 <> [] -> p (b2 ++ s) = []) ->
  search p i (pre ++ s) = search p (i + length pre) s.
Proof.
  revert i; induction pre as [|c pre IH]; intros i H; simpl.
  - rewrite Nat.add_0_r; reflexivity.
  - pose proof (H (c :: pre) (ex_intro _ [] eq_refl) ltac:(discriminate)) as E;
    simpl in E; rewrite E.
    rewrite IH; [f_equal; lia|].
    intros b2 [q Hq] Hne; apply H; [exists (c :: q); subst; reflexivity | exact Hne].
Qed.

Lemma exec_all_app {A} (p : re A) (pre s : text) :
  (forall b2, is_suffix b2 pre -> b2 <> [] -> p (b2 ++ s) = []) ->
  exec_all p 0 (pre ++ s) = exec_all p 0 s.
Proof.
  induction pre as [|c pre IH]; intros H; simpl; [reflexivity|].
  pose proof (H (c :: pre) (ex_intro _ [] eq_refl) ltac:(discriminate)) as E;
    simpl in E; rewrite E.
  apply IH. intros b2 [q Hq] Hne; apply H; [exists (c :: q); subst; reflexivity | exact Hne].
Qed.

End RegexFacts.

(** ** C1: [formatExtraMoves] after [splitEcoUrl] *)

Section ExtraMoves.

Definition slug_word_char (c : ascii) : bool := is_alpha c || is_char "-" c.

(** A digit directly followed by a hyphen. *)
Fixpoint digit_hyphen (s : text) : bool :=
  match s with
  | [] => false
  | c :: s' => (is_digit c && starts_with "-" s') || digit_hyphen s'
  end.

Lemma digit_hyphen_app (u t : text) : digit_hyphen t = true -> digit_hyphen (u ++ t) = true.
Proof. induction u as [|c u IH]; intros H; simpl; [exact H|]. rewrite IH; [apply orb_true_r | exact H]. Qed.

Lemma digit_hyphen_digits (d r : text) :
  d <> [] -> forallb is_digit d = true -> digit_hyphen (d ++ "-"%char :: r) = true.
Proof.
  induction d as [|c d IH]; intros Hne Hd; [contradiction|].
  simpl in Hd; apply andb_true_iff in Hd as [Hc Hd].
  destruct d as [|c' d].
  - simpl. rewrite Hc. reflexivity.
  - apply (digit_hyphen_app [c] ((c' :: d) ++ "-"%char :: r)).
    apply IH; [discriminate | exact Hd].
Qed.

Lemma with_re_shape (s : text) (y : unit * text) :
  In y (with_re s) -> digit_hyphen s = true.
Proof.
  unfold with_re; intros H.
  apply in_bind in H as (a1 & r1 & H1 & H); apply in_lit in H1 as [_ ->].
  apply in_bind in H as (d & r2 & H2 & H); apply in_plus in H2 as (-> & Hd & Hne).
  apply in_bind in H as (a3 & r3 & H3 & _); apply in_lit in H3 as [_ ->].
  apply digit_hyphen_app. apply digit_hyphen_digits; assumption.
Qed.

Lemma move_re_shape (s : text) (y : unit * text) :
  In y (move_re s) ->
  (exists d r, s = "-"%char :: d :: r /\ is_digit d = true) \/
  (exists r, s = txt "..." ++ r).
Proof.
  unfold move_re; intros H.
  apply in_alt in H as [H|H].
  - left. apply in_bind in H as (a1 & r1 & H1 & H); apply in_lit in H1 as [_ ->].
    apply in_bind in H as (d & r2 & H2 & _); apply in_plus in H2 as (-> & Hd & Hne).
    destruct d as [|d0 d]; [contradiction|]. simpl in Hd; apply andb_true_iff in Hd as [Hd0 _].
    exists d0, (d ++ r2); split; [reflexivity | exact Hd0].
  - right. apply in_alt in H as [H|H];
      apply in_bind in H as (a1 & r1 & H1 & _); apply in_lit in H1 as [_ ->];
      exists r1; reflexivity.
Qed.

Definition fused_black : text := txt "-3...Nf6".

Lemma slug_no_digit_hyphen (b : text) :
  forallb slug_word_char b = true -> digit_hyphen (b ++ fused_black) = false.
Proof.
  induction b as [|c b IH]; intros H; [reflexivity|].
  simpl in H; apply andb_true_iff in H as [Hc H].
  simpl. rewrite IH by exact H.
  unfold slug_word_char, is_alpha, is_upper, is_lower, is_char, is_digit, between in *.
  destruct c as [[] [] [] [] [] [] [] []]; try discriminate; reflexivity.
Qed.

Lemma forallb_suffix (f : ascii -> bool) (b b2 : text) :
  is_suffix b2 b -> forallb f b = true -> forallb f b2 = true.
Proof. intros [pre ->] H; rewrite forallb_app in H; apply andb_true_iff in H; apply H. Qed.

Lemma with_re_nowhere (b : text) :
  forallb slug_word_char b = true -> nowhere with_re (b ++ fused_black).
Proof.
  intros Hb. apply nowhere_app.
  - intros b2 Hs. pose proof (forallb_suffix _ _ _ Hs Hb) as Hb2.
    destruct (with_re (b2 ++ fused_black)) as [|y ys] eqn:E; [reflexivity|].
    assert (Hin : In y (with_re (b2 ++ fused_black))) by (rewrite E; left; reflexivity).
    apply with_re_shape in Hin. rewrite slug_no_digit_hyphen in Hin by exact Hb2.
    discriminate.
  - apply nowhereb_spec. vm_compute. reflexivity.
Qed.

Lemma move_re_fails_in_slug (b2 : text) :
  forallb slug_word_char b2 = true -> b2 <> [] -> move_re (b2 ++ fused_black) = [].
Proof.
  intros Hb Hne.
  destruct (move_re (b2 ++ fused_black)) as [|y ys] eqn:E; [reflexivity|].
  assert (Hin : In y (move_re (b2 ++ fused_black))) by (rewrite E; left; reflexivity).
  exfalso. destruct b2 as [|c b3]; [contradiction|].
  simpl in Hb; apply andb_true_iff in Hb as [Hc Hb3].
  apply move_re_shape in Hin as [(d & r & Hs & Hd)|(r & Hs)]; simpl in Hs; inversion Hs; subst.
  - destruct b3 as [|c3 b4]; simpl in *.
    + inversion H1; subst. discriminate.
    + inversion H1; subst. apply andb_true_iff in Hb3 as [Hc3 _].
      unfold slug_word_char, is_alpha, is_upper, is_lower, is_char, is_digit, between in *.
      destruct d as [[] [] [] [] [] [] [] []]; discriminate.
  - unfold slug_word_char, is_alpha, is_upper, is_lower, is_char, between in Hc.
    discriminate.
Qed.

Definition no_slash (s : text) : bool := forallb (fun c => negb (Ascii.eqb "/"%char c)) s.

Lemma split_go_no_slash (sep : text) (cur s : text) :
  starts_with "/" sep = true -> no_slash s = true ->
  split_go sep 0 cur s = [cur ++ s].
Proof.
  intros Hsep; revert cur; induction s as [|c s IH]; intros cur Hs.
  - simpl. rewrite app_nil_r; reflexivity.
  - unfold no_slash in Hs; cbn [forallb] in Hs; apply andb_true_iff in Hs as [Hc Hs].
    assert (E : is_prefix sep (c :: s) = false).
    { destruct sep as [|c0 sep]; [discriminate|]. cbn [starts_with] in Hsep.
      apply ascii_eqb_true in Hsep; subst c0. cbn [is_prefix].
      destruct (Ascii.eqb "/"%char c); [discriminate | reflexivity]. }
    simpl. rewrite E. rewrite IH by exact Hs. rewrite <- app_assoc; reflexivity.
Qed.

Lemma slug_no_slash (b : text) : forallb slug_word_char b = true -> no_slash b = true.
Proof.
  unfold no_slash; induction b as [|c b IH]; intros H; [reflexivity|].
  cbn [forallb] in H |- *; apply andb_true_iff in H as [Hc H]. rewrite IH by exact H.
  unfold slug_word_char, is_alpha, is_upper, is_lower, is_char, between in Hc.
  destruct c as [[] [] [] [] [] [] [] []]; try discriminate; reflexivity.
Qed.

Lemma match_nonempty {B} (l : text) (x y : B) :
  l <> [] -> match l with [] => x | _ :: _ => y end = y.
Proof. destruct l; [contradiction | reflexivity]. Qed.

Lemma firstn_skipn_app (b x : text) :
  firstn (length b) (b ++ x) = b /\ skipn (length b) (b ++ x) = x.
Proof. induction b as [|c b IH]; simpl; [split; reflexivity|]. destruct IH as [-> ->]; split; reflexivity. Qed.

(** C1 (amended): for a URL [https://www.chess.com/openings/] followed by an
    opening name [b] of letters and hyphens and then [-3...Nf6], [splitEcoUrl]
    returns the lower-cased name as base slug and [-3...Nf6] as extra moves,
    and [formatExtraMoves] turns that fragment into [3...Nf6]: the fused token
    is kept as it is. The spaced form [3... Nf6] is what the fragment
    [-3...-Nf6] gives, for instance. *)
Theorem splitEcoUrl_formatExtraMoves_fused (b : text) :
  forallb slug_word_char b = true ->
  let r := splitEcoUrl (txt "https://www.chess.com/openings/" ++ b ++ fused_black) in
  baseSlug r = toLowerCase b /\ extraMoves r = fused_black /\
  formatExtraMoves (extraMoves r) = txt "3...Nf6" /\
  formatExtraMoves (txt "-3...-Nf6") = txt "3... Nf6".
Proof.
  intros Hb. cbv zeta.
  assert (Hinc : forall t, includes (txt "chess.com/openings/")
                   (txt "https://www.chess.com/openings/" ++ t) = true)
    by (intros; reflexivity).
  assert (Hsplit : forall t, split (txt "/openings/") (txt "https://www.chess.com/openings/" ++ t)
                   = txt "https://www.chess.com" :: split_go (txt "/openings/") 0 [] t)
    by (intros; reflexivity).
  assert (Hns : no_slash (b ++ fused_black) = true).
  { unfold no_slash; rewrite forallb_app. apply andb_true_iff; split; [apply slug_no_slash, Hb | reflexivity]. }
  unfold splitEcoUrl. rewrite Hinc, Hsplit. cbn [negb nth].
  rewrite split_go_no_slash by (reflexivity || exact Hns). cbn [app nth].
  rewrite match_nonempty by (destruct b; discriminate).
  rewrite exec_all_nowhere by (apply nowhere_matched, with_re_nowhere, Hb).
  rewrite replace_all_nowhere by (apply with_re_nowhere, Hb).
  rewrite search_app.
  2:{ intros b2 Hs Hne. apply move_re_fails_in_slug; [exact (forallb_suffix _ _ _ Hs Hb) | exact Hne]. }
  assert (Hm : forall i, search move_re i fused_black = Some (i, tt, txt "f6")) by (intros; reflexivity).
  rewrite Hm. cbn [Nat.add]. destruct (firstn_skipn_app b fused_black) as [-> ->].
  cbn. split; [reflexivity|]. split; [reflexivity|]. split; vm_compute; reflexivity.
Qed.

(** C1 (counterexample): for the URL
    [https://www.chess.com/openings/Sicilian-Defense-3...Nf6] the extra moves
    are [-3...Nf6] and [formatExtraMoves] of them is [3...Nf6], not the
    spaced [3... Nf6]. *)
Lemma splitEcoUrl_fused_black_counterexample :
  formatExtraMoves (extraMoves (splitEcoUrl
    (txt "https://www.chess.com/openings/Sicilian-Defense-3...Nf6"))) = txt "3...Nf6" /\
  formatExtraMoves (extraMoves (splitEcoUrl
    (txt "https://www.chess.com/openings/Sicilian-Defense-3...Nf6"))) <> txt "3... Nf6".
Proof. vm_compute. split; [reflexivity | discriminate]. Qed.

End ExtraMoves.

(** ** C9: clocks of checking moves *)

Section ClockFacts.

(** A pattern that consumes only characters satisfying [ok]
    ([eats1]: at least one of them). *)
Definition eats {A} (ok : ascii -> bool) (p : re A) : Prop :=
  forall s a r, In (a, r) (p s) -> exists u, s = u ++ r /\ forallb ok u = true.
Definition eats1 {A} (ok : ascii -> bool) (p : re A) : Prop :=
  forall s a r, In (a, r) (p s) -> exists u, s = u ++ r /\ u <> [] /\ forallb ok u = true.

Variable ok : ascii -> bool.

Lemma forallb_impl (q : ascii -> bool) (u : text) :
  (forall c, q c = true -> ok c = true) -> forallb q u = true -> forallb ok u = true.
Proof.
  intros Hq; induction u as [|c u IH]; simpl; [reflexivity|].
  intros H; apply andb_true_iff in H as [H1 H2]; rewrite (Hq _ H1), (IH H2); reflexivity.
Qed.

Lemma eats1_eats {A} (p : re A) : eats1 ok p -> eats ok p.
Proof. intros H s a r Hin. destruct (H s a r Hin) as (u & ? & _ & ?); eauto. Qed.

Lemma eats_ret {A} (a : A) : eats ok (ret a).
Proof. intros s x r H. apply in_ret in H as [_ ->]. exists []; split; reflexivity. Qed.

Lemma eats_lit (w : text) : forallb ok w = true -> eats ok (lit w).
Proof. intros Hw s x r H. apply in_lit in H as [-> ->]. exists w; split; [reflexivity | exact Hw]. Qed.

Lemma eats1_lit (w : text) : w <> [] -> forallb ok w = true -> eats1 ok (lit w).
Proof. intros Hne Hw s x r H. apply in_lit in H as [-> ->]. exists w; auto. Qed.

Lemma eats_upto (n : nat) (q : ascii -> bool) :
  (forall c, q c = true -> ok c = true) -> eats ok (upto n q).
Proof.
  intros Hq s x r H. apply in_upto in H as [-> H]. exists x; split; [reflexivity|].
  exact (forallb_impl q x Hq H).
Qed.

Lemma eats_star (q : ascii -> bool) :
  (forall c, q c = true -> ok c = true) -> eats ok (star q).
Proof.
  intros Hq s x r H. apply in_star in H as [-> H]. exists x; split; [reflexivity|].
  exact (forallb_impl q x Hq H).
Qed.

Lemma eats1_chr (q : ascii -> bool) :
  (forall c, q c = true -> ok c = true) -> eats1 ok (chr q).
Proof.
  intros Hq s x r H. apply in_chr in H as [-> H]. exists [x].
  split; [reflexivity|]. split; [discriminate|]. simpl; rewrite (Hq _ H); reflexivity.
Qed.

Lemma eats_opt {A} (q : re A) : eats ok q -> eats ok (opt q).
Proof.
  intros Hq s x r H. apply in_opt in H as [[_ ->]|(a & _ & H)].
  - exists []; split; reflexivity.
  - exact (Hq _ _ _ H).
Qed.

Lemma eats_bind {A B} (p : re A) (f : A -> re B) :
  eats ok p -> (forall a, eats ok (f a)) -> eats ok (Re.bind p f).
Proof.
  intros Hp Hf s y r H. apply in_bind in H as (a & r1 & H1 & H2).
  destruct (Hp _ _ _ H1) as (u1 & -> & Hu1). destruct (Hf _ _ _ _ H2) as (u2 & -> & Hu2).
  exists (u1 ++ u2). rewrite app_assoc, forallb_app, Hu1, Hu2. split; reflexivity.
Qed.

Lemma eats1_bind_l {A B} (p : re A) (f : A -> re B) :
  eats1 ok p -> (forall a, eats ok (f a)) -> eats1 ok (Re.bind p f).
Proof.
  intros Hp Hf s y r H. apply in_bind in H as (a & r1 & H1 & H2).
  destruct (Hp _ _ _ H1) as (u1 & -> & Hne & Hu1). destruct (Hf _ _ _ _ H2) as (u2 & -> & Hu2).
  exists (u1 ++ u2). rewrite app_assoc, forallb_app, Hu1, Hu2. split; [reflexivity|].
  split; [|reflexivity]. destruct u1; [contradiction | discriminate].
Qed.

Lemma eats1_bind_r {A B} (p : re A) (f : A -> re B) :
  eats ok p -> (forall a, eats1 ok (f a)) -> eats1 ok (Re.bind p f).
Proof.
  intros Hp Hf s y r H. apply in_bind in H as (a & r1 & H1 & H2).
  destruct (Hp _ _ _ H1) as (u1 & -> & Hu1). destruct (Hf _ _ _ _ H2) as (u2 & -> & Hne & Hu2).
  exists (u1 ++ u2). rewrite app_assoc, forallb_app, Hu1, Hu2. split; [reflexivity|].
  split; [|reflexivity]. destruct u1, u2; try contradiction; discriminate.
Qed.

Lemma eats1_alt {A} (p q : re A) : eats1 ok p -> eats1 ok q -> eats1 ok (alt p q).
Proof. intros Hp Hq s y r H. apply in_alt in H as [H|H]; [exact (Hp _ _ _ H) | exact (Hq _ _ _ H)]. Qed.

Lemma in_matched_eats1 {A} (p : re A) (s x r : text) :
  eats1 ok p -> In (x, r) (matched p s) -> s = x ++ r /\ x <> [] /\ forallb ok x = true.
Proof.
  intros Hp H. unfold matched in H. apply in_map_iff in H as [[a r'] [Hx Hin]].
  simpl in Hx; inversion Hx; subst. destruct (Hp _ _ _ Hin) as (u & -> & Hne & Hu).
  rewrite length_app. replace (length u + length r - length r) with (length u) by lia.
  destruct (firstn_skipn_app u r) as [-> _]. auto.
Qed.

End ClockFacts.

Section Clock.

(** The characters a move matched by the clock pattern can contain:
    pieces, files, ranks, [x], [=], and the [O] and [-] of castling. *)
Definition san_ch (c : ascii) : bool :=
  one_of "NBRQK" c || is_file c || is_rank c || is_char "x" c || is_char "=" c ||
  is_char "O" c || is_char "-" c.

Definition is_brace : ascii -> bool := is_char "{".

Ltac san_side := intros ?c ?Hc; unfold san_ch; rewrite Hc; rewrite ?orb_true_r, ?orb_true_l; reflexivity.

Lemma piece_move_eats1 : eats1 san_ch piece_move.
Proof.
  unfold piece_move.
  do 4 (apply eats1_bind_r; [apply eats_upto; san_side | intros _]).
  apply eats1_bind_l; [apply eats1_chr; san_side | intros _].
  apply eats_bind; [apply eats1_eats, eats1_chr; san_side | intros _].
  apply eats_bind; [apply eats_opt | intros _; apply eats_ret].
  apply eats_bind; [apply eats_lit; reflexivity | intros _].
  apply eats1_eats, eats1_chr; san_side.
Qed.

Lemma castle_move_eats1 : eats1 san_ch castle_move.
Proof.
  unfold castle_move.
  apply eats1_bind_l; [apply eats1_lit; [discriminate | reflexivity] | intros _].
  apply eats_bind; [apply eats_opt, eats_lit; reflexivity | intros _; apply eats_ret].
Qed.

Definition mv_of (x : text * text * text * text * option text) : text :=
  let '(mv, _, _, _, _) := x in mv.

Lemma move_to_entry (x : text * text * text * text * option text) : move (to_entry x) = mv_of x.
Proof. destruct x as [[[[? ?] ?] ?] ?]; reflexivity. Qed.

(** Every match of the clock pattern: a move, white space, braces, then [[%clk]. *)
Lemma clock_re_shape (s r : text) (v : text * text * text * text * option text) :
  In (v, r) (clock_re s) ->
  exists w br rest, s = mv_of v ++ w ++ br ++ txt "[%clk" ++ rest /\
    mv_of v <> [] /\ forallb san_ch (mv_of v) = true /\
    forallb is_space w = true /\ forallb is_brace br = true.
Proof.
  unfold clock_re; intros H.
  apply in_bind in H as (mv & r1 & H1 & H).
  apply (in_matched_eats1 san_ch) in H1 as (-> & Hne & Hmv);
    [| apply eats1_alt; [exact piece_move_eats1 | exact castle_move_eats1]].
  apply in_bind in H as (w & r2 & H2 & H); apply in_star in H2 as [-> Hw].
  apply in_bind in H as (br & r3 & H3 & H); apply in_upto in H3 as [-> Hbr].
  apply in_bind in H as (x4 & r4 & H4 & H); apply in_lit in H4 as [-> ->].
  repeat (apply in_bind in H; destruct H as (? & ? & _ & H)).
  apply in_ret in H as [-> _]. simpl mv_of.
  exists w, br, r4. repeat split; assumption.
Qed.

Fixpoint exec_all_in_gen {A} (p : re A) (k : nat) (s : text) (a : A) {struct s} :
  In a (exec_all p k s) -> exists s' r, is_suffix s' s /\ In (a, r) (p s').
Proof.
  destruct s as [|c s].
  - destruct k; simpl; [|intros []].
    destruct (p []) as [|[a0 r0] l] eqn:E; [intros []|].
    intros [<-|[]]. exists [], r0. split; [exists []; reflexivity | rewrite E; left; reflexivity].
  - assert (Hext : forall s', is_suffix s' s -> is_suffix s' (c :: s))
      by (intros s' [pre ->]; exists (c :: pre); reflexivity).
    destruct k as [|k]; simpl.
    + destruct (p (c :: s)) as [|[a0 r0] l] eqn:E.
      * intros H. destruct (exec_all_in_gen A p 0 s a H) as (s' & r & Hs & Hin).
        exists s', r; split; [apply Hext, Hs | exact Hin].
      * intros [<-|H].
        -- exists (c :: s), r0. split; [exists []; reflexivity | rewrite E; left; reflexivity].
        -- destruct (exec_all_in_gen A p _ s a H) as (s' & r & Hs & Hin).
           exists s', r; split; [apply Hext, Hs | exact Hin].
    + intros H. destruct (exec_all_in_gen A p k s a H) as (s' & r & Hs & Hin).
      exists s', r; split; [apply Hext, Hs | exact Hin].
Qed.

Lemma not_in_san (c : ascii) (u : text) :
  san_ch c = false -> forallb san_ch u = true -> ~ In c u.
Proof.
  intros Hc Hu Hin. rewrite forallb_forall in Hu. rewrite (Hu c Hin) in Hc. discriminate.
Qed.

Definition no_bracket (s : text) : bool := forallb (fun c => negb (Ascii.eqb "["%char c)) s.

Lemma no_bracket_app (u v : text) : no_bracket (u ++ v) = no_bracket u && no_bracket v.
Proof. apply forallb_app. Qed.

Lemma first_bracket (A B C D : text) :
  no_bracket A = true -> no_bracket C = true -> A ++ "["%char :: B = C ++ "["%char :: D -> A = C.
Proof.
  revert C; induction A as [|a A IH]; intros [|c C] HA HC E; simpl in E; try reflexivity.
  - injection E as E _; subst c. discriminate HC.
  - injection E as E _; subst a. discriminate HA.
  - injection E as -> E. unfold no_bracket in HA, HC; cbn [forallb] in HA, HC.
    apply andb_true_iff in HA as [_ HA]; apply andb_true_iff in HC as [_ HC].
    rewrite (IH C HA HC E); reflexivity.
Qed.

Lemma bracket_split (u : text) :
  no_bracket u = false -> exists u1 u2, u = u1 ++ "["%char :: u2 /\ no_bracket u1 = true.
Proof.
  induction u as [|c u IH]; intros H; [discriminate|].
  unfold no_bracket in H; cbn [forallb] in H.
  destruct (Ascii.eqb "["%char c) eqn:Ec.
  - apply ascii_eqb_true in Ec; subst c. exists [], u; split; reflexivity.
  - destruct (IH H) as (u1 & u2 & -> & H1). exists (c :: u1), u2. split; [reflexivity|].
    unfold no_bracket; cbn [forallb]; rewrite Ec; exact H1.
Qed.

Lemma bracket_suffix (C Z pre P R : text) :
  no_bracket C = true -> no_bracket Z = true -> no_bracket P = true ->
  pre ++ P ++ "["%char :: R = C ++ "["%char :: Z -> pre ++ P = C.
Proof.
  intros HC HZ HP E. destruct (no_bracket pre) eqn:Hpre.
  - apply (first_bracket _ R _ Z); [rewrite no_bracket_app, Hpre, HP; reflexivity | exact HC |].
    rewrite <- app_assoc; exact E.
  - exfalso. destruct (bracket_split _ Hpre) as (u1 & u2 & -> & Hu1).
    rewrite <- app_assoc in E; simpl in E.
    pose proof (first_bracket _ _ _ _ Hu1 HC E) as ->.
    apply app_inv_head in E; injection E as E.
    rewrite <- E, !no_bracket_app in HZ. unfold no_bracket at 3 in HZ; cbn [forallb] in HZ.
    rewrite !andb_false_r in HZ. discriminate.
Qed.

Lemma forallb_rev (f : ascii -> bool) (u : text) : forallb f (rev u) = forallb f u.
Proof.
  induction u as [|c u IH]; [reflexivity|]. simpl. rewrite forallb_app, IH. simpl.
  rewrite andb_true_r, andb_comm. reflexivity.
Qed.

Lemma san_no_bracket (u : text) : forallb san_ch u = true -> no_bracket u = true.
Proof.
  apply forallb_impl. intros c H. destruct (Ascii.eqb "["%char c) eqn:E; [|reflexivity].
  apply ascii_eqb_true in E; subst c. discriminate.
Qed.

Lemma space_no_bracket (u : text) : forallb is_space u = true -> no_bracket u = true.
Proof.
  apply forallb_impl. intros c H. destruct (Ascii.eqb "["%char c) eqn:E; [|reflexivity].
  apply ascii_eqb_true in E; subst c. discriminate.
Qed.

Lemma brace_no_bracket (u : text) : forallb is_brace u = true -> no_bracket u = true.
Proof.
  apply forallb_impl. intros c H. destruct (Ascii.eqb "["%char c) eqn:E; [|reflexivity].
  apply ascii_eqb_true in E; subst c. discriminate.
Qed.

(** What precedes the braces of a match is a move character, so it is neither
    blank nor a check or mate sign. *)
Lemma before_brace (B W M P Q : text) (sfx : ascii) :
  forallb is_brace B = true -> forallb is_space W = true -> M <> [] ->
  forallb san_ch M = true -> san_ch sfx = false -> is_space sfx = false ->
  B ++ W ++ M ++ P <> "{"%char :: " "%char :: sfx :: Q.
Proof.
  intros HB HW HM HMs Hs1 Hs2 E.
  destruct B as [|b1 B]; cbn [app] in E.
  - destruct W as [|w1 W]; cbn [app] in E.
    + destruct M as [|m1 M]; [contradiction|]. injection E as -> _. discriminate HMs.
    + injection E as -> _. discriminate HW.
  - injection E as -> E. destruct B as [|b2 B]; cbn [app] in E.
    + destruct W as [|w1 W]; cbn [app] in E.
      * destruct M as [|m1 M]; [contradiction|]. injection E as -> _. discriminate HMs.
      * injection E as -> E. destruct W as [|w2 W]; cbn [app] in E.
        -- destruct M as [|m1 M]; [contradiction|]. injection E as -> _.
           cbn [forallb] in HMs. rewrite Hs1 in HMs. discriminate.
        -- injection E as -> _. cbn [forallb] in HW. rewrite Hs2, andb_false_r in HW. discriminate.
    + injection E as -> _. discriminate HB.
Qed.

Definition check_sign (c : ascii) : bool := Ascii.eqb c "+" || Ascii.eqb c "#".

Lemma checked_move_no_clock (m : text) (sfx : ascii) (Z : text) :
  no_bracket m = true -> check_sign sfx = true -> no_bracket Z = true ->
  clock_entries (m ++ sfx :: " "%char :: "{"%char :: "["%char :: Z) = [].
Proof.
  intros Hm Hsfx HZ.
  assert (Hs : san_ch sfx = false /\ is_space sfx = false /\ Ascii.eqb "["%char sfx = false).
  { unfold check_sign in Hsfx. apply orb_true_iff in Hsfx as [H|H];
      apply ascii_eqb_true in H; subst sfx; repeat split; reflexivity. }
  destruct Hs as (Hs1 & Hs2 & Hs3). unfold clock_entries. rewrite exec_all_nowhere; [reflexivity|].
  intros s' [pre Hs']. destruct (clock_re s') as [|[v r] l] eqn:E; [reflexivity|]. exfalso.
  assert (Hin : In (v, r) (clock_re s')) by (rewrite E; left; reflexivity).
  destruct (clock_re_shape _ _ _ Hin) as (w & br & rest & -> & Hne & Hmv & Hw & Hbr).
  set (C := m ++ [sfx; " "%char; "{"%char]).
  assert (HC : no_bracket C = true).
  { unfold C; rewrite no_bracket_app, Hm. unfold no_bracket; cbn [forallb].
    rewrite Hs3. reflexivity. }
  assert (Ht : m ++ sfx :: " "%char :: "{"%char :: "["%char :: Z = C ++ "["%char :: Z)
    by (unfold C; rewrite <- app_assoc; reflexivity).
  rewrite Ht in Hs'.
  assert (E2 : pre ++ (mv_of v ++ w ++ br) ++ "["%char :: (txt "%clk" ++ rest) = C ++ "["%char :: Z)
    by (rewrite Hs'; rewrite <- !app_assoc; reflexivity).
  clear Hs'; rename E2 into Hs'.
  apply bracket_suffix in Hs'; [| exact HC | exact HZ |].
  2:{ rewrite !no_bracket_app, san_no_bracket, space_no_bracket, brace_no_bracket by assumption.
      reflexivity. }
  apply (f_equal (@rev ascii)) in Hs'. unfold C in Hs'.
  rewrite !rev_app_distr in Hs'. simpl in Hs'.
  apply (before_brace (rev br) (rev w) (rev (mv_of v)) (rev pre) (rev m) sfx).
  - rewrite forallb_rev; exact Hbr.
  - rewrite forallb_rev; exact Hw.
  - intros Hr. apply Hne. rewrite <- (rev_involutive (mv_of v)), Hr. reflexivity.
  - rewrite forallb_rev; exact Hmv.
  - exact Hs1.
  - exact Hs2.
  - rewrite <- !app_assoc in Hs'. exact Hs'.
Qed.

Lemma digits_no_bracket (u : text) : forallb is_digit u = true -> no_bracket u = true.
Proof.
  apply forallb_impl. intros c H. destruct (Ascii.eqb "["%char c) eqn:E; [|reflexivity].
  apply ascii_eqb_true in E; subst c. discriminate.
Qed.

(** A game fragment with clock annotations after every move, two of them
    checking moves. *)
Definition clock_sample : text :=
  txt "1. e4 {[%clk 0:09:58.5]} 1... e5 {[%clk 0:09:57]} 2. Qh5+ {[%clk 0:09:50]} 2... Ke7 {[%clk 0:09:40]} 3. Qxe5# {[%clk 0:09:30]}".

(** C9: no clock entry names a move with a check or mate sign; a move written
    with a trailing [+] or [#] and followed by a [[%clk H:MM:SS]] annotation
    yields no entry (the text before it being free of [[]); on a sample game
    the entries of [Qh5+] and [Qxe5#] are missing while the other moves
    keep theirs. *)
Theorem clock_entries_skip_checked_moves :
  (forall section e, In e (clock_entries section) ->
     ~ In "+"%char (move e) /\ ~ In "#"%char (move e)) /\
  (forall m sfx h mi se, no_bracket m = true -> check_sign sfx = true ->
     forallb is_digit (h ++ mi ++ se) = true ->
     clock_entries (m ++ sfx :: txt " {[%clk " ++ h ++ txt ":" ++ mi ++ txt ":" ++ se ++ txt "]}")
       = []) /\
  map (fun e => (move e, clock_tenths e)) (clock_entries clock_sample) =
    [(txt "e4", 5985%Z); (txt "e5", 5970%Z); (txt "Ke7", 5800%Z)].
Proof.
  split; [|split].
  - intros section e H. unfold clock_entries in H. apply in_map_iff in H as (x & <- & Hx).
    destruct (exec_all_in_gen _ _ _ _ Hx) as (s' & r & _ & Hin).
    destruct (clock_re_shape _ _ _ Hin) as (w & br & rest & _ & _ & Hmv & _).
    rewrite move_to_entry. split; apply not_in_san; first [reflexivity | exact Hmv].
  - intros m sfx h mi se Hm Hsfx Hd.
    rewrite !forallb_app in Hd. apply andb_true_iff in Hd as [Hh Hd].
    apply andb_true_iff in Hd as [Hmi Hse].
    apply checked_move_no_clock; [exact Hm | exact Hsfx |].
    change (no_bracket (txt "%clk " ++ h ++ txt ":" ++ mi ++ txt ":" ++ se ++ txt "]}") = true).
    rewrite !no_bracket_app, (digits_no_bracket h Hh), (digits_no_bracket mi Hmi), (digits_no_bracket se Hse). reflexivity.
  - vm_compute. reflexivity.
Qed.

End Clock.

(** ** C5: the tag mapping of [parsePGN] *)

Section Headers.

(** The header line [[Name Q Value Q]] (one space, [Q] the double quote). *)
Definition header_line (n v : text) : text :=
  txt "[" ++ n ++ " "%char :: dq :: v ++ [dq; "]"%char].

(** Header lines, each ended by a newline. *)
Definition headers_text (tags : list (text * text)) : text :=
  concat (map (fun nv => header_line (fst nv) (snd nv) ++ [nl]) tags).

Definition nonempty (u : text) : bool := match u with [] => false | _ => true end.

(** A tag the header pattern reads: a [\w+] name other than [__proto__] and
    a non-empty value without double quote. *)
Definition tag_ok (nv : text * text) : bool :=
  nonempty (fst nv) && forallb is_word (fst nv) &&
  nonempty (snd nv) && forallb (not_char dq) (snd nv) &&
  negb (text_eqb (fst nv) (txt "__proto__")).

(** No [[] of the text is directly followed by a word character: the header
    pattern starts nowhere in it. Clock comments such as [{[%clk 0:02:59]}]
    qualify. *)
Fixpoint no_tag_open (s : text) : bool :=
  match s with
  | [] => true
  | c :: t =>
      (negb (Ascii.eqb "["%char c) ||
       match t with d :: _ => negb (is_word d) | [] => true end) && no_tag_open t
  end.

(** The value of the last occurrence of a tag name. *)
Definition last_value (n : text) (tags : list (text * text)) : option text :=
  fold_left (fun acc nv => if text_eqb n (fst nv) then Some (snd nv) else acc) tags None.

(** The number of distinct tag names. *)
Definition distinct_names (tags : list (text * text)) : nat :=
  length (nodup (list_eq_dec ascii_dec) (map fst tags)).

(** The header pattern stops before a character outside its class. *)
Definition stops (p : ascii -> bool) (r : text) : bool :=
  match r with c :: _ => negb (p c) | [] => true end.

Lemma star_max (p : ascii -> bool) (u r : text) :
  forallb p u = true -> stops p r = true -> exists L, star p (u ++ r) = (u, r) :: L.
Proof.
  induction u as [|c u IH]; intros Hu Hr.
  - destruct r as [|d r]; simpl in *; [exists []; reflexivity|].
    destruct (p d); [discriminate | exists []; reflexivity].
  - simpl in Hu; apply andb_true_iff in Hu as [Hc Hu].
    destruct (IH Hu Hr) as [L E]. simpl. rewrite Hc, E. eexists; reflexivity.
Qed.

Lemma plus_max (p : ascii -> bool) (u r : text) :
  u <> [] -> forallb p u = true -> stops p r = true -> exists L, plus p (u ++ r) = (u, r) :: L.
Proof.
  destruct u as [|c u]; intros Hne Hu Hr; [contradiction|].
  simpl in Hu; apply andb_true_iff in Hu as [Hc Hu].
  destruct (star_max p u r Hu Hr) as [L E]. unfold plus; simpl. rewrite Hc, E. eexists; reflexivity.
Qed.

Lemma bind_first {A B} (p : re A) (f : A -> re B) (s : text) (a : A) (r : text) (y : B * text) :
  (exists L, p s = (a, r) :: L) -> (exists M, f a r = y :: M) ->
  exists N, Re.bind p f s = y :: N.
Proof.
  intros [L E1] [M E2]. unfold Re.bind. rewrite E1. simpl. rewrite E2. eexists; reflexivity.
Qed.

Lemma header_re_line (n v rest : text) :
  tag_ok (n, v) = true ->
  exists N, header_re (header_line n v ++ rest) = ((n, v), rest) :: N.
Proof.
  unfold tag_ok; simpl fst; simpl snd; intros H.
  apply andb_true_iff in H as [H _]. apply andb_true_iff in H as [H Hv].
  apply andb_true_iff in H as [H Hvne]. apply andb_true_iff in H as [Hne Hn].
  assert (E0 : header_line n v ++ rest =
               "["%char :: n ++ " "%char :: dq :: v ++ dq :: "]"%char :: rest)
    by (unfold header_line; change (txt "[") with ["["%char]; simpl;
        rewrite <- app_assoc; cbn [app]; rewrite <- app_assoc; reflexivity).
  unfold header_re. rewrite E0.
  eapply bind_first; [exists []; reflexivity|]. cbv beta.
  eapply bind_first.
  { apply plus_max; [destruct n; [discriminate Hne | discriminate] | exact Hn | reflexivity]. }
  cbv beta.
  eapply bind_first; [exists []; reflexivity|]. cbv beta.
  eapply bind_first; [exists []; reflexivity|]. cbv beta.
  eapply bind_first.
  { apply plus_max; [destruct v; [discriminate Hvne | discriminate] | exact Hv | reflexivity]. }
  cbv beta.
  eapply bind_first; [exists []; reflexivity|]. cbv beta.
  eapply bind_first; [exists []; reflexivity|]. cbv beta.
  exists []; reflexivity.
Qed.

Lemma exec_all_skip {A} (p : re A) (u r : text) : exec_all p (length u) (u ++ r) = exec_all p 0 r.
Proof. induction u as [|c u IH]; [reflexivity|]. exact IH. Qed.

Lemma exec_all_header_line (n v rest : text) :
  tag_ok (n, v) = true ->
  exec_all header_re 0 (header_line n v ++ rest) = (n, v) :: exec_all header_re 0 rest.
Proof.
  intros H. destruct (header_re_line n v rest H) as [N E].
  set (hl := n ++ " "%char :: dq :: v ++ [dq; "]"%char]).
  assert (Eh : header_line n v ++ rest = "["%char :: (hl ++ rest))
    by (unfold header_line, hl; simpl; reflexivity).
  rewrite Eh in E |- *. cbn [exec_all]. rewrite E. f_equal.
  replace (length ("["%char :: hl ++ rest) - length rest - 1) with (length hl)
    by (change (length ("["%char :: hl ++ rest)) with (S (length (hl ++ rest)));
        rewrite length_app; lia).
  apply exec_all_skip.
Qed.

Lemma exec_all_nl (rest : text) : exec_all header_re 0 (nl :: rest) = exec_all header_re 0 rest.
Proof. reflexivity. Qed.

Lemma header_re_no_bracket (c : ascii) (t : text) :
  Ascii.eqb "["%char c = false -> header_re (c :: t) = [].
Proof.
  intros Hc. assert (E : is_prefix (txt "[") (c :: t) = false)
    by (change (Ascii.eqb "["%char c && is_prefix [] t = false); rewrite Hc; reflexivity).
  unfold header_re, Re.bind, lit. rewrite E. reflexivity.
Qed.

Lemma header_re_no_open (c : ascii) (t : text) :
  (negb (Ascii.eqb "["%char c) || match t with d :: _ => negb (is_word d) | [] => true end) = true ->
  header_re (c :: t) = [].
Proof.
  destruct (Ascii.eqb "["%char c) eqn:Hc; cbn [negb orb]; intros H.
  - apply Ascii.eqb_eq in Hc; subst c.
    destruct t as [|d t]; [reflexivity|].
    apply negb_true_iff in H.
    unfold header_re. cbn. rewrite H. reflexivity.
  - apply header_re_no_bracket, Hc.
Qed.

Lemma no_tag_open_suffix (pre s : text) : no_tag_open (pre ++ s) = true -> no_tag_open s = true.
Proof.
  induction pre as [|c pre IH]; intros H; [exact H|].
  cbn [app no_tag_open] in H. apply andb_true_iff in H as [_ H]. apply IH, H.
Qed.

Lemma exec_all_body_open (body : text) : no_tag_open body = true -> exec_all header_re 0 body = [].
Proof.
  intros Hb. apply exec_all_nowhere. intros s' [pre ->].
  apply no_tag_open_suffix in Hb.
  destruct s' as [|c t]; [reflexivity|].
  cbn [no_tag_open] in Hb. apply andb_true_iff in Hb as [H _].
  apply header_re_no_open, H.
Qed.

Lemma exec_all_headers_text (tags : list (text * text)) (rest : text) :
  forallb tag_ok tags = true ->
  exec_all header_re 0 (headers_text tags ++ rest) = tags ++ exec_all header_re 0 rest.
Proof.
  induction tags as [|[n v] tags IH]; intros H; [reflexivity|].
  simpl in H; apply andb_true_iff in H as [H1 H2].
  unfold headers_text; cbn [map]; rewrite concat_cons; fold (headers_text tags).
  cbn [fst snd]. rewrite <- !app_assoc. rewrite (exec_all_header_line n v _ H1).
  cbn [app]. rewrite exec_all_nl, IH by exact H2. reflexivity.
Qed.

Definition set_all (tags : list (text * text)) (m : jsmap text) : jsmap text :=
  fold_left (fun o nv => map_set (fst nv) (snd nv) o) tags m.

Lemma parse_headers_set_all (tags : list (text * text)) (body : text) :
  forallb tag_ok tags = true -> no_tag_open body = true ->
  parse_headers (headers_text tags ++ nl :: body) = set_all tags [].
Proof.
  intros Ht Hb. unfold parse_headers, set_all.
  rewrite exec_all_headers_text, exec_all_nl, exec_all_body_open, app_nil_r by assumption.
  generalize (@nil (text * text)) as m.
  induction tags as [|[n v] tags IH]; intros m; [reflexivity|].
  cbn [forallb] in Ht; apply andb_true_iff in Ht as [H1 H2]. cbn [fold_left fst snd].
  unfold obj_set. unfold tag_ok in H1; cbn [fst snd] in H1.
  apply andb_true_iff in H1 as [_ H1]. apply negb_true_iff in H1. rewrite H1.
  apply IH, H2.
Qed.

Lemma map_get_set (n k : text) (v : text) (m : jsmap text) :
  map_get n (map_set k v m) = if text_eqb n k then Some v else map_get n m.
Proof.
  induction m as [|[k' v'] m IH]; simpl.
  - reflexivity.
  - destruct (text_eqb k k') eqn:E1.
    + apply text_eqb_true in E1; subst k'. simpl. destruct (text_eqb n k); reflexivity.
    + simpl. rewrite IH. destruct (text_eqb n k') eqn:E2, (text_eqb n k) eqn:E3; try reflexivity.
      apply text_eqb_true in E2, E3; subst. rewrite (proj2 (text_eqb_true _ _) eq_refl) in E1.
      discriminate.
Qed.

Lemma map_get_set_all (n : text) (tags : list (text * text)) (m : jsmap text) (acc : option text) :
  map_get n m = acc ->
  map_get n (set_all tags m) =
  fold_left (fun acc nv => if text_eqb n (fst nv) then Some (snd nv) else acc) tags acc.
Proof.
  unfold set_all; revert m acc; induction tags as [|[k v] tags IH]; intros m acc H; [exact H|].
  simpl. apply IH. rewrite map_get_set, H. reflexivity.
Qed.

Lemma keys_set (x k : text) (v : text) (m : jsmap text) :
  In x (map fst (map_set k v m)) <-> x = k \/ In x (map fst m).
Proof.
  induction m as [|[k' v'] m IH]; simpl.
  - split; intros [H|H]; try contradiction; left; symmetry; exact H.
  - destruct (text_eqb k k') eqn:E; simpl.
    + apply text_eqb_true in E; subst k'. split.
      * intros [H|H]; [left; symmetry; exact H | right; right; exact H].
      * intros [H|[H|H]]; [left; symmetry; exact H | left; exact H | right; exact H].
    + rewrite IH. tauto.
Qed.

Lemma keys_set_nodup (k : text) (v : text) (m : jsmap text) :
  NoDup (map fst m) -> NoDup (map fst (map_set k v m)).
Proof.
  induction m as [|[k' v'] m IH]; simpl; intros H.
  - constructor; [intros []|constructor].
  - inversion H as [|? ? Hk Hm]; subst.
    destruct (text_eqb k k') eqn:E; simpl.
    + exact H.
    + constructor; [|apply IH, Hm].
      rewrite keys_set. intros [->|Hin]; [|contradiction].
      rewrite (proj2 (text_eqb_true _ _) eq_refl) in E; discriminate.
Qed.

Lemma keys_set_all (tags : list (text * text)) (m : jsmap text) :
  NoDup (map fst m) ->
  NoDup (map fst (set_all tags m)) /\
  (forall x, In x (map fst (set_all tags m)) <-> In x (map fst tags) \/ In x (map fst m)).
Proof.
  unfold set_all; revert m; induction tags as [|[k v] tags IH]; intros m Hm; simpl.
  - split; [exact Hm | tauto].
  - destruct (IH (map_set k v m) (keys_set_nodup k v m Hm)) as [H1 H2].
    split; [exact H1|]. intros x. rewrite H2, keys_set. split.
    + intros [H|[H|H]]; [left; right; exact H | left; left; symmetry; exact H | right; exact H].
    + intros [[H|H]|H]; [right; left; symmetry; exact H | left; exact H | right; right; exact H].
Qed.

Lemma set_all_length (tags : list (text * text)) :
  length (set_all tags []) = distinct_names tags.
Proof.
  destruct (keys_set_all tags [] (NoDup_nil _)) as [Hnd Hin].
  unfold distinct_names. rewrite <- (length_map fst (set_all tags [])).
  apply Nat.le_antisymm; apply NoDup_incl_length.
  - exact Hnd.
  - intros x Hx. apply nodup_In. apply Hin in Hx as [Hx|[]]. exact Hx.
  - apply NoDup_nodup.
  - intros x Hx. apply nodup_In in Hx. apply Hin. left; exact Hx.
Qed.

Lemma headers_parsePGN (t : text) : t <> [] -> headers (parsePGN t) = parse_headers t.
Proof. destruct t; [contradiction | reflexivity]. Qed.

(** C5 (amended): for a PGN text made of header lines [[Name Q Value Q]]
    (each ended by a newline; names [\w+] other than [__proto__], values
    non-empty and free of double quotes), a blank line and a movetext in which
    no [[] is directly followed by a word character (clock comments
    [{[%clk ...]}] are allowed), the tag mapping of [parsePGN] has as many
    entries as there are distinct tag names, and each name maps to the value
    of its last occurrence. *)
Theorem parsePGN_headers_last_wins (tags : list (text * text)) (body : text) :
  forallb tag_ok tags = true -> no_tag_open body = true ->
  let hs := headers (parsePGN (headers_text tags ++ nl :: body)) in
  length hs = distinct_names tags /\ (forall n, map_get n hs = last_value n tags).
Proof.
  intros Ht Hb. cbv zeta.
  rewrite headers_parsePGN by (destruct (headers_text tags); discriminate).
  rewrite parse_headers_set_all by assumption.
  split; [apply set_all_length|].
  intros n. unfold last_value. apply map_get_set_all. reflexivity.
Qed.

(** C5 (counterexample): the PGN text [[Event QQ]] (empty value) followed by
    [[Site QXQ]] has two distinct tag names, yet the mapping holds one entry:
    the header pattern needs a non-empty value. *)
Lemma parsePGN_empty_value_counterexample :
  let t := headers_text [(txt "Event", []); (txt "Site", txt "X")] ++ nl :: txt "1. e4" in
  distinct_names [(txt "Event", []); (txt "Site", txt "X")] = 2 /\
  length (headers (parsePGN t)) = 1 /\
  map_get (txt "Event") (headers (parsePGN t)) = None.
Proof. vm_compute. repeat split. Qed.

End Headers.

Section ParseFacts.

Lemma lower_char_idem (c : ascii) : lower_char (lower_char c) = lower_char c.
Proof. destruct c as [[] [] [] [] [] [] [] []]; reflexivity. Qed.

Lemma toLowerCase_idem (s : text) : toLowerCase (toLowerCase s) = toLowerCase s.
Proof. unfold toLowerCase; rewrite map_map; apply map_ext, lower_char_idem. Qed.

Lemma digit_not_space (c : ascii) : is_digit c = true -> is_space c = false.
Proof.
  unfold is_digit, is_space, between; intros H.
  apply andb_true_iff in H as [H1 H2]; apply Nat.leb_le in H1, H2.
  destruct (9 <=? code c) eqn:E1, (code c <=? 13) eqn:E2, (code c =? 32) eqn:E3,
    (code c =? 160) eqn:E4; simpl; try reflexivity;
  repeat match goal with
         | H : (_ <=? _) = true |- _ => apply Nat.leb_le in H
         | H : (_ =? _) = true |- _ => apply Nat.eqb_eq in H
         end; lia.
Qed.

Lemma radix10_digit (c : ascii) :
  radix_digit 10 c = if is_digit c then Some (Z.of_nat (code c - 48)) else None.
Proof.
  unfold radix_digit, hex_value.
  destruct (is_digit c) eqn:Ed.
  - unfold is_digit, between in Ed; apply andb_true_iff in Ed as [E1 E2].
    apply Nat.leb_le in E1, E2.
    replace (Z.of_nat (code c - 48) <? 10)%Z with true by (symmetry; apply Z.ltb_lt; lia).
    reflexivity.
  - destruct (between 97 102 c) eqn:Ea.
    + unfold between in Ea; apply andb_true_iff in Ea as [E1 _]; apply Nat.leb_le in E1.
      replace (Z.of_nat (code c - 87) <? 10)%Z with false by (symmetry; apply Z.ltb_ge; lia).
      reflexivity.
    + destruct (between 65 70 c) eqn:Eb; [|reflexivity].
      unfold between in Eb; apply andb_true_iff in Eb as [E1 _]; apply Nat.leb_le in E1.
      replace (Z.of_nat (code c - 55) <? 10)%Z with false by (symmetry; apply Z.ltb_ge; lia).
      reflexivity.
Qed.

Lemma take_digits10 (ds r : text) :
  forallb is_digit ds = true -> stops is_digit r = true -> take_digits 10 (ds ++ r) = ds.
Proof.
  intros Hd Hr; induction ds as [|c ds IH].
  - destruct r as [|c r]; [reflexivity|]. cbn [stops] in Hr. simpl.
    rewrite radix10_digit. destruct (is_digit c); [discriminate | reflexivity].
  - cbn [forallb] in Hd; apply andb_true_iff in Hd as [Hc Hd].
    simpl. rewrite radix10_digit, Hc, IH by exact Hd. reflexivity.
Qed.

Lemma fold_left_ext_in' {A B} (f g : A -> B -> A) (l : list B) (a : A) :
  (forall x b, In b l -> f x b = g x b) -> fold_left f l a = fold_left g l a.
Proof.
  revert a; induction l as [|b l IH]; intros a H; [reflexivity|].
  simpl. rewrite H by (left; reflexivity). apply IH. intros x b' Hb; apply H; right; exact Hb.
Qed.

Lemma radix_value10 (ds : text) :
  forallb is_digit ds = true -> radix_value 10 ds = digits_value ds.
Proof.
  intros Hd. unfold radix_value, digits_value. apply fold_left_ext_in'.
  intros x c Hc. rewrite radix10_digit. rewrite forallb_forall in Hd. rewrite (Hd c Hc).
  reflexivity.
Qed.

Lemma alnum_stops_digit (r : text) : stops is_alnum r = true -> stops is_digit r = true.
Proof.
  destruct r as [|c r]; [reflexivity|]. cbn [stops]. unfold is_alnum.
  destruct (is_digit c); [rewrite orb_true_r; discriminate | reflexivity].
Qed.

(** [parseInt] of a run of decimal digits followed by a character that is
    neither a letter nor a digit. *)
Lemma parseInt_digits (ds r : text) :
  ds <> [] -> forallb is_digit ds = true -> stops is_alnum r = true ->
  parseInt (ds ++ r) = Some (digits_value ds).
Proof.
  intros Hne Hd Hr. destruct ds as [|c ds]; [contradiction|].
  pose proof Hd as Hd'. cbn [forallb] in Hd'; apply andb_true_iff in Hd' as [Hc Hds].
  unfold parseInt. cbn [app drop_spaces]. rewrite (digit_not_space c Hc).
  assert (Hm : Ascii.eqb c "-" = false /\ Ascii.eqb c "+" = false).
  { unfold is_digit, between in Hc; apply andb_true_iff in Hc as [H1 H2].
    apply Nat.leb_le in H1, H2.
    split; apply Ascii.eqb_neq; intros ->; cbv in H1; lia. }
  destruct Hm as [-> ->].
  assert (Hx : forall d t, ds ++ r = d :: t ->
            Ascii.eqb c "0" && (Ascii.eqb d "x" || Ascii.eqb d "X") = false).
  { intros d t E. destruct (Ascii.eqb c "0"); [|reflexivity]. simpl.
    destruct ds as [|d' ds].
    - destruct r as [|d'' r]; [discriminate|]. cbn in E. injection E as Ed _; subst d''.
      cbn [stops] in Hr. unfold is_alnum, is_alpha, is_upper, is_lower in Hr.
      destruct (Ascii.eqb d "x") eqn:E1; [apply ascii_eqb_true in E1; subst; discriminate|].
      destruct (Ascii.eqb d "X") eqn:E2; [apply ascii_eqb_true in E2; subst; discriminate|].
      reflexivity.
    - cbn in E. injection E as Ed _; subst d'. cbn [forallb] in Hds.
      apply andb_true_iff in Hds as [Hd1 _].
      destruct (Ascii.eqb d "x") eqn:E1; [apply ascii_eqb_true in E1; subst; discriminate|].
      destruct (Ascii.eqb d "X") eqn:E2; [apply ascii_eqb_true in E2; subst; discriminate|].
      reflexivity. }
  assert (Hv : take_digits 10 (c :: ds ++ r) = c :: ds /\
               radix_value 10 (c :: ds) = digits_value (c :: ds)).
  { split; [apply (take_digits10 (c :: ds) r Hd), alnum_stops_digit, Hr |
            apply radix_value10, Hd]. }
  destruct Hv as [Ht Hv].
  destruct (ds ++ r) as [|d t] eqn:Edr.
  - rewrite Ht, Hv. f_equal. lia.
  - rewrite (Hx d t eq_refl). rewrite Ht, Hv. f_equal. lia.
Qed.

Lemma mem_text_false (x : text) (l : list text) : mem_text x l = false <-> ~ In x l.
Proof.
  unfold mem_text. rewrite <- not_true_iff_false, existsb_exists. split.
  - intros H Hin. apply H. exists x. split; [exact Hin | apply text_eqb_true; reflexivity].
  - intros H [y [Hy E]]. apply text_eqb_true in E; subst y. contradiction.
Qed.

Lemma search_first {A} (p : re A) (i : nat) (s : text) (a : A) (r : text) N :
  p s = (a, r) :: N -> search p i s = Some (i, a, r).
Proof. intros E. destruct s; simpl; rewrite E; reflexivity. Qed.

Lemma tc_re_first (b i rest : text) :
  b <> [] -> forallb is_digit b = true -> i <> [] -> forallb is_digit i = true ->
  stops is_digit rest = true ->
  exists N, tc_re (b ++ "+"%char :: i ++ rest) = ((b, i), rest) :: N.
Proof.
  intros Hb Hbd Hi Hid Hr. unfold tc_re.
  eapply bind_first; [apply plus_max; [exact Hb | exact Hbd | reflexivity]|].
  eapply bind_first; [unfold lit; cbn; eexists; reflexivity|].
  eapply bind_first; [apply plus_max; [exact Hi | exact Hid | exact Hr]|].
  eexists; reflexivity.
Qed.

(** The time-control fallback of [getGameFormat]: for a standard game (no
    [rules], or [chess]) whose time class is none of [bullet], [blitz],
    [rapid], [daily], and whose time control starts with [B+I] (two runs of
    digits), the format is [bullet] when [B + 40 * I < 180], [blitz] when it
    is below [600], and [rapid] otherwise. *)
Theorem getGameFormat_estimate (g : game) (b i rest : text) :
  (rules g = None \/ rules g = Some (txt "chess")) ->
  ~ In (toLowerCase (or_else (time_class g) []))
       [txt "bullet"; txt "blitz"; txt "rapid"; txt "daily"] ->
  time_control g = Some (b ++ "+"%char :: i ++ rest) ->
  b <> [] -> forallb is_digit b = true -> i <> [] -> forallb is_digit i = true ->
  stops is_digit rest = true ->
  getGameFormat g =
    (let estimated := (digits_value b + 40 * digits_value i)%Z in
     if (estimated <? 180)%Z then txt "bullet"
     else if (estimated <? 600)%Z then txt "blitz" else txt "rapid").
Proof.
  intros Hrules Htc Htcg Hb Hbd Hi Hid Hr.
  unfold getGameFormat.
  assert (Hch : toLowerCase (or_else (rules g) (txt "chess")) = txt "chess")
    by (destruct Hrules as [-> | ->]; reflexivity).
  rewrite Hch. cbn zeta.
  replace (text_eqb (txt "chess") (txt "chess960")) with false by reflexivity.
  replace (negb (text_eqb (txt "chess") (txt "chess"))) with false by reflexivity.
  apply mem_text_false in Htc. rewrite Htc, Htcg.
  destruct (tc_re_first b i rest Hb Hbd Hi Hid Hr) as [N E].
  assert (Hne : b ++ "+"%char :: i ++ rest <> []) by (destruct b; [contradiction | discriminate]).
  assert (Hor : forall t : list ascii, t <> [] -> or_else (Some t) [] = t)
    by (intros [|c t] H; [contradiction | reflexivity]).
  rewrite (Hor _ Hne), (search_first _ _ _ _ _ _ E).
  rewrite <- (app_nil_r b), <- (app_nil_r i).
  rewrite !parseInt_digits by (assumption || reflexivity).
  rewrite !app_nil_r. reflexivity.
Qed.

Lemma or_else_lower (t d : text) :
  toLowerCase d = d -> toLowerCase (or_else (Some (toLowerCase t)) d) = or_else (Some (toLowerCase t)) d.
Proof.
  intros Hd. destruct t as [|c t]; [exact Hd|].
  change (or_else (Some (toLowerCase (c :: t))) d) with (toLowerCase (c :: t)).
  apply toLowerCase_idem.
Qed.

(** [getGameFormat] yields lower-case text: the [.toLowerCase()] that
    [insertGame] applies to its result changes nothing. *)
Theorem getGameFormat_lower (g : game) : toLowerCase (getGameFormat g) = getGameFormat g.
Proof.
  unfold getGameFormat. cbn zeta.
  destruct (text_eqb _ (txt "chess960")).
  - destruct (text_eqb _ (txt "daily")); reflexivity.
  - destruct (negb _); [apply toLowerCase_idem|].
    destruct (mem_text _ _); [apply toLowerCase_idem|].
    destruct (search tc_re 0 _) as [[[? [b i]] ?]|].
    + destruct (parseInt b), (parseInt i); try reflexivity.
      destruct (_ <? 180)%Z; [reflexivity|]. destruct (_ <? 600)%Z; reflexivity.
    + apply or_else_lower; reflexivity.
Qed.

Definition no_char (x : ascii) (s : text) : bool := forallb (fun c => negb (Ascii.eqb x c)) s.

Lemma digits_no_char (x : ascii) (u : text) :
  is_digit x = false -> forallb is_digit u = true -> no_char x u = true.
Proof.
  intros Hx Hu. unfold no_char. rewrite forallb_forall in *. intros c Hc.
  specialize (Hu c Hc). destruct (Ascii.eqb x c) eqn:E; [|reflexivity].
  apply ascii_eqb_true in E; subst. congruence.
Qed.

Lemma includes_char (x : ascii) (s : text) : includes [x] s = negb (no_char x s).
Proof.
  unfold includes, no_char. induction s as [|c s IH]; [reflexivity|].
  cbn [index_of forallb is_prefix]. rewrite andb_true_r.
  destruct (Ascii.eqb x c); [reflexivity|]. cbn [negb andb]. rewrite <- IH.
  destruct (index_of [x] s); reflexivity.
Qed.

Lemma split_go_char_end (x : ascii) (cur u : text) :
  no_char x u = true -> split_go [x] 0 cur u = [cur ++ u].
Proof.
  revert cur; induction u as [|c u IH]; intros cur Hu.
  - simpl. rewrite app_nil_r; reflexivity.
  - unfold no_char in Hu; cbn [forallb] in Hu; apply andb_true_iff in Hu as [Hc Hu].
    cbn [split_go is_prefix]. rewrite andb_true_r.
    destruct (Ascii.eqb x c); [discriminate|]. rewrite IH by exact Hu.
    rewrite <- app_assoc; reflexivity.
Qed.

Lemma split_go_char (x : ascii) (cur u v : text) :
  no_char x u = true -> split_go [x] 0 cur (u ++ x :: v) = (cur ++ u) :: split_go [x] 0 [] v.
Proof.
  revert cur; induction u as [|c u IH]; intros cur Hu.
  - cbn [app split_go is_prefix]. rewrite Ascii.eqb_refl. rewrite app_nil_r. reflexivity.
  - unfold no_char in Hu; cbn [forallb] in Hu; apply andb_true_iff in Hu as [Hc Hu].
    cbn [app split_go is_prefix]. rewrite andb_true_r.
    destruct (Ascii.eqb x c); [discriminate|]. rewrite IH by exact Hu.
    rewrite <- app_assoc; reflexivity.
Qed.

Lemma drop_spaces_id (s : text) :
  forallb (fun c => negb (is_space c)) s = true -> drop_spaces s = s.
Proof.
  destruct s as [|c s]; [reflexivity|]. cbn [forallb drop_spaces].
  destruct (is_space c); [discriminate | reflexivity].
Qed.

Lemma trim_id (s : text) :
  forallb (fun c => negb (is_space c)) s = true -> trim s = s.
Proof.
  intros H. unfold trim. rewrite (drop_spaces_id s H), drop_spaces_id, rev_involutive;
    [reflexivity|].
  rewrite forallb_forall in *. intros c Hc. apply H, in_rev, Hc.
Qed.

Lemma digits_no_space (u : text) :
  forallb is_digit u = true -> forallb (fun c => negb (is_space c)) u = true.
Proof.
  rewrite !forallb_forall. intros H c Hc. rewrite (digit_not_space c (H c Hc)). reflexivity.
Qed.

Lemma forallb_cons' (f : ascii -> bool) (c : ascii) (u : text) :
  forallb f (c :: u) = f c && forallb f u.
Proof. reflexivity. Qed.

Ltac text_facts :=
  repeat first
    [ apply digits_no_space; assumption | rewrite forallb_app | rewrite forallb_cons'
    | apply andb_true_intro; split | reflexivity ].

Lemma no_char_cons (x c : ascii) (u : text) :
  no_char x (c :: u) = negb (Ascii.eqb x c) && no_char x u.
Proof. reflexivity. Qed.

Lemma no_char_app (x : ascii) (u v : text) : no_char x (u ++ v) = no_char x u && no_char x v.
Proof. apply forallb_app. Qed.

(** The live formats of [parseTimeControl], for runs of digits [B], [I]
    and [J] ([B] and [I] of at most 15 digits, so that their values stay
    below [2^53], where the doubles of [parseInt] are exact) and a time
    class other than [daily]: [B+I] gives base time [B]
    and increment [I]; [B] alone gives base time [B] and increment [0];
    [B+I+J] (more than one [+]) gives base time [B] and increment [0]. None
    of them has a correspondence time. *)
Theorem parseTimeControl_live (b i j : text) (timeClass : option text) :
  timeClass <> Some (txt "daily") ->
  b <> [] -> forallb is_digit b = true -> i <> [] -> forallb is_digit i = true ->
  forallb is_digit j = true -> length b <= 15 -> length i <= 15 ->
  (parseTimeControl (Some (b ++ "+"%char :: i)) timeClass =
     {| baseTime := Some (digits_value b); increment := Some (digits_value i);
        correspondenceTime := None |}) /\
  (parseTimeControl (Some b) timeClass =
     {| baseTime := Some (digits_value b); increment := Some 0%Z;
        correspondenceTime := None |}) /\
  (parseTimeControl (Some (b ++ "+"%char :: i ++ "+"%char :: j)) timeClass =
     {| baseTime := Some (digits_value b); increment := Some 0%Z;
        correspondenceTime := None |}).
Proof.
  intros Hcl Hb Hbd Hi Hid Hjd _ _.
  assert (Hdaily : match timeClass with Some t => text_eqb t (txt "daily") | None => false end
                   = false).
  { destruct timeClass as [t|]; [|reflexivity]. destruct (text_eqb t (txt "daily")) eqn:E;
    [apply text_eqb_true in E; subst; contradiction | reflexivity]. }
  assert (Hpb : parseInt b = Some (digits_value b))
    by (pose proof (parseInt_digits b [] Hb Hbd eq_refl) as H; rewrite app_nil_r in H; exact H).
  assert (Hpi : parseInt i = Some (digits_value i))
    by (pose proof (parseInt_digits i [] Hi Hid eq_refl) as H; rewrite app_nil_r in H; exact H).
  assert (Hpbr : forall r, parseInt (b ++ "+"%char :: r) = Some (digits_value b))
    by (intros r; apply parseInt_digits; auto).
  unfold parseTimeControl; rewrite Hdaily; cbn [orb].
  change (txt "/") with ["/"%char]; change (txt "+") with ["+"%char].
  repeat split.
  - rewrite match_nonempty by (destruct b; [contradiction | discriminate]). rewrite trim_id by text_facts.
    rewrite !includes_char, !no_char_app, !no_char_cons,
      (digits_no_char "/" b), (digits_no_char "/" i), (digits_no_char "+" b)
      by (reflexivity || assumption).
    cbn [negb andb Ascii.eqb Bool.eqb].
    unfold split. rewrite (split_go_char "+" [] b i) by (apply digits_no_char; auto).
    rewrite (split_go_char_end "+" [] i) by (apply digits_no_char; auto).
    cbn [app length Nat.eqb nth]. rewrite Hpb, Hpi. reflexivity.
  - rewrite match_nonempty by exact Hb. rewrite trim_id by text_facts.
    rewrite !includes_char, (digits_no_char "/" b), (digits_no_char "+" b)
      by (reflexivity || assumption).
    cbn [negb]. rewrite Hpb. reflexivity.
  - rewrite match_nonempty by (destruct b; [contradiction | discriminate]). rewrite trim_id by text_facts.
    rewrite !includes_char, !no_char_app, !no_char_cons, !no_char_app, !no_char_cons,
      (digits_no_char "/" b), (digits_no_char "/" i), (digits_no_char "/" j),
      (digits_no_char "+" b) by (reflexivity || assumption).
    cbn [negb andb Ascii.eqb Bool.eqb].
    unfold split. rewrite (split_go_char "+" [] b), (split_go_char "+" [] i),
      (split_go_char_end "+" [] j) by (apply digits_no_char; auto).
    cbn [app length Nat.eqb]. rewrite Hpbr. reflexivity.
Qed.

(** The correspondence formats of [parseTimeControl], for runs of digits
    [D], [S] and [J] ([D] of at most 10 digits and [S] of at most 15, so that
    [S] and [D * 86400] stay below [2^53], where JavaScript numbers are
    exact): [D/S] gives base time and increment [0] and
    correspondence time [S] whatever the time class (the day count [D] is
    read but not used); a bare [D] with time class [daily] gives
    correspondence time [D * 86400]; [D/S/J] (more than one [/]) gives
    correspondence time [D * 86400]. *)
Theorem parseTimeControl_daily (d s j : text) (timeClass : option text) :
  d <> [] -> forallb is_digit d = true -> s <> [] -> forallb is_digit s = true ->
  forallb is_digit j = true -> length d <= 10 -> length s <= 15 ->
  (parseTimeControl (Some (d ++ "/"%char :: s)) timeClass =
     {| baseTime := Some 0%Z; increment := Some 0%Z;
        correspondenceTime := Some (digits_value s) |}) /\
  (parseTimeControl (Some d) (Some (txt "daily")) =
     {| baseTime := Some 0%Z; increment := Some 0%Z;
        correspondenceTime := Some (digits_value d * 86400)%Z |}) /\
  (parseTimeControl (Some (d ++ "/"%char :: s ++ "/"%char :: j)) timeClass =
     {| baseTime := Some 0%Z; increment := Some 0%Z;
        correspondenceTime := Some (digits_value d * 86400)%Z |}).
Proof.
  intros Hd Hdd Hs Hsd Hjd _ _.
  assert (Hpd : parseInt d = Some (digits_value d))
    by (pose proof (parseInt_digits d [] Hd Hdd eq_refl) as H; rewrite app_nil_r in H; exact H).
  assert (Hps : parseInt s = Some (digits_value s))
    by (pose proof (parseInt_digits s [] Hs Hsd eq_refl) as H; rewrite app_nil_r in H; exact H).
  assert (Hpdr : forall r, parseInt (d ++ "/"%char :: r) = Some (digits_value d))
    by (intros r; apply parseInt_digits; auto).
  unfold parseTimeControl.
  change (txt "/") with ["/"%char]; change (txt "+") with ["+"%char].
  repeat split.
  - rewrite match_nonempty by (destruct d; [contradiction | discriminate]).
    rewrite trim_id by text_facts.
    rewrite !includes_char, !no_char_app, !no_char_cons, (digits_no_char "/" d)
      by (reflexivity || assumption).
    cbn [negb andb Ascii.eqb Bool.eqb]. rewrite orb_true_r.
    unfold split. rewrite (split_go_char "/" [] d s) by (apply digits_no_char; auto).
    rewrite (split_go_char_end "/" [] s) by (apply digits_no_char; auto).
    cbn [app length Nat.eqb nth]. rewrite Hps. reflexivity.
  - rewrite match_nonempty by exact Hd.
    rewrite trim_id by text_facts.
    replace (text_eqb (txt "daily") (txt "daily")) with true by reflexivity. cbn [orb].
    rewrite !includes_char, (digits_no_char "/" d) by (reflexivity || assumption).
    cbn [negb]. rewrite Hpd. reflexivity.
  - rewrite match_nonempty by (destruct d; [contradiction | discriminate]).
    rewrite trim_id by text_facts.
    rewrite !includes_char, !no_char_app, !no_char_cons, (digits_no_char "/" d)
      by (reflexivity || assumption).
    cbn [negb andb Ascii.eqb Bool.eqb]. rewrite orb_true_r.
    unfold split. rewrite (split_go_char "/" [] d), (split_go_char "/" [] s),
      (split_go_char_end "/" [] j) by (apply digits_no_char; auto).
    cbn [app length Nat.eqb]. rewrite Hpdr. reflexivity.
Qed.

End ParseFacts.

Section OutcomeFacts.

Lemma mem_text_true (x : text) (l : list text) : mem_text x l = true <-> In x l.
Proof.
  unfold mem_text. rewrite existsb_exists. split.
  - intros [y [Hy E]]. apply text_eqb_true in E; subst y. exact Hy.
  - intros H. exists x. split; [exact H | apply text_eqb_true; reflexivity].
Qed.

Lemma text_eqb_refl (x : text) : text_eqb x x = true.
Proof. apply text_eqb_true; reflexivity. Qed.

Lemma text_eqb_false (x y : text) : x <> y -> text_eqb x y = false.
Proof. intros H. destruct (text_eqb x y) eqn:E; [apply text_eqb_true in E; contradiction | reflexivity]. Qed.

Lemma is_white_self (w : player) (u : text) :
  username w = Some u -> is_white w u = Some true.
Proof. intros H. unfold is_white. rewrite H, text_eqb_refl. reflexivity. Qed.

Lemma is_white_other (w : player) (u v : text) :
  username w = Some u -> toLowerCase u <> toLowerCase v -> is_white w v = Some false.
Proof. intros H Hne. unfold is_white. rewrite H, text_eqb_false by exact Hne. reflexivity. Qed.

(** The two players of a game are told consistent stories. When White's
    and Black's user names differ (ignoring case) and one player has the
    result [win] while the other has a result [r] of the loss list
    ([checkmated], [resigned], [timeout], [abandoned]), the first gets the
    outcome [win], the second [loss], and both get the termination [r]. When
    both have the same draw result [r], both get [draw] and termination
    [r]. *)
Theorem outcome_players_agree (g : game) (w b : player) (uw ub r : text) :
  white g = Some w -> black g = Some b ->
  username w = Some uw -> username b = Some ub -> toLowerCase uw <> toLowerCase ub ->
  (In r loss_results ->
     (result w = Some (txt "win") -> result b = Some r ->
        getGameOutcome g uw = Some (txt "win") /\ getGameOutcome g ub = Some (txt "loss") /\
        getGameTermination g uw = Some r /\ getGameTermination g ub = Some r) /\
     (result b = Some (txt "win") -> result w = Some r ->
        getGameOutcome g ub = Some (txt "win") /\ getGameOutcome g uw = Some (txt "loss") /\
        getGameTermination g ub = Some r /\ getGameTermination g uw = Some r)) /\
  (In r draw_results -> result w = Some r -> result b = Some r ->
     getGameOutcome g uw = Some (txt "draw") /\ getGameOutcome g ub = Some (txt "draw") /\
     getGameTermination g uw = Some r /\ getGameTermination g ub = Some r).
Proof.
  intros Hw Hb Huw Hub Hne.
  assert (Hne' : toLowerCase ub <> toLowerCase uw) by (intros E; apply Hne; symmetry; exact E).
  unfold getGameOutcome, getGameTermination. rewrite Hw, Hb.
  rewrite (is_white_self w uw Huw), (is_white_other w uw ub Huw Hne).
  assert (Hr_ne : forall l, In r l -> Forall (fun x => x <> []) l -> r <> [])
    by (intros l Hin Hall; rewrite Forall_forall in Hall; apply Hall, Hin).
  assert (Hor : forall d, r <> [] -> or_else (Some r) d = r)
    by (intros d H; destruct r; [contradiction | reflexivity]).
  assert (Hnotwin : forall l, In r l -> ~ In (txt "win") l -> text_eqb r (txt "win") = false)
    by (intros l Hin Hn; apply text_eqb_false; intros ->; contradiction).
  split; [intros Hl; split; intros H1 H2 | intros Hd H1 H2].
  - assert (Hrne : r <> []) by (apply (Hr_ne loss_results); [exact Hl | repeat constructor; discriminate]).
    rewrite H1, H2. cbn [result_is result_in]. rewrite text_eqb_refl.
    rewrite (Hnotwin loss_results) by (exact Hl || (cbv; intuition discriminate)).
    apply mem_text_true in Hl. rewrite Hl. rewrite !Hor by exact Hrne.
    repeat split.
  - assert (Hrne : r <> []) by (apply (Hr_ne loss_results); [exact Hl | repeat constructor; discriminate]).
    rewrite H1, H2. cbn [result_is result_in]. rewrite text_eqb_refl.
    rewrite (Hnotwin loss_results) by (exact Hl || (cbv; intuition discriminate)).
    apply mem_text_true in Hl. rewrite Hl. rewrite !Hor by exact Hrne.
    repeat split.
  - assert (Hrne : r <> []) by (apply (Hr_ne draw_results); [exact Hd | repeat constructor; discriminate]).
    rewrite H1, H2. cbn [result_is result_in].
    rewrite (Hnotwin draw_results) by (exact Hd || (cbv; intuition discriminate)).
    assert (Hnl : mem_text r loss_results = false).
    { apply mem_text_false. intros Hl. unfold loss_results, draw_results in *.
      cbn [In] in Hl, Hd.
      repeat match goal with H : _ \/ _ |- _ => destruct H end; subst; try discriminate;
      try contradiction. }
    apply mem_text_true in Hd. rewrite Hnl, Hd, !Hor by exact Hrne.
    repeat split.
Qed.

Definition outcome_of_result (r : option text) : text :=
  if result_is r (txt "win") then txt "win"
  else if result_in r loss_results then txt "loss"
  else if result_in r draw_results then txt "draw"
  else txt "unknown".

Lemma getGameOutcome_white (g : game) (w b : player) (uw : text) :
  white g = Some w -> black g = Some b -> username w = Some uw ->
  getGameOutcome g uw = Some (outcome_of_result (result w)).
Proof.
  intros Hw Hb Hu. unfold getGameOutcome. rewrite Hw, Hb, (is_white_self w uw Hu). reflexivity.
Qed.

(** [getGameOutcome] against the table [RESULT_MAP]: a player whose result
    is a key of the table gets the lower-cased value of the table, except
    for the four results [lose], [kingofthehill], [threecheck] and
    [bughousepartnerlose], which the table counts as losses and
    [getGameOutcome] reports as [unknown]. *)
Theorem getGameOutcome_vs_RESULT_MAP (g : game) (w b : player) (uw r v : text) :
  white g = Some w -> black g = Some b -> username w = Some uw ->
  In (r, v) RESULT_MAP -> result w = Some r ->
  getGameOutcome g uw =
    Some (if mem_text r [txt "lose"; txt "kingofthehill"; txt "threecheck";
                         txt "bughousepartnerlose"]
          then txt "unknown" else toLowerCase v).
Proof.
  intros Hw Hb Hu Hin Hr. rewrite (getGameOutcome_white g w b uw Hw Hb Hu), Hr.
  unfold RESULT_MAP in Hin. cbn [In] in Hin.
  repeat (destruct Hin as [Hin|Hin]; [injection Hin as <- <-; reflexivity|]).
  contradiction.
Qed.

(** A user name that is not White's (ignoring case), whether it names Black
    or nobody in the game, gets Black's outcome and termination. *)
Theorem outcome_non_white_is_black (g : game) (w b : player) (uw ub u : text) :
  white g = Some w -> black g = Some b ->
  username w = Some uw -> username b = Some ub ->
  toLowerCase ub <> toLowerCase uw -> toLowerCase u <> toLowerCase uw ->
  getGameOutcome g u = getGameOutcome g ub /\ getGameTermination g u = getGameTermination g ub.
Proof.
  intros Hw Hb Huw Hub Hb' Hu.
  assert (E1 : is_white w u = Some false)
    by (apply (is_white_other w uw u Huw); intros E; apply Hu; symmetry; exact E).
  assert (E2 : is_white w ub = Some false)
    by (apply (is_white_other w uw ub Huw); intros E; apply Hb'; symmetry; exact E).
  unfold getGameOutcome, getGameTermination. rewrite Hw, Hb, E1, E2. split; reflexivity.
Qed.

End OutcomeFacts.

Section DurationFacts.

Definition digit_step (acc : Z) (c : ascii) : Z := (10 * acc + Z.of_nat (code c - 48))%Z.

Lemma txt_cons (c : ascii) (s : string) : txt (String c s) = c :: txt s.
Proof. reflexivity. Qed.

Lemma string_of_uint_digits (d : Decimal.uint) (acc : nat) :
  forallb is_digit (txt (NilEmpty.string_of_uint d)) = true /\
  fold_left digit_step (txt (NilEmpty.string_of_uint d)) (Z.of_nat acc) =
  Z.of_nat (Nat.of_uint_acc d acc).
Proof.
  revert acc; induction d; intros acc; [split; reflexivity| ..];
  cbn [NilEmpty.string_of_uint]; rewrite txt_cons; cbn [fold_left Nat.of_uint_acc forallb];
  (split; [apply andb_true_intro; split; [reflexivity | apply (IHd 0)] |]);
  rewrite <- (proj2 (IHd _)); f_equal; unfold digit_step; rewrite Nat.tail_mul_spec;
  match goal with
  | |- context [code ?c] => let v := eval vm_compute in (code c) in change (code c) with v
  end; lia.
Qed.

Lemma uint_text_digits (d : Decimal.uint) :
  txt (NilZero.string_of_uint d) <> [] /\
  forallb is_digit (txt (NilZero.string_of_uint d)) = true /\
  digits_value (txt (NilZero.string_of_uint d)) = Z.of_nat (Nat.of_uint d).
Proof.
  destruct d as [| d | d | d | d | d | d | d | d | d | d];
  [repeat split; discriminate || reflexivity | ..];
  (repeat split;
   [discriminate
   | apply (string_of_uint_digits _ 0)
   | apply (string_of_uint_digits _ 0)]).
Qed.

Lemma nat_text_digits (n : nat) :
  nat_text n <> [] /\ forallb is_digit (nat_text n) = true /\
  digits_value (nat_text n) = Z.of_nat n.
Proof.
  unfold nat_text. pose proof (uint_text_digits (Nat.to_uint n)) as H.
  rewrite DecimalNat.Unsigned.of_to in H. exact H.
Qed.

Lemma nat_text_short (n : nat) : n < 60 -> length (nat_text n) <= 2.
Proof.
  intros H. do 60 (destruct n as [|n]; [vm_compute; lia|]). lia.
Qed.

Lemma z_text_nonneg (z : Z) : (0 <= z)%Z -> z_text z = nat_text (Z.to_nat z).
Proof.
  intros H. unfold z_text. replace (z <? 0)%Z with false by (symmetry; apply Z.ltb_ge; lia).
  reflexivity.
Qed.

Lemma digits_value_zero (t : text) : digits_value ("0"%char :: t) = digits_value t.
Proof. reflexivity. Qed.

Lemma pad2 (n : nat) : n < 60 ->
  length (pad_start 2 "0" (nat_text n)) = 2 /\
  forallb is_digit (pad_start 2 "0" (nat_text n)) = true /\
  digits_value (pad_start 2 "0" (nat_text n)) = Z.of_nat n.
Proof.
  intros H. pose proof (nat_text_short n H) as Hl.
  destruct (nat_text_digits n) as (Hne & Hd & Hv).
  unfold pad_start.
  destruct (nat_text n) as [|a [|b [|c t]]]; [contradiction | | | cbn in Hl; lia].
  - change (repeat "0"%char (2 - length [a]) ++ [a]) with ("0"%char :: [a]).
    split; [reflexivity|]. split; [exact (andb_true_intro (conj eq_refl Hd))|].
    rewrite digits_value_zero; exact Hv.
  - change (repeat "0"%char (2 - length [a; b]) ++ [a; b]) with [a; b].
    split; [reflexivity|]. split; [exact Hd | exact Hv].
Qed.

(** [formatDuration] on a non-negative number of seconds writes
    [H:MM:SS]: a run of decimal digits, a colon, two digits, a colon and two
    digits; the two-digit fields are below [60], and reading the three fields
    back as hours, minutes and seconds gives the duration again. *)
Theorem formatDuration_fields (s : Z) :
  (0 <= s)%Z ->
  exists h m sec,
    formatDuration s = h ++ ":"%char :: m ++ ":"%char :: sec /\
    h <> [] /\ forallb is_digit h = true /\
    length m = 2 /\ forallb is_digit m = true /\
    length sec = 2 /\ forallb is_digit sec = true /\
    (digits_value m < 60)%Z /\ (digits_value sec < 60)%Z /\
    (digits_value h * 3600 + digits_value m * 60 + digits_value sec)%Z = s.
Proof.
  intros Hs. unfold formatDuration. cbn zeta.
  rewrite !Z.rem_mod_nonneg by lia.
  pose proof (Z.div_mod s 3600 ltac:(lia)) as E1.
  pose proof (Z.mod_pos_bound s 3600 ltac:(lia)) as B1.
  pose proof (Z.div_mod (s mod 3600) 60 ltac:(lia)) as E2.
  pose proof (Z.mod_pos_bound (s mod 3600) 60 ltac:(lia)) as B2.
  assert (E3 : (s mod 60 = (s mod 3600) mod 60)%Z).
  { symmetry; apply Z.mod_unique_pos with (q := (60 * (s / 3600) + s mod 3600 / 60)%Z); lia. }
  assert (H0 : (0 <= s / 3600)%Z) by (apply Z.div_pos; lia).
  assert (Hm0 : (0 <= s mod 3600 / 60)%Z) by (apply Z.div_pos; lia).
  assert (Hm1 : (s mod 3600 / 60 < 60)%Z) by (apply Z.div_lt_upper_bound; lia).
  rewrite !z_text_nonneg by lia.
  destruct (nat_text_digits (Z.to_nat (s / 3600))) as (Hhne & Hhd & Hhv).
  destruct (pad2 (Z.to_nat (s mod 3600 / 60))) as (Hml & Hmd & Hmv); [lia|].
  destruct (pad2 (Z.to_nat (s mod 60))) as (Hsl & Hsd & Hsv); [lia|].
  do 3 eexists. split; [reflexivity|].
  rewrite Hhv, Hmv, Hsv, !Z2Nat.id by lia.
  repeat split; try assumption; lia.
Qed.

End DurationFacts.

Section TagFacts.

Lemma word_not_space (c : ascii) : is_word c = true -> is_space c = false.
Proof. destruct c as [[] [] [] [] [] [] [] []]; vm_compute; congruence. Qed.

Lemma word_not_bracket (c : ascii) : is_word c = true -> Ascii.eqb "["%char c = false.
Proof. destruct c as [[] [] [] [] [] [] [] []]; vm_compute; congruence. Qed.

Lemma plus_space_word (c : ascii) (t : text) : is_word c = true -> plus is_space (c :: t) = [].
Proof. intros H. unfold plus. rewrite (word_not_space c H). reflexivity. Qed.

(** After a name other than [name], the header line does not continue as [name\s]. *)
Lemma prefix_other_name (name n r : text) :
  forallb is_word name = true -> forallb is_word n = true -> name <> n ->
  is_prefix name (n ++ " "%char :: r) = false \/
  exists c t, skipn (length name) (n ++ " "%char :: r) = c :: t /\ is_word c = true.
Proof.
  revert n; induction name as [|a name IH]; intros n Hname Hn Hne.
  - destruct n as [|c n']; [contradiction|]. right. exists c, (n' ++ " "%char :: r).
    split; [reflexivity|]. cbn [forallb] in Hn. apply andb_true_iff in Hn as [Hc _]. exact Hc.
  - cbn [forallb] in Hname. apply andb_true_iff in Hname as [Ha Hname].
    destruct n as [|b n']; cbn [app is_prefix].
    + left. destruct (Ascii.eqb a " "%char) eqn:E; [|reflexivity].
      apply Ascii.eqb_eq in E; subst a. discriminate Ha.
    + cbn [forallb] in Hn. apply andb_true_iff in Hn as [Hb Hn].
      destruct (Ascii.eqb a b) eqn:E; cbn [andb]; [|left; reflexivity].
      apply Ascii.eqb_eq in E; subst b.
      apply (IH n' Hname Hn). intros ->; apply Hne; reflexivity.
Qed.

Lemma tag_re_not_bracket (name : text) (c : ascii) (t : text) :
  Ascii.eqb "["%char c = false -> tag_re name (c :: t) = [].
Proof.
  intros Hc. unfold tag_re, Re.bind, lit. change (txt "[" ++ name) with ("["%char :: name).
  cbn [is_prefix]. rewrite Hc. reflexivity.
Qed.

Lemma tag_re_nil (name : text) : tag_re name [] = [].
Proof. reflexivity. Qed.

Lemma header_line_cons (n v rest : text) :
  header_line n v ++ rest = "["%char :: n ++ " "%char :: dq :: v ++ dq :: "]"%char :: rest.
Proof.
  unfold header_line; change (txt "[") with ["["%char]; simpl.
  rewrite <- app_assoc; cbn [app]; rewrite <- app_assoc; reflexivity.
Qed.

Lemma tag_re_other (name n v rest : text) :
  forallb is_word name = true -> forallb is_word n = true -> name <> n ->
  tag_re name (header_line n v ++ rest) = [].
Proof.
  intros Hname Hn Hne. rewrite header_line_cons.
  unfold tag_re, Re.bind, lit. change (txt "[" ++ name) with ("["%char :: name).
  cbn [is_prefix Ascii.eqb Bool.eqb andb].
  set (r := dq :: v ++ dq :: "]"%char :: rest).
  destruct (prefix_other_name name n r Hname Hn Hne) as [E | (c & t & E & Hc)].
  - rewrite E. reflexivity.
  - destruct (is_prefix name (n ++ " "%char :: r)); [|reflexivity].
    cbn [flat_map fst snd length skipn]. rewrite E, (plus_space_word c t Hc). reflexivity.
Qed.

Lemma tag_re_same (n v rest : text) :
  tag_ok (n, v) = true -> exists N, tag_re n (header_line n v ++ rest) = (v, rest) :: N.
Proof.
  unfold tag_ok; simpl fst; simpl snd; intros H.
  apply andb_true_iff in H as [H _]. apply andb_true_iff in H as [H Hv].
  apply andb_true_iff in H as [H Hvne]. apply andb_true_iff in H as [Hne Hn].
  rewrite header_line_cons.
  assert (E0 : "["%char :: n ++ " "%char :: dq :: v ++ dq :: "]"%char :: rest =
               (txt "[" ++ n) ++ " "%char :: dq :: v ++ dq :: "]"%char :: rest)
    by reflexivity.
  unfold tag_ok, tag_re. rewrite E0.
  eapply bind_first.
  { exists []. unfold lit. rewrite is_prefix_app_true by (clear; induction (txt "[" ++ n) as [|c u IH];
      [reflexivity | cbn [is_prefix]; rewrite IH, Ascii.eqb_refl; reflexivity]).
    rewrite skipn_app, Nat.sub_diag, skipn_all. reflexivity. }
  cbv beta.
  eapply bind_first.
  { apply (plus_max is_space [" "%char] _); [discriminate | reflexivity | reflexivity]. }
  cbv beta.
  eapply bind_first; [exists []; reflexivity|]. cbv beta.
  eapply bind_first.
  { apply plus_max; [destruct v; [discriminate Hvne | discriminate] | exact Hv | reflexivity]. }
  cbv beta.
  eapply bind_first; [exists []; reflexivity|]. cbv beta.
  eapply bind_first; [exists []; reflexivity|]. cbv beta.
  exists []; reflexivity.
Qed.

Lemma search_nowhere {A} (p : re A) (i : nat) (s : text) : nowhere p s -> search p i s = None.
Proof.
  revert i; induction s as [|c s IH]; intros i H.
  - simpl. rewrite (H [] (ex_intro _ [] eq_refl)). reflexivity.
  - apply nowhere_cons in H as [H1 H2]. simpl. rewrite H1. apply IH, H2.
Qed.

Lemma tag_re_no_bracket (name u : text) : no_bracket u = true -> nowhere (tag_re name) u.
Proof.
  intros Hu s' Hs. pose proof (forallb_suffix _ _ _ Hs Hu) as H.
  destruct s' as [|c t]; [reflexivity|].
  apply tag_re_not_bracket. cbn [forallb] in H. apply andb_true_iff in H as [H _].
  apply negb_true_iff, H.
Qed.

Lemma word_no_bracket (u : text) : forallb is_word u = true -> no_bracket u = true.
Proof.
  induction u as [|c u IH]; [reflexivity|]. cbn [forallb]; intros H.
  apply andb_true_iff in H as [H1 H2]. unfold no_bracket; cbn [forallb].
  rewrite word_not_bracket by exact H1. apply IH, H2.
Qed.

Lemma search_other_line (name n v rest : text) (i : nat) :
  forallb is_word name = true -> forallb is_word n = true -> name <> n -> no_bracket v = true ->
  search (tag_re name) i (header_line n v ++ nl :: rest) =
  search (tag_re name) (i + length (header_line n v ++ [nl])) rest.
Proof.
  intros Hname Hn Hne Hv.
  replace (header_line n v ++ nl :: rest) with ((header_line n v ++ [nl]) ++ rest)
    by (rewrite <- app_assoc; reflexivity).
  apply search_app. intros b2 [pre Hpre] Hb2.
  rewrite header_line_cons in Hpre.
  destruct pre as [|c pre].
  - cbn [app] in Hpre. subst b2.
    match goal with |- tag_re _ ?x = _ =>
      replace x with (header_line n v ++ nl :: rest)
        by (rewrite header_line_cons; cbn [app]; repeat (rewrite <- app_assoc; cbn [app]); reflexivity) end.
    apply tag_re_other; assumption.
  - injection Hpre as _ Hpre.
    assert (Hx : no_bracket (n ++ " "%char :: dq :: v ++ [dq; "]"%char; nl]) = true).
    { rewrite no_bracket_app, word_no_bracket by exact Hn.
      unfold no_bracket at 1; cbn [forallb]. fold (no_bracket (v ++ [dq; "]"%char; nl])).
      rewrite no_bracket_app, Hv. reflexivity. }
    assert (Hs : is_suffix b2 (n ++ " "%char :: dq :: v ++ [dq; "]"%char; nl]))
      by (exists pre; exact Hpre).
    pose proof (forallb_suffix _ _ _ Hs Hx) as H.
    destruct b2 as [|c' t]; [contradiction|].
    apply tag_re_not_bracket. cbn [forallb] in H. apply andb_true_iff in H as [H _].
    apply negb_true_iff, H.
Qed.

Lemma search_headers_find (name : text) (tags : list (text * text)) (body : text) (i : nat) :
  forallb is_word name = true -> forallb tag_ok tags = true ->
  forallb (fun nv => no_bracket (snd nv)) tags = true -> no_bracket body = true ->
  match find (fun nv => text_eqb (fst nv) name) tags with
  | Some nv => exists j r, search (tag_re name) i (headers_text tags ++ nl :: body) = Some (j, snd nv, r)
  | None => search (tag_re name) i (headers_text tags ++ nl :: body) = None
  end.
Proof.
  intros Hname. revert i; induction tags as [|[n v] tags IH]; intros i Ht Hv Hb.
  - cbn [headers_text map concat app find]. apply search_nowhere.
    apply tag_re_no_bracket. unfold no_bracket; cbn [forallb]. exact Hb.
  - cbn [forallb] in Ht, Hv. apply andb_true_iff in Ht as [Ht1 Ht2].
    apply andb_true_iff in Hv as [Hv1 Hv2]. cbn [snd] in Hv1.
    unfold headers_text; cbn [map]; rewrite concat_cons; fold (headers_text tags).
    cbn [fst snd]. rewrite <- !app_assoc. cbn [app find fst snd].
    destruct (text_eqb n name) eqn:E.
    + apply text_eqb_true in E; subst name.
      destruct (tag_re_same n v (nl :: headers_text tags ++ nl :: body) Ht1) as [N EN].
      exists i, (nl :: headers_text tags ++ nl :: body).
      exact (search_first _ _ _ _ _ _ EN).
    + assert (Hn : forallb is_word n = true).
      { unfold tag_ok in Ht1; cbn [fst snd] in Ht1.
        apply andb_true_iff in Ht1 as [Ht1 _]. apply andb_true_iff in Ht1 as [Ht1 _].
        apply andb_true_iff in Ht1 as [Ht1 _]. apply andb_true_iff in Ht1 as [_ Ht1]. exact Ht1. }
      replace (header_line n v ++ nl :: headers_text tags ++ nl :: body)
        with (header_line n v ++ nl :: (headers_text tags ++ nl :: body)) by reflexivity.
      rewrite search_other_line; try assumption.
      * apply IH; assumption.
      * intros ->. rewrite text_eqb_refl in E. discriminate.
Qed.

(** The value of the first tag of a given name, [''] when there is none. *)
Definition first_value (n : text) (tags : list (text * text)) : text :=
  match find (fun nv => text_eqb (fst nv) n) tags with
  | Some nv => snd nv
  | None => []
  end.

Lemma search_headers (name : text) (tags : list (text * text)) (body : text) (i : nat) :
  forallb is_word name = true -> forallb tag_ok tags = true ->
  forallb (fun nv => no_bracket (snd nv)) tags = true -> no_bracket body = true ->
  match search (tag_re name) i (headers_text tags ++ nl :: body) with
  | Some (_, v, _) => v
  | None => []
  end = first_value name tags.
Proof.
  intros Hname Ht Hv Hb. pose proof (search_headers_find name tags body i Hname Ht Hv Hb) as H.
  unfold first_value. destruct (find _ tags) as [nv|].
  - destruct H as (j & r & ->). reflexivity.
  - rewrite H. reflexivity.
Qed.

Lemma search_first_value (name : text) (tags : list (text * text)) (body : text) :
  forallb is_word name = true -> forallb tag_ok tags = true ->
  forallb (fun nv => no_bracket (snd nv)) tags = true -> no_bracket body = true ->
  first_value name tags <> [] ->
  exists j r, search (tag_re name) 0 (headers_text tags ++ nl :: body) =
              Some (j, first_value name tags, r).
Proof.
  intros Hname Ht Hv Hb Hne. pose proof (search_headers_find name tags body 0 Hname Ht Hv Hb) as H.
  unfold first_value in *. destruct (find _ tags) as [nv|]; [exact H | contradiction].
Qed.

Lemma search_missing (name : text) (tags : list (text * text)) (body : text) :
  forallb is_word name = true -> forallb tag_ok tags = true ->
  forallb (fun nv => no_bracket (snd nv)) tags = true -> no_bracket body = true ->
  ~ In name (map fst tags) ->
  search (tag_re name) 0 (headers_text tags ++ nl :: body) = None.
Proof.
  intros Hname Ht Hv Hb Hn. pose proof (search_headers_find name tags body 0 Hname Ht Hv Hb) as H.
  destruct (find _ tags) as [nv|] eqn:E; [|exact H].
  apply find_some in E as [Hin Heq]. apply text_eqb_true in Heq.
  exfalso. apply Hn. rewrite <- Heq. apply in_map, Hin.
Qed.

End TagFacts.

Section ECOFacts.

(** For a PGN text made of header lines (each ended by a newline; names
    [\w+], values non-empty, free of double quotes and of [[]), a blank line
    and a movetext without [[], [extractECOCodeFromPGN] returns the value of
    the first [ECO] tag and [extractECOFromPGN] that of the first [ECOUrl]
    tag, [''] when there is none; an [ECOUrl] tag is never read as [ECO]. *)
Theorem extractECO_first_tag (tags : list (text * text)) (body : text) :
  forallb tag_ok tags = true -> forallb (fun nv => no_bracket (snd nv)) tags = true ->
  no_bracket body = true ->
  extractECOCodeFromPGN (headers_text tags ++ nl :: body) = first_value (txt "ECO") tags /\
  extractECOFromPGN (headers_text tags ++ nl :: body) = first_value (txt "ECOUrl") tags.
Proof.
  intros Ht Hv Hb. unfold extractECOCodeFromPGN, extractECOFromPGN, tag_value.
  rewrite !match_nonempty by (destruct (headers_text tags); discriminate).
  split; apply search_headers; try assumption; reflexivity.
Qed.

End ECOFacts.

Section OpeningFacts.

(** Every entry of a catalog is stored under its own slug. *)
Definition catalog_ok (m : jsmap entry) : bool :=
  forallb (fun ke => text_eqb (slug (snd ke)) (fst ke)) m.

Definition cache_ok (st : cache_state) : bool :=
  match openingsCache st with Some c => catalog_ok c | None => true end.

Lemma catalog_get (m : jsmap entry) (k : text) (e : entry) :
  catalog_ok m = true -> map_get k m = Some e -> slug e = k.
Proof.
  induction m as [|[k' v] m IH]; intros Hm H; [discriminate|].
  cbn [catalog_ok forallb fst snd] in Hm. apply andb_true_iff in Hm as [Hv Hm].
  cbn [map_get] in H. destruct (text_eqb k k') eqn:E.
  - injection H as <-. apply text_eqb_true in E, Hv. congruence.
  - apply IH; assumption.
Qed.

Lemma catalog_set (m : jsmap entry) (k : text) (e : entry) :
  catalog_ok m = true -> slug e = k -> catalog_ok (map_set k e m) = true.
Proof.
  induction m as [|[k' v] m IH]; intros Hm He.
  - cbn. rewrite He, text_eqb_refl. reflexivity.
  - cbn [catalog_ok forallb fst snd] in Hm. apply andb_true_iff in Hm as [Hv Hm].
    cbn [map_set]. destruct (text_eqb k k') eqn:E.
    + apply text_eqb_true in E. subst k'. cbn [catalog_ok forallb fst snd].
      rewrite He, text_eqb_refl. exact Hm.
    + cbn [catalog_ok forallb fst snd]. rewrite Hv. apply IH; assumption.
Qed.

Lemma catalog_add_row (m : jsmap entry) (r : row) :
  catalog_ok m = true -> catalog_ok (add_row m r) = true.
Proof.
  intros Hm. unfold add_row.
  destruct (toLowerCase (trim (trim_slug r))) as [|c t]; [exact Hm|].
  apply catalog_set; [exact Hm | reflexivity].
Qed.

Lemma catalog_fold (rows : list row) (m : jsmap entry) :
  catalog_ok m = true -> catalog_ok (fold_left add_row rows m) = true.
Proof.
  revert m; induction rows as [|r rows IH]; intros m Hm; [exact Hm|].
  cbn [fold_left]. apply IH, catalog_add_row, Hm.
Qed.

Lemma map_get_nil_set (k : text) (e : entry) (m : jsmap entry) :
  k <> [] -> map_get [] m = None -> map_get [] (map_set k e m) = None.
Proof.
  intros Hk. induction m as [|[k' v] m IH]; intros Hm.
  - cbn. destruct k; [contradiction | reflexivity].
  - cbn [map_get] in Hm. cbn [map_set].
    destruct (text_eqb k k') eqn:E.
    + apply text_eqb_true in E; subst k'. cbn [map_get].
      destruct k; [contradiction|]. exact Hm.
    + cbn [map_get]. destruct (text_eqb [] k'); [discriminate|]. apply IH, Hm.
Qed.

(** The catalog built from the rows has no empty key: [add_row] skips rows
    whose trimmed slug is empty. *)
Lemma build_catalog_no_empty_key (rows : list row) : map_get [] (build_catalog rows) = None.
Proof.
  unfold build_catalog.
  assert (Hm : map_get [] ([] : jsmap entry) = None) by reflexivity.
  revert Hm. generalize ([] : jsmap entry) as m.
  induction rows as [|r rows IH]; intros m Hm; [exact Hm|].
  cbn [fold_left]. apply IH. unfold add_row.
  destruct (toLowerCase (trim (trim_slug r))) as [|c t]; [exact Hm|].
  apply map_get_nil_set; [discriminate | exact Hm].
Qed.

Lemma loadOpeningsDb_ok (env : store) (now : Z) (st : cache_state) :
  cache_ok st = true ->
  let '(db, st', _) := loadOpeningsDb env now st in
  catalog_ok db = true /\ cache_ok st' = true.
Proof.
  intros Hst. unfold loadOpeningsDb, cache_hit.
  destruct (openingsCache st) as [c|] eqn:Ec.
  - destruct (lastCacheTime st) as [t|].
    + destruct (negb (t =? 0)%Z && (now - t <? CACHE_DURATION_MS)%Z).
      * unfold cache_ok in Hst; rewrite Ec in Hst. split; [exact Hst|].
        unfold cache_ok; rewrite Ec; exact Hst.
      * unfold read_store. destruct (negb (db_exists env)); [split; reflexivity|].
        destruct (negb (db_opens env)); [split; reflexivity|].
        destruct (db_rows env) as [rows|]; [|split; reflexivity].
        unfold cache_ok; cbn [openingsCache].
        unfold build_catalog; rewrite (catalog_fold rows []) by reflexivity. split; reflexivity.
    + unfold read_store. destruct (negb (db_exists env)); [split; reflexivity|].
      destruct (negb (db_opens env)); [split; reflexivity|].
      destruct (db_rows env) as [rows|]; [|split; reflexivity].
      unfold cache_ok; cbn [openingsCache].
      unfold build_catalog; rewrite (catalog_fold rows []) by reflexivity. split; reflexivity.
  - unfold read_store. destruct (negb (db_exists env)); [split; reflexivity|].
    destruct (negb (db_opens env)); [split; reflexivity|].
    destruct (db_rows env) as [rows|]; [|split; reflexivity].
    unfold cache_ok; cbn [openingsCache].
    unfold build_catalog; rewrite (catalog_fold rows []) by reflexivity. split; reflexivity.
Qed.

Lemma lookupOpening_slug (db : jsmap entry) (k : text) (e : entry) :
  catalog_ok db = true -> lookupOpening db k = Some e ->
  slug e = k \/ slug e = nth 0 (split (txt "-with-") k) [].
Proof.
  intros Hdb. unfold lookupOpening.
  destruct (map_has k db); [intros H; left; exact (catalog_get _ _ _ Hdb H)|].
  destruct (_ && _); [|discriminate].
  intros H; right; exact (catalog_get _ _ _ Hdb H).
Qed.

(** Starting from a cache whose entries are all stored under their own slug
    (the initial empty cache, or any cache [loadOpeningsDb] fills), the
    [openingSlug] that [getOpeningDataForGame] reports is the base slug of
    the URL or its part before [-with-] (the key [lookupOpening] falls back
    to), and the cache it leaves keeps that property. *)
Theorem getOpeningDataForGame_slug (env : store) (now : Z) (st : cache_state) (ecoUrl : text) :
  cache_ok st = true ->
  let base := baseSlug (splitEcoUrl ecoUrl) in
  let '(o, st', _) := getOpeningDataForGame env now st ecoUrl in
  (openingSlug o = base \/ openingSlug o = nth 0 (split (txt "-with-") base) []) /\
  cache_ok st' = true.
Proof.
  intros Hst. cbv zeta. unfold getOpeningDataForGame.
  destruct ecoUrl as [|c u] eqn:Eu.
  - split; [left; reflexivity | exact Hst].
  - rewrite <- Eu. destruct (baseSlug (splitEcoUrl ecoUrl)) as [|b bs] eqn:Eb.
    + split; [left; reflexivity | exact Hst].
    + rewrite <- Eb. pose proof (loadOpeningsDb_ok env now st Hst) as Hl.
      destruct (loadOpeningsDb env now st) as [[db st'] ev].
      destruct Hl as [Hdb Hst'].
      destruct (lookupOpening db (baseSlug (splitEcoUrl ecoUrl))) as [e|] eqn:Ee.
      * split; [|exact Hst']. cbn [openingSlug]. exact (lookupOpening_slug _ _ _ Hdb Ee).
      * split; [left; reflexivity | exact Hst'].
Qed.

(** An [ecoUrl] that does not contain [chess.com/openings/] gives the empty
    opening record without loading the catalog: the cache is left as it is
    and the store is not touched. *)
Theorem getOpeningDataForGame_not_opening_url (env : store) (now : Z) (st : cache_state)
    (ecoUrl : text) :
  includes (txt "chess.com/openings/") ecoUrl = false ->
  getOpeningDataForGame env now st ecoUrl = (empty_opening, st, []).
Proof.
  intros H. unfold getOpeningDataForGame.
  destruct ecoUrl as [|c u]; [reflexivity|].
  unfold splitEcoUrl. rewrite H. reflexivity.
Qed.

End OpeningFacts.

(** ** The opening lookup of [insertGame] *)

Section InsertGameOpening.

(** [insertGame] looks the opening up with
    [getOpeningDataForGame(extractECOFromPGN(game.pgn) || '')]: for a PGN
    text made of header lines (as read by [tag_re]), a blank line and a
    movetext without [[], with no [ECOUrl] tag, the opening record is the
    empty one, and neither the cache nor the store is touched. *)
Theorem insertGame_opening_without_ECOUrl (env : store) (now : Z) (st : cache_state)
    (tags : list (text * text)) (body : text) :
  forallb tag_ok tags = true -> forallb (fun nv => no_bracket (snd nv)) tags = true ->
  no_bracket body = true -> ~ In (txt "ECOUrl") (map fst tags) ->
  getOpeningDataForGame env now st
    (or_else (Some (extractECOFromPGN (headers_text tags ++ nl :: body))) []) =
  (empty_opening, st, []).
Proof.
  intros Ht Hv Hb Hn. unfold extractECOFromPGN, tag_value.
  rewrite match_nonempty by (destruct (headers_text tags); discriminate).
  rewrite (search_missing (txt "ECOUrl") tags body eq_refl Ht Hv Hb Hn). reflexivity.
Qed.

End InsertGameOpening.

Section RatingsFacts.

(** The value last recorded for [f] in a history of [(format, rating)]
    records, [init] when there is none. *)
Definition hist_get (f : text) (h : list (text * jsval)) (init : jsval) : jsval :=
  fold_left (fun acc kv => if text_eqb f (fst kv) then snd kv else acc) h init.

(** The records [loadFromDatabase] keeps: rows with a non-empty format and a
    truthy rating. *)
Definition rows_hist (rows : list rating_row) : list (text * jsval) :=
  flat_map (fun r => match or_else (row_format r) [] with
                     | [] => []
                     | f => if truthy (my_rating r) then [(f, my_rating r)] else []
                     end) rows.

(** The records [calculateRating] keeps: games with a non-null rating. *)
Definition games_hist (gs : list (text * jsval)) : list (text * jsval) :=
  filter (fun g => negb (is_null (snd g))) gs.

(** A rating whose magnitude is at most [2^52] (or no number at all): the
    difference of two of them is at most [2^53] in magnitude, so [js_sub]
    gives the number JavaScript computes. *)
Definition safe_num (v : jsval) : bool :=
  match v with JNum z => (Z.abs z <=? 2 ^ 52)%Z | _ => true end.

(** The tracker after the calls of [rate_games]. *)
Definition run_tracker (t : tracker) (gs : list (text * jsval)) : tracker :=
  fold_left (fun t g => snd (calculateRating t (fst g) (snd g))) gs t.

Lemma map_get_set_any {V} (n k : text) (v : V) (m : jsmap V) :
  map_get n (map_set k v m) = if text_eqb n k then Some v else map_get n m.
Proof.
  induction m as [|[k' v'] m IH]; simpl.
  - reflexivity.
  - destruct (text_eqb k k') eqn:E1.
    + apply text_eqb_true in E1; subst k'. simpl. destruct (text_eqb n k); reflexivity.
    + simpl. rewrite IH. destruct (text_eqb n k') eqn:E2, (text_eqb n k) eqn:E3; try reflexivity.
      apply text_eqb_true in E2, E3; subst. rewrite text_eqb_refl in E1. discriminate.
Qed.

Lemma obj_get_put (f k : text) (v : jsval) (o : jsmap jsval) :
  ~ In f proto_names -> obj_get f (obj_put k v o) = if text_eqb f k then v else obj_get f o.
Proof.
  intros Hf. unfold obj_put. destruct (text_eqb k (txt "__proto__")) eqn:Ek.
  - apply text_eqb_true in Ek; subst k. rewrite text_eqb_false; [reflexivity|].
    intros ->. apply Hf. cbn. tauto.
  - unfold obj_get. rewrite map_get_set_any. destruct (text_eqb f k); reflexivity.
Qed.

Lemma obj_get_empty (f : text) : ~ In f proto_names -> obj_get f [] = JUndef.
Proof.
  intros Hf. unfold obj_get. cbn [map_get].
  destruct (mem_text f proto_names) eqn:E; [|reflexivity].
  apply mem_text_true in E. contradiction.
Qed.

Lemma last_ratings_fold (f : text) (rows : list rating_row) (o : jsmap jsval) :
  ~ In f proto_names ->
  obj_get f (fold_left (fun o r =>
               match or_else (row_format r) [] with
               | [] => o
               | f => if truthy (my_rating r) then obj_put f (my_rating r) o else o
               end) rows o) = hist_get f (rows_hist rows) (obj_get f o).
Proof.
  intros Hf. revert o; induction rows as [|r rows IH]; intros o; [reflexivity|].
  cbn [fold_left]. rewrite IH. unfold rows_hist, hist_get. cbn [flat_map].
  rewrite fold_left_app. f_equal.
  destruct (or_else (row_format r) []) as [|c t]; [reflexivity|].
  destruct (truthy (my_rating r)); [|reflexivity].
  cbn [fold_left fst snd]. apply obj_get_put, Hf.
Qed.

Lemma run_tracker_get (f : text) (gs : list (text * jsval)) (t : tracker) :
  ~ In f proto_names ->
  obj_get f (ledger (run_tracker t gs)) = hist_get f (games_hist gs) (obj_get f (ledger t)).
Proof.
  intros Hf. revert t; induction gs as [|[k v] gs IH]; intros t; [reflexivity|].
  unfold run_tracker; cbn [fold_left fst snd]. fold (run_tracker (snd (calculateRating t k v)) gs).
  rewrite IH. unfold games_hist, hist_get. cbn [filter snd fst].
  unfold calculateRating; cbn [snd].
  destruct (is_null v); cbn [negb]; [reflexivity|].
  cbn [fold_left fst snd ledger]. rewrite obj_get_put by exact Hf. reflexivity.
Qed.

Lemma rate_games_nth (t : tracker) (pre post : list (text * jsval)) (f : text) (r : jsval) :
  nth_error (rate_games t (pre ++ (f, r) :: post)) (length pre) =
  Some (fst (calculateRating (run_tracker t pre) f r)).
Proof.
  revert t; induction pre as [|[k v] pre IH]; intros t.
  - cbn [app length rate_games]. unfold run_tracker; cbn [fold_left].
    destruct (calculateRating t f r); reflexivity.
  - cbn [app length rate_games]. unfold run_tracker; cbn [fold_left fst snd].
    fold (run_tracker (snd (calculateRating t k v)) pre).
    destruct (calculateRating t k v) as [c t'] eqn:E. cbn [nth_error snd]. apply IH.
Qed.

(** After [loadFromDatabase] on a fresh tracker with the history rows
    [rows], the [before] that [calculateRating] reports for a game of format
    [f] (not a property name of [Object.prototype]) is the last rating
    recorded for [f], from the rows with a non-empty format and a truthy
    rating and then from the earlier games with a non-null rating, when that
    rating is truthy, and [null] otherwise; [delta] is the current rating
    minus [before] when neither is [null], and [null] otherwise. The ratings
    involved are at most [2^52] in magnitude, so that the subtraction is
    exact in JavaScript too. *)
Theorem rate_games_before (rows : list rating_row) (pre post : list (text * jsval))
    (f : text) (r : jsval) :
  ~ In f proto_names ->
  forallb (fun row => safe_num (my_rating row)) rows = true ->
  forallb (fun g => safe_num (snd g)) pre = true -> safe_num r = true ->
  let last := hist_get f (rows_hist rows ++ games_hist pre) JUndef in
  let b := if truthy last then last else JNull in
  nth_error (rate_games (loadFromDatabase new_tracker (Some rows)) (pre ++ (f, r) :: post))
    (length pre) =
  Some {| before := b; delta := if negb (is_null b) && negb (is_null r) then js_sub r b else JNull |}.
Proof.
  intros Hf _ _ _. cbv zeta. rewrite rate_games_nth.
  assert (E : obj_get f (ledger (run_tracker (loadFromDatabase new_tracker (Some rows)) pre)) =
              hist_get f (rows_hist rows ++ games_hist pre) JUndef).
  { rewrite run_tracker_get by exact Hf. cbn [loadFromDatabase new_tracker loaded ledger].
    unfold last_ratings. rewrite last_ratings_fold, obj_get_empty by exact Hf.
    unfold hist_get. rewrite fold_left_app. reflexivity. }
  unfold calculateRating; cbn [fst]. rewrite E. reflexivity.
Qed.

End RatingsFacts.

Section StreakFacts.

Context {G : Type} (outcome : G -> option text).

Definition kind_text (k : streak_type) : text :=
  match k with StreakWin => txt "win" | StreakLoss => txt "loss" end.

Definition is_kind (k : streak_type) (g : G) : bool := result_is (outcome g) (kind_text k).

Definition longest (k : streak_type) (st : streak_state) : list G :=
  match k with StreakWin => longestWinStreak st | StreakLoss => longestLossStreak st end.

(** The longest streak of kind [k] once the current one is saved. *)
Definition best (k : streak_type) (st : streak_state) : list G :=
  if type_is (currentType st) k && (length (longest k st) <? length (currentStreak st))
  then currentStreak st else longest k st.

(** The longest run of games of kind [k] that ends the list. *)
Definition ksuffix (k : streak_type) (p : list G) : list G :=
  fold_left (fun acc g => if is_kind k g then acc ++ [g] else []) p [].

Definition infix (u p : list G) : Prop := exists a b, p = a ++ u ++ b.

Definition gsuffix (u p : list G) : Prop := exists a, p = a ++ u.

Lemma save_streak_best (st : streak_state) : save_streak st = (best StreakWin st, best StreakLoss st).
Proof.
  unfold save_streak, best, longest. destruct (currentType st) as [[|]|]; cbn [type_is andb].
  - destruct (_ <? _); reflexivity.
  - destruct (length (longestLossStreak st) <? length (currentStreak st)); reflexivity.
  - reflexivity.
Qed.

Lemma kinds_exclusive (g : G) : is_kind StreakWin g = true -> is_kind StreakLoss g = false.
Proof.
  unfold is_kind, result_is. destruct (outcome g) as [t|]; [|discriminate].
  intros H. apply text_eqb_true in H. subst t. reflexivity.
Qed.

Lemma ksuffix_snoc (k : streak_type) (p : list G) (g : G) :
  ksuffix k (p ++ [g]) = if is_kind k g then ksuffix k p ++ [g] else [].
Proof. unfold ksuffix. rewrite fold_left_app. reflexivity. Qed.

Lemma ksuffix_spec (k : streak_type) (p : list G) :
  gsuffix (ksuffix k p) p /\ forallb (is_kind k) (ksuffix k p) = true.
Proof.
  induction p as [|g p IH] using rev_ind; [split; [exists []; reflexivity | reflexivity]|].
  rewrite ksuffix_snoc. destruct IH as [[a Ha] Hall]. destruct (is_kind k g) eqn:Eg.
  - split; [exists a; rewrite app_assoc, <- Ha; reflexivity|].
    rewrite forallb_app, Hall; cbn. rewrite Eg. reflexivity.
  - split; [exists (p ++ [g]); rewrite app_nil_r; reflexivity | reflexivity].
Qed.

Lemma snoc_cases (u : list G) : u = [] \/ exists u' x, u = u' ++ [x].
Proof. induction u as [|x u _] using rev_ind; [left; reflexivity | right; eauto]. Qed.

Lemma gsuffix_snoc (u p : list G) (g : G) :
  gsuffix u (p ++ [g]) -> u = [] \/ exists u', u = u' ++ [g] /\ gsuffix u' p.
Proof.
  intros [a Ha]. destruct (snoc_cases u) as [->|(u' & x & ->)]; [left; reflexivity|].
  right. rewrite app_assoc in Ha. apply app_inj_tail in Ha as [Ha ->].
  exists u'. split; [reflexivity | exists a; exact Ha].
Qed.

Lemma infix_snoc (u p : list G) (g : G) :
  infix u (p ++ [g]) -> infix u p \/ exists u', u = u' ++ [g] /\ gsuffix u' p.
Proof.
  intros (a & b & H). destruct (snoc_cases b) as [->|(b' & x & ->)].
  - rewrite app_nil_r in H. destruct (gsuffix_snoc u p g (ex_intro _ a H)) as [->|Hs].
    + left. exists [], p. reflexivity.
    + right. exact Hs.
  - left. rewrite !app_assoc in H. apply app_inj_tail in H as [H _].
    exists a, b'. rewrite H, !app_assoc. reflexivity.
Qed.

Lemma infix_app (u p q : list G) : infix u p -> infix u (p ++ q).
Proof. intros (a & b & ->). exists a, (b ++ q). rewrite <- !app_assoc. reflexivity. Qed.

Lemma ksuffix_max (k : streak_type) (u p : list G) :
  gsuffix u p -> forallb (is_kind k) u = true -> length u <= length (ksuffix k p).
Proof.
  revert u; induction p as [|g p IH] using rev_ind; intros u Hs Hu.
  - destruct Hs as [a Ha]. destruct a, u; try discriminate; cbn; lia.
  - rewrite ksuffix_snoc. destruct (gsuffix_snoc u p g Hs) as [->|(u' & -> & Hs')]; [cbn; lia|].
    rewrite forallb_app in Hu. apply andb_true_iff in Hu as [Hu' Hg]. cbn in Hg.
    rewrite andb_true_r in Hg. rewrite Hg, !length_app. cbn. specialize (IH u' Hs' Hu'). lia.
Qed.

Lemma forallb_infix (k : streak_type) (u p : list G) :
  infix u p -> forallb (is_kind k) p = true -> forallb (is_kind k) u = true.
Proof.
  intros (a & b & ->) H. rewrite !forallb_app in H.
  apply andb_true_iff in H as [_ H]; apply andb_true_iff in H as [H _]; exact H.
Qed.

(** What the scan keeps about the games [p] seen so far, for one kind. *)
Definition streak_inv (k : streak_type) (p : list G) (st : streak_state) : Prop :=
  (type_is (currentType st) k = true -> currentStreak st = ksuffix k p) /\
  (type_is (currentType st) k = false -> ksuffix k p = []) /\
  infix (longest k st) p /\ forallb (is_kind k) (longest k st) = true /\
  (forall u, infix u p -> forallb (is_kind k) u = true ->
             length u <= Nat.max (length (longest k st)) (length (ksuffix k p))).

Lemma best_spec (k : streak_type) (p : list G) (st : streak_state) :
  streak_inv k p st ->
  infix (best k st) p /\ forallb (is_kind k) (best k st) = true /\
  length (best k st) = Nat.max (length (longest k st)) (length (ksuffix k p)).
Proof.
  intros (HA & HB & HC & HC' & _). unfold best.
  destruct (type_is (currentType st) k) eqn:Et; cbn [andb].
  - rewrite (HA eq_refl). destruct (ksuffix_spec k p) as [[a Ha] Hall].
    destruct (length (longest k st) <? length (ksuffix k p)) eqn:El.
    + apply Nat.ltb_lt in El. split; [exists a, []; rewrite app_nil_r; exact Ha|].
      split; [exact Hall | lia].
    + apply Nat.ltb_ge in El. split; [exact HC|]. split; [exact HC' | lia].
  - rewrite (HB eq_refl). cbn [length]. split; [exact HC|]. split; [exact HC' | lia].
Qed.

Lemma streak_inv_init (k : streak_type) : streak_inv k [] streak_init.
Proof.
  split; [destruct k; discriminate|]. split; [reflexivity|].
  split; [exists [], []; destruct k; reflexivity|]. split; [destruct k; reflexivity|].
  intros u (a & b & H) _. symmetry in H. apply app_eq_nil in H as [_ H].
  apply app_eq_nil in H as [-> _]. cbn; lia.
Qed.

(** A game not of kind [k] ends every run of kind [k]. *)
Lemma streak_inv_break (k : streak_type) (p : list G) (st st' : streak_state) (g : G) :
  streak_inv k p st -> is_kind k g = false -> type_is (currentType st') k = false ->
  longest k st' = best k st -> streak_inv k (p ++ [g]) st'.
Proof.
  intros Hi Hg Ht' Hl. destruct (best_spec k p st Hi) as (Hb1 & Hb2 & Hb3).
  destruct Hi as (_ & _ & _ & _ & HD).
  assert (Hs : ksuffix k (p ++ [g]) = []) by (rewrite ksuffix_snoc, Hg; reflexivity).
  split; [rewrite Ht'; discriminate|]. split; [intros _; exact Hs|].
  rewrite Hl, Hs. split; [apply infix_app, Hb1|]. split; [exact Hb2|].
  intros u Hu Hall. destruct (infix_snoc u p g Hu) as [Hu'|(u' & -> & _)].
  - specialize (HD u Hu' Hall). cbn [length]. lia.
  - rewrite forallb_app in Hall. cbn in Hall. rewrite Hg in Hall.
    rewrite andb_false_r in Hall. discriminate.
Qed.

(** A game of kind [k] extends the current run, or starts one. *)
Lemma streak_inv_extend (k : streak_type) (p : list G) (st st' : streak_state) (g : G) :
  streak_inv k p st -> is_kind k g = true -> type_is (currentType st') k = true ->
  longest k st' = longest k st ->
  currentStreak st' = (if type_is (currentType st) k then currentStreak st ++ [g] else [g]) ->
  streak_inv k (p ++ [g]) st'.
Proof.
  intros (HA & HB & HC & HC' & HD) Hg Ht' Hl Hc.
  assert (Hs : currentStreak st' = ksuffix k (p ++ [g])).
  { rewrite ksuffix_snoc, Hg, Hc. destruct (type_is (currentType st) k) eqn:Et.
    - rewrite (HA eq_refl). reflexivity.
    - rewrite (HB eq_refl). reflexivity. }
  split; [intros _; exact Hs|]. split; [rewrite Ht'; discriminate|].
  rewrite Hl. split; [apply infix_app, HC|]. split; [exact HC'|].
  intros u Hu Hall. rewrite ksuffix_snoc, Hg, length_app. cbn [length].
  destruct (infix_snoc u p g Hu) as [Hu'|(u' & -> & Hs')].
  - specialize (HD u Hu' Hall). lia.
  - rewrite forallb_app in Hall. apply andb_true_iff in Hall as [Hall _].
    pose proof (ksuffix_max k u' p Hs' Hall). rewrite length_app. cbn [length]. lia.
Qed.

Lemma streak_inv_step (k : streak_type) (p : list G) (st : streak_state) (g : G) :
  streak_inv k p st -> streak_inv k (p ++ [g]) (streak_step outcome st g).
Proof.
  intros Hi. unfold streak_step.
  destruct (result_is (outcome g) (txt "win")) eqn:Ew.
  - assert (Hw : is_kind StreakWin g = true) by exact Ew.
    pose proof (kinds_exclusive g Hw) as Hl.
    destruct (type_is (currentType st) StreakWin) eqn:Et.
    + destruct k.
      * apply (streak_inv_extend _ p st); try assumption; try reflexivity. rewrite Et. reflexivity.
      * apply (streak_inv_break _ p st); try assumption.
        -- cbn [currentType]. destruct (currentType st) as [[|]|]; [reflexivity|discriminate..].
        -- unfold best. destruct (currentType st) as [[|]|]; [reflexivity|discriminate..].
    + destruct k.
      * apply (streak_inv_extend _ p st); try assumption; try reflexivity. rewrite Et. reflexivity.
      * apply (streak_inv_break _ p st); try assumption; reflexivity.
  - destruct (result_is (outcome g) (txt "loss")) eqn:El.
    + assert (Hl : is_kind StreakLoss g = true) by exact El.
      assert (Hw : is_kind StreakWin g = false) by exact Ew.
      destruct (type_is (currentType st) StreakLoss) eqn:Et.
      * destruct k.
        -- apply (streak_inv_break _ p st); try assumption.
           ++ cbn [currentType]. destruct (currentType st) as [[|]|]; [discriminate|reflexivity|discriminate].
           ++ unfold best. destruct (currentType st) as [[|]|]; [discriminate|reflexivity|discriminate].
        -- apply (streak_inv_extend _ p st); try assumption; try reflexivity. rewrite Et. reflexivity.
      * destruct k.
        -- apply (streak_inv_break _ p st); try assumption; reflexivity.
        -- apply (streak_inv_extend _ p st); try assumption; try reflexivity. rewrite Et. reflexivity.
    + rewrite save_streak_best. destruct k.
      * apply (streak_inv_break _ p st); try assumption; reflexivity.
      * apply (streak_inv_break _ p st); try assumption; reflexivity.
Qed.

Lemma streak_inv_scan (k : streak_type) (rows : list G) :
  streak_inv k rows (fold_left (streak_step outcome) rows streak_init).
Proof.
  induction rows as [|g rows IH] using rev_ind; [apply streak_inv_init|].
  rewrite fold_left_app. cbn [fold_left]. apply streak_inv_step, IH.
Qed.

(** [findStreaks] returns, for wins and for losses, a run of consecutive
    games of that outcome taken from the rows in order, and no run of
    consecutive games of that outcome in the rows is longer. *)
Theorem findStreaks_longest (rows : list G) :
  let '(w, l) := findStreaks outcome rows in
  (infix w rows /\ forallb (is_kind StreakWin) w = true /\
   forall u, infix u rows -> forallb (is_kind StreakWin) u = true -> length u <= length w) /\
  (infix l rows /\ forallb (is_kind StreakLoss) l = true /\
   forall u, infix u rows -> forallb (is_kind StreakLoss) u = true -> length u <= length l).
Proof.
  unfold findStreaks. rewrite save_streak_best.
  split.
  - pose proof (streak_inv_scan StreakWin rows) as Hi.
    destruct (best_spec _ _ _ Hi) as (H1 & H2 & H3). split; [exact H1|]. split; [exact H2|].
    intros u Hu Hall. destruct Hi as (_ & _ & _ & _ & HD). rewrite H3. exact (HD u Hu Hall).
  - pose proof (streak_inv_scan StreakLoss rows) as Hi.
    destruct (best_spec _ _ _ Hi) as (H1 & H2 & H3). split; [exact H1|]. split; [exact H2|].
    intros u Hu Hall. destruct Hi as (_ & _ & _ & _ & HD). rewrite H3. exact (HD u Hu Hall).
Qed.

End StreakFacts.

Section DateFacts.

Definition date_text (y m d : text) : text := y ++ "."%char :: m ++ "."%char :: d.

Definition time_text (h mi s : text) : text := h ++ ":"%char :: mi ++ ":"%char :: s.

(** A non-empty run of at most four digits' worth of value. *)
Definition small_number (u : text) : bool :=
  nonempty u && forallb is_digit u && (digits_value u <=? 9999)%Z.

Definition clock_seconds (h mi s : text) : Z :=
  (digits_value h * 3600 + digits_value mi * 60 + digits_value s)%Z.

Lemma digits_value_nonneg (u : text) : (0 <= digits_value u)%Z.
Proof.
  unfold digits_value.
  assert (H : forall acc, (0 <= acc)%Z ->
            (0 <= fold_left (fun acc c => 10 * acc + Z.of_nat (code c - 48)) u acc)%Z).
  { induction u as [|c u IH]; intros acc Hacc; [exact Hacc|]. cbn [fold_left]. apply IH. lia. }
  apply H. lia.
Qed.

Lemma parseInt_all_digits (ds : text) :
  ds <> [] -> forallb is_digit ds = true -> parseInt ds = Some (digits_value ds).
Proof.
  intros Hne Hd. pose proof (parseInt_digits ds [] Hne Hd eq_refl) as H.
  rewrite app_nil_r in H. exact H.
Qed.

Lemma split3 (x : ascii) (a b c : text) :
  is_digit x = false -> forallb is_digit a = true -> forallb is_digit b = true ->
  forallb is_digit c = true -> split [x] (a ++ x :: b ++ x :: c) = [a; b; c].
Proof.
  intros Hx Ha Hb Hc. unfold split.
  rewrite split_go_char by (apply digits_no_char; assumption).
  rewrite split_go_char by (apply digits_no_char; assumption).
  rewrite split_go_char_end by (apply digits_no_char; assumption). reflexivity.
Qed.

Lemma small_number_spec (u : text) :
  small_number u = true ->
  u <> [] /\ forallb is_digit u = true /\ (0 <= digits_value u <= 9999)%Z.
Proof.
  unfold small_number. intros H. apply andb_true_iff in H as [H H3].
  apply andb_true_iff in H as [H1 H2]. apply Z.leb_le in H3.
  pose proof (digits_value_nonneg u).
  split; [destruct u; discriminate|]. split; [exact H2 | lia].
Qed.

Lemma parseUTCDateTime_digits (y m d h mi s : text) :
  forallb small_number [y; m; d; h; mi; s] = true ->
  parseUTCDateTime (date_text y m d) (time_text h mi s) =
  Some (date_utc (Some (digits_value y)) (Some (digits_value m - 1)%Z) (Some (digits_value d))
                 (Some (digits_value h)) (Some (digits_value mi)) (Some (digits_value s))).
Proof.
  cbn [forallb]. intros H.
  repeat match type of H with
         | _ && _ = true => apply andb_true_iff in H as [?H H]
         end.
  repeat match goal with
         | Hs : small_number _ = true |- _ => apply small_number_spec in Hs as (? & ? & ?)
         end.
  unfold parseUTCDateTime, date_text, time_text.
  change (txt ".") with ["."%char]. change (txt ":") with [":"%char].
  rewrite !split3 by (reflexivity || assumption). cbn [length Nat.eqb andb map].
  rewrite !parseInt_all_digits by assumption. reflexivity.
Qed.

Lemma days_from_civil_bound (y m : Z) :
  (-1 <= y <= 20000)%Z -> (1 <= m <= 12)%Z ->
  (-1000000 <= days_from_civil y m 1 <= 10000000)%Z.
Proof.
  intros Hy Hm. unfold days_from_civil.
  destruct (m <=? 2)%Z; Z.div_mod_to_equations; lia.
Qed.

Lemma date_utc_value (y mo d h mi s : Z) :
  (0 <= y <= 9999)%Z -> (-1 <= mo <= 9999)%Z -> (0 <= d <= 9999)%Z ->
  (0 <= h <= 9999)%Z -> (0 <= mi <= 9999)%Z -> (0 <= s <= 9999)%Z ->
  date_utc (Some y) (Some mo) (Some d) (Some h) (Some mi) (Some s) =
  Some (make_day (if (0 <=? y)%Z && (y <=? 99)%Z then 1900 + y else y)%Z mo d * 86400000
        + (h * 3600000 + mi * 60000 + s * 1000))%Z.
Proof.
  intros Hy Hmo Hd Hh Hmi Hs. unfold date_utc, time_clip.
  set (yr := if (0 <=? y)%Z && (y <=? 99)%Z then (1900 + y)%Z else y).
  assert (Hyr : (0 <= yr <= 9999)%Z)
    by (unfold yr; destruct (0 <=? y)%Z eqn:E1, (y <=? 99)%Z eqn:E2; cbn [andb];
        try apply Z.leb_le in E1; try apply Z.leb_le in E2; lia).
  assert (Hmd : (-2000000 <= make_day yr mo d <= 20000000)%Z).
  { unfold make_day.
    assert (Hq : (-1 <= mo / 12 <= 833)%Z) by (Z.div_mod_to_equations; lia).
    assert (Hr : (0 <= mo mod 12 < 12)%Z) by (apply Z.mod_pos_bound; lia).
    pose proof (days_from_civil_bound (yr + mo / 12) (mo mod 12 + 1) ltac:(lia) ltac:(lia)). lia. }
  replace (Z.abs _ <=? 8640000000000000)%Z with true; [reflexivity|].
  symmetry. apply Z.leb_le. apply Z.abs_le. lia.
Qed.

Lemma make_day_shift (y mo d1 d2 : Z) : (make_day y mo d2 - make_day y mo d1 = d2 - d1)%Z.
Proof. unfold make_day. lia. Qed.

(** For a PGN text made of header lines (as read by [tag_re]), a blank line
    and a movetext without [[], whose first [UTCDate] and [EndDate] tags
    are dates [Y.M.D1] and [Y.M.D2] of the same month and whose first
    [UTCTime] and [EndTime] tags are times [H1:MI1:S1] and [H2:MI2:S2] (all
    parts runs of digits worth at most 9999), [extractDurationFromPGN]
    returns the number of seconds from the start to the end:
    [(D2 - D1) * 86400] plus the difference of the clock times. *)
Theorem extractDurationFromPGN_same_month (tags : list (text * text)) (body : text)
    (y m d1 d2 h1 mi1 s1 h2 mi2 s2 : text) :
  forallb tag_ok tags = true -> forallb (fun nv => no_bracket (snd nv)) tags = true ->
  no_bracket body = true ->
  forallb small_number [y; m; d1; d2; h1; mi1; s1; h2; mi2; s2] = true ->
  first_value (txt "UTCDate") tags = date_text y m d1 ->
  first_value (txt "UTCTime") tags = time_text h1 mi1 s1 ->
  first_value (txt "EndDate") tags = date_text y m d2 ->
  first_value (txt "EndTime") tags = time_text h2 mi2 s2 ->
  extractDurationFromPGN (headers_text tags ++ nl :: body) =
  Some (Some ((digits_value d2 - digits_value d1) * 86400
              + clock_seconds h2 mi2 s2 - clock_seconds h1 mi1 s1)%Z).
Proof.
  intros Ht Hv Hb Hn E1 E2 E3 E4.
  assert (Hne : forall a b c, date_text a b c <> [] /\ time_text a b c <> [])
    by (intros a b c; unfold date_text, time_text; split; intros H;
        apply app_eq_nil in H as [_ H]; discriminate).
  destruct (search_first_value (txt "UTCDate") tags body eq_refl Ht Hv Hb)
    as (j1 & r1 & S1); [rewrite E1; apply Hne|].
  destruct (search_first_value (txt "UTCTime") tags body eq_refl Ht Hv Hb)
    as (j2 & r2 & S2); [rewrite E2; apply Hne|].
  destruct (search_first_value (txt "EndDate") tags body eq_refl Ht Hv Hb)
    as (j3 & r3 & S3); [rewrite E3; apply Hne|].
  destruct (search_first_value (txt "EndTime") tags body eq_refl Ht Hv Hb)
    as (j4 & r4 & S4); [rewrite E4; apply Hne|].
  unfold extractDurationFromPGN.
  rewrite match_nonempty by (destruct (headers_text tags); discriminate).
  rewrite S1, S2, S3, S4, E1, E2, E3, E4.
  cbn [forallb] in Hn.
  repeat match type of Hn with
         | _ && _ = true => apply andb_true_iff in Hn as [?H Hn]
         end.
  rewrite !parseUTCDateTime_digits by (cbn [forallb]; rewrite !andb_true_iff; tauto).
  repeat match goal with
         | Hs : small_number _ = true |- _ => apply small_number_spec in Hs as (? & ? & ?)
         end.
  rewrite !date_utc_value by lia.
  f_equal. f_equal.
  set (yr := if (0 <=? digits_value y)%Z && (digits_value y <=? 99)%Z
             then (1900 + digits_value y)%Z else digits_value y).
  pose proof (make_day_shift yr (digits_value m - 1) (digits_value d1) (digits_value d2)).
  unfold clock_seconds.
  match goal with |- (?x / 1000 = _)%Z =>
    replace x with (((digits_value d2 - digits_value d1) * 86400
                     + (digits_value h2 * 3600 + digits_value mi2 * 60 + digits_value s2)
                     - (digits_value h1 * 3600 + digits_value mi1 * 60 + digits_value s1)) * 1000)%Z
      by lia end.
  apply Z.div_mul. lia.
Qed.

(** A PGN text of that form with no [UTCDate], [UTCTime], [EndDate] or no
    [EndTime] tag gives [null]. *)
Theorem extractDurationFromPGN_missing_tag (tags : list (text * text)) (body name : text) :
  forallb tag_ok tags = true -> forallb (fun nv => no_bracket (snd nv)) tags = true ->
  no_bracket body = true ->
  In name [txt "UTCDate"; txt "UTCTime"; txt "EndDate"; txt "EndTime"] ->
  ~ In name (map fst tags) ->
  extractDurationFromPGN (headers_text tags ++ nl :: body) = None.
Proof.
  intros Ht Hv Hb Hin Hn. unfold extractDurationFromPGN.
  rewrite match_nonempty by (destruct (headers_text tags); discriminate).
  destruct Hin as [<-|[<-|[<-|[<-|[]]]]];
    rewrite (fun Hw => search_missing _ tags body Hw Ht Hv Hb Hn) by reflexivity;
    repeat match goal with
           | |- context [match search ?p 0 ?s with _ => _ end] =>
               destruct (search p 0 s) as [[[? ?] ?]|]
           end; reflexivity.
Qed.

End DateFacts.

(** ** Witnesses *)

Section Witnesses.

(** A two-line text with a single quote standing for the double quote and
    [|] for a line feed. *)
Definition pgn_text (s : string) : text :=
  map (fun c => if Ascii.eqb c "'"%char then dq else if Ascii.eqb c "|"%char then nl else c)
      (txt s).

Lemma splitEcoUrl_with_clause_witness :
  includes (txt "chess.com/openings/") (txt "https://x/openings/a-with-4-nc3") = false /\
  splitEcoUrl (txt "https://x/openings/a-with-4-nc3") = {| baseSlug := []; extraMoves := [] |}.
Proof.
  split; [vm_compute; reflexivity|].
  apply (proj1 splitEcoUrl_with_clause). vm_compute. reflexivity.
Defined.

Definition italian_entry : entry :=
  {| fullName := txt "Italian Game"; slug := txt "italian-game"; family := txt "Italian Game";
     baseName := txt "Italian Game"; var1 := []; var2 := []; var3 := []; var4 := [];
     var5 := []; var6 := [] |}.

Lemma lookupOpening_fallback_catalog_witness :
  map_get [] [(txt "italian-game", italian_entry)] = None /\
  lookupOpening [(txt "italian-game", italian_entry)] (txt "italian-game-with-4-bc4")
  = Some italian_entry.
Proof.
  split; [reflexivity|].
  exact (proj2 (lookupOpening_fallback_catalog [(txt "italian-game", italian_entry)] eq_refl)
               eq_refl).
Defined.

Lemma parsePGN_no_move_section_witness :
  let t := pgn_text "[Event 'Live']|[Site 'Chess.com']|" in
  has_move_section t = false /\ moves (parsePGN t) = [] /\
  headers (parsePGN t) = [(txt "Event", txt "Live"); (txt "Site", txt "Chess.com")].
Proof.
  cbv zeta. split; [vm_compute; reflexivity|]. split.
  - apply (proj2 (parsePGN_no_move_section _)). vm_compute. reflexivity.
  - vm_compute. reflexivity.
Defined.

Lemma parsePGN_headerless_no_moves_witness :
  let t := pgn_text "1. e4 e5||2. Nf3 Nc6" in
  exec_all header_re 0 t = [] /\ moves (parsePGN t) = [].
Proof.
  cbv zeta. split; [vm_compute; reflexivity|].
  apply parsePGN_headerless_no_moves. vm_compute. reflexivity.
Defined.

Definition sample_row : row :=
  {| trim_slug := txt " Italian-Game "; full_name := txt "Italian Game";
     row_family := txt "Italian Game"; base_name := txt "Italian Game";
     variation_1 := []; variation_2 := []; variation_3 := []; variation_4 := [];
     variation_5 := []; variation_6 := [] |}.

Definition sample_store : store :=
  {| db_exists := true; db_opens := true; db_rows := Some [sample_row] |}.

Lemma loadOpeningsDb_cache_witness :
  let t0 := 1760000000000%Z in
  let '(m, st1, _) := loadOpeningsDb sample_store t0 initial_cache in
  loadOpeningsDb sample_store (t0 + 1000) st1 = (m, st1, []) /\
  map_has (txt "italian-game") m = true.
Proof.
  cbv zeta.
  pose proof (proj1 loadOpeningsDb_cache sample_store 1760000000000%Z initial_cache
                sample_store (1760000000000 + 1000)%Z) as H.
  destruct (loadOpeningsDb sample_store 1760000000000%Z initial_cache)
    as [[m st1] ev] eqn:E.
  split.
  - apply H; [lia | reflexivity | unfold CACHE_DURATION_MS; lia].
  - vm_compute in E. inversion E; subst. reflexivity.
Defined.

Lemma splitEcoUrl_formatExtraMoves_fused_witness :
  forallb slug_word_char (txt "Sicilian-Defense") = true /\
  (let r := splitEcoUrl (txt "https://www.chess.com/openings/" ++ txt "Sicilian-Defense" ++ fused_black) in
   baseSlug r = toLowerCase (txt "Sicilian-Defense") /\ extraMoves r = fused_black /\
   formatExtraMoves (extraMoves r) = txt "3...Nf6" /\
   formatExtraMoves (txt "-3...-Nf6") = txt "3... Nf6").
Proof.
  split; [reflexivity|].
  apply (splitEcoUrl_formatExtraMoves_fused (txt "Sicilian-Defense")). reflexivity.
Defined.

Lemma clock_entries_skip_checked_moves_witness :
  no_bracket (txt "2. Qh5") = true /\ check_sign "+"%char = true /\
  forallb is_digit (txt "0" ++ txt "09" ++ txt "50") = true /\
  clock_entries (txt "2. Qh5" ++ "+"%char :: txt " {[%clk " ++ txt "0" ++ txt ":" ++ txt "09" ++
                 txt ":" ++ txt "50" ++ txt "]}") = [].
Proof.
  split; [reflexivity|]. split; [reflexivity|]. split; [reflexivity|].
  apply (proj1 (proj2 clock_entries_skip_checked_moves)); reflexivity.
Defined.

Lemma parsePGN_headers_last_wins_witness :
  forallb tag_ok [(txt "Event", txt "A"); (txt "Site", txt "B"); (txt "Event", txt "C")] = true /\
  no_tag_open (txt "1. e4 {[%clk 0:02:59]} 1... e5 {[%clk 0:02:58]}") = true /\
  (let hs := headers (parsePGN (headers_text [(txt "Event", txt "A"); (txt "Site", txt "B");
                                              (txt "Event", txt "C")] ++
                                nl :: txt "1. e4 {[%clk 0:02:59]} 1... e5 {[%clk 0:02:58]}")) in
   length hs = distinct_names [(txt "Event", txt "A"); (txt "Site", txt "B"); (txt "Event", txt "C")] /\
   (forall n, map_get n hs =
      last_value n [(txt "Event", txt "A"); (txt "Site", txt "B"); (txt "Event", txt "C")])).
Proof.
  split; [reflexivity|]. split; [reflexivity|].
  apply parsePGN_headers_last_wins; reflexivity.
Defined.

Definition white_player : player := {| username := Some (txt "Alice"); result := Some (txt "win") |}.

Definition black_player : player := {| username := Some (txt "Bob"); result := Some (txt "resigned") |}.

Definition sample_game : game :=
  {| rules := None; time_class := None; time_control := Some (txt "10+5");
     white := Some white_player; black := Some black_player |}.

Lemma getGameFormat_estimate_witness : getGameFormat sample_game = txt "blitz".
Proof.
  rewrite (getGameFormat_estimate sample_game (txt "10") (txt "5") []).
  - vm_compute. reflexivity.
  - left; reflexivity.
  - apply mem_text_false. vm_compute. reflexivity.
  - reflexivity.
  - discriminate.
  - reflexivity.
  - discriminate.
  - reflexivity.
  - reflexivity.
Defined.

Lemma parseTimeControl_live_witness :
  parseTimeControl (Some (txt "10" ++ "+"%char :: txt "5")) (Some (txt "blitz")) =
  {| baseTime := Some 10%Z; increment := Some 5%Z; correspondenceTime := None |}.
Proof.
  exact (proj1 (parseTimeControl_live (txt "10") (txt "5") (txt "2") (Some (txt "blitz"))
                  ltac:(discriminate) ltac:(discriminate) eq_refl ltac:(discriminate)
                  eq_refl eq_refl ltac:(simpl; lia) ltac:(simpl; lia))).
Defined.

Lemma parseTimeControl_daily_witness :
  parseTimeControl (Some (txt "1" ++ "/"%char :: txt "259200")) (Some (txt "daily")) =
  {| baseTime := Some 0%Z; increment := Some 0%Z; correspondenceTime := Some 259200%Z |}.
Proof.
  exact (proj1 (parseTimeControl_daily (txt "1") (txt "259200") [] (Some (txt "daily"))
                  ltac:(discriminate) eq_refl ltac:(discriminate) eq_refl eq_refl
                  ltac:(simpl; lia) ltac:(simpl; lia))).
Defined.

Lemma outcome_players_agree_witness :
  getGameOutcome sample_game (txt "Alice") = Some (txt "win") /\
  getGameOutcome sample_game (txt "Bob") = Some (txt "loss") /\
  getGameTermination sample_game (txt "Alice") = Some (txt "resigned") /\
  getGameTermination sample_game (txt "Bob") = Some (txt "resigned").
Proof.
  apply (proj1 (proj1 (outcome_players_agree sample_game white_player black_player
                         (txt "Alice") (txt "Bob") (txt "resigned")
                         eq_refl eq_refl eq_refl eq_refl ltac:(vm_compute; discriminate))
                  ltac:(apply mem_text_true; reflexivity)));
    reflexivity.
Defined.

Definition lose_player : player := {| username := Some (txt "Alice"); result := Some (txt "lose") |}.

Definition lose_game : game :=
  {| rules := None; time_class := None; time_control := None;
     white := Some lose_player; black := Some black_player |}.

Lemma getGameOutcome_vs_RESULT_MAP_witness :
  getGameOutcome lose_game (txt "Alice") = Some (txt "unknown").
Proof.
  rewrite (getGameOutcome_vs_RESULT_MAP lose_game lose_player black_player
             (txt "Alice") (txt "lose") (txt "Loss") eq_refl eq_refl eq_refl).
  - reflexivity.
  - unfold RESULT_MAP. do 7 right. left. reflexivity.
  - reflexivity.
Defined.

Lemma outcome_non_white_is_black_witness :
  getGameOutcome sample_game (txt "Carol") = Some (txt "loss") /\
  getGameTermination sample_game (txt "Carol") = Some (txt "resigned").
Proof.
  destruct (outcome_non_white_is_black sample_game white_player black_player
              (txt "Alice") (txt "Bob") (txt "Carol") eq_refl eq_refl eq_refl eq_refl
              ltac:(vm_compute; discriminate) ltac:(vm_compute; discriminate)) as [E1 E2].
  rewrite E1, E2. split; vm_compute; reflexivity.
Defined.

Lemma formatDuration_fields_witness :
  formatDuration 3725 = txt "1:02:05" /\
  exists h m sec,
    formatDuration 3725 = h ++ ":"%char :: m ++ ":"%char :: sec /\
    h <> [] /\ forallb is_digit h = true /\
    length m = 2 /\ forallb is_digit m = true /\
    length sec = 2 /\ forallb is_digit sec = true /\
    (digits_value m < 60)%Z /\ (digits_value sec < 60)%Z /\
    (digits_value h * 3600 + digits_value m * 60 + digits_value sec)%Z = 3725%Z.
Proof.
  split; [vm_compute; reflexivity|]. apply formatDuration_fields. lia.
Defined.

Definition eco_tags : list (text * text) :=
  [(txt "Event", txt "Live Chess"); (txt "ECOUrl", txt "https://www.chess.com/openings/Scandinavian-Defense");
   (txt "ECO", txt "B01"); (txt "ECO", txt "C20")].

Lemma extractECO_first_tag_witness :
  extractECOCodeFromPGN (headers_text eco_tags ++ nl :: txt "1. e4 d5") = txt "B01" /\
  extractECOFromPGN (headers_text eco_tags ++ nl :: txt "1. e4 d5") =
    txt "https://www.chess.com/openings/Scandinavian-Defense".
Proof.
  destruct (extractECO_first_tag eco_tags (txt "1. e4 d5") eq_refl eq_refl eq_refl) as [E1 E2].
  rewrite E1, E2. split; reflexivity.
Defined.

Lemma getOpeningDataForGame_slug_witness :
  let base := baseSlug (splitEcoUrl (txt "https://www.chess.com/openings/Italian-Game-with-4-c3")) in
  let '(o, st', _) := getOpeningDataForGame sample_store 1760000000000%Z initial_cache
                        (txt "https://www.chess.com/openings/Italian-Game-with-4-c3") in
  (openingSlug o = base \/ openingSlug o = nth 0 (split (txt "-with-") base) []) /\
  cache_ok st' = true.
Proof. exact (getOpeningDataForGame_slug sample_store 1760000000000%Z initial_cache _ eq_refl). Defined.

Lemma getOpeningDataForGame_not_opening_url_witness :
  getOpeningDataForGame sample_store 1760000000000%Z initial_cache
    (txt "https://lichess.org/abcdef") = (empty_opening, initial_cache, []).
Proof. apply getOpeningDataForGame_not_opening_url. vm_compute. reflexivity. Defined.

Lemma rate_games_before_witness :
  nth_error (rate_games (loadFromDatabase new_tracker
                           (Some [{| row_format := Some (txt "blitz"); my_rating := JNum 1500 |}]))
               ([(txt "blitz", JNum 1510)] ++ (txt "blitz", JNum 1520) :: [])) 1 =
  Some {| before := JNum 1510; delta := JNum 10 |}.
Proof.
  change 1 with (length [(txt "blitz", JNum 1510)]).
  rewrite rate_games_before by (reflexivity || (apply mem_text_false; vm_compute; reflexivity)).
  vm_compute. reflexivity.
Defined.

Definition duration_tags : list (text * text) :=
  [(txt "Event", txt "Live Chess"); (txt "UTCDate", txt "2024.01.05");
   (txt "UTCTime", txt "23:59:30"); (txt "EndDate", txt "2024.01.06");
   (txt "EndTime", txt "00:01:00")].

Lemma extractDurationFromPGN_same_month_witness :
  extractDurationFromPGN (headers_text duration_tags ++ nl :: txt "1. e4 e5") = Some (Some 90%Z).
Proof.
  rewrite (extractDurationFromPGN_same_month duration_tags (txt "1. e4 e5")
             (txt "2024") (txt "01") (txt "05") (txt "06") (txt "23") (txt "59") (txt "30")
             (txt "00") (txt "01") (txt "00")); try reflexivity.
Defined.

Lemma extractDurationFromPGN_missing_tag_witness :
  extractDurationFromPGN (headers_text (removelast duration_tags) ++ nl :: txt "1. e4 e5") = None.
Proof.
  apply (extractDurationFromPGN_missing_tag _ _ (txt "EndTime")).
  - reflexivity.
  - reflexivity.
  - reflexivity.
  - apply mem_text_true. reflexivity.
  - apply mem_text_false. vm_compute. reflexivity.
Defined.

Lemma insertGame_opening_without_ECOUrl_witness :
  getOpeningDataForGame sample_store 1760000000000%Z initial_cache
    (or_else (Some (extractECOFromPGN (headers_text duration_tags ++ nl :: txt "1. e4 e5"))) []) =
  (empty_opening, initial_cache, []).
Proof.
  apply insertGame_opening_without_ECOUrl.
  - reflexivity.
  - reflexivity.
  - reflexivity.
  - apply mem_text_false. vm_compute. reflexivity.
Defined.

End Witnesses.
